(** * Decision-tree induction of comvcom's [tools/learncomm.py]

    A shallow embedding of the entropy functions, the feature classes, the
    tree nodes, [TreeBuilder], [export_tree] and the scoring loop of
    [main], followed by the properties of the specification that were
    checked against them, and by further properties of the code.  The
    earlier program [tools/learn.py] is embedded in the module [Learn].

    Conventions of the embedding.
    - Python [int] is [Z]; every division checks its denominator because
      Python raises [ZeroDivisionError].  In the first part a Python
      [float] is idealised as a real number ([R]) and rounding is not
      modelled; the module [Computed] holds the same functions over an
      arbitrary arithmetic, of which exact arithmetic and IEEE 754
      doubles are two instances, and the properties that depend on the
      numbers the program computes or compares are stated there.
    - An exception is a constructor of [pyexc]; a call that may raise
      returns [result].
    - A [dict] is an association list in insertion order; assigning to a
      key that is present overwrites the value in place.
    - A [set] of entities is the list of its members; the order in which
      Python iterates over it depends on object hashes and is a parameter
      ([set_order]).
    - The debug printing of the module has no effect on the results and is
      left out. *)

From Stdlib Require Import List String Ascii ZArith Bool Arith Lia.
From Stdlib Require Import Reals Lra Permutation Sorted DecimalString.
From Stdlib Require DecimalNat DecimalFacts SpecFloat.
Import ListNotations.

Local Open Scope string_scope.
Local Open Scope Z_scope.
Local Open Scope list_scope.

(** ** Exceptions *)

Inductive pyexc : Type :=
| AssertionError
| ZeroDivisionError
| ValueError
| TypeError
| AttributeError
| KeyError
| OverflowError
| InvalidSplit.

Inductive result (A : Type) : Type :=
| Ok (a : A)
| Raise (x : pyexc).

Arguments Ok {A} a.
Arguments Raise {A} x.

Definition bind {A B : Type} (m : result A) (k : A -> result B) : result B :=
  match m with
  | Ok a => k a
  | Raise x => Raise x
  end.

Notation "x <- m ;; k" := (bind m (fun x => k))
  (at level 61, m at next level, right associativity).
Notation "' p <- m ;; k" := (bind m (fun p => k))
  (at level 61, p pattern, m at next level, right associativity).

Definition assert (b : bool) : result unit :=
  if b then Ok tt else Raise AssertionError.

(** A [for] loop whose body may raise: the state is threaded from left to
    right and the first exception ends the loop. *)
Fixpoint foldM {A S : Type} (body : S -> A -> result S) (l : list A) (s : S)
  : result S :=
  match l with
  | [] => Ok s
  | a :: l' => s' <- body s a ;; foldM body l' s'
  end.

Fixpoint mapM {A B : Type} (f : A -> result B) (l : list A) : result (list B) :=
  match l with
  | [] => Ok []
  | a :: l' => b <- f a ;; bs <- mapM f l' ;; Ok (b :: bs)
  end.

(** ** Values *)

(** What [e[attr]] holds when the attribute is present: text read from the
    feature file, or one of the integer deltas computed by [main]. *)
Inductive value : Type :=
| VStr (s : string)
| VInt (z : Z).

(** The objects used as branch values, hence as keys of [children]. *)
Inductive bval : Type :=
| BNone
| BStr (s : string)
| BInt (z : Z)
| BBool (b : bool).

Definition of_attr (v : option value) : bval :=
  match v with
  | None => BNone
  | Some (VStr s) => BStr s
  | Some (VInt z) => BInt z
  end.

(** Python's [==] on these objects; [True == 1] and [False == 0], and the
    hashes agree, so a dict treats them as one key. *)
Definition py_eqb (a b : bval) : bool :=
  match a, b with
  | BNone, BNone => true
  | BStr s, BStr t => String.eqb s t
  | BInt x, BInt y => Z.eqb x y
  | BBool x, BBool y => Bool.eqb x y
  | BBool x, BInt y | BInt y, BBool x => Z.eqb (if x then 1 else 0) y
  | _, _ => false
  end.

Definition value_eqb (a b : value) : bool :=
  match a, b with
  | VStr s, VStr t => String.eqb s t
  | VInt x, VInt y => Z.eqb x y
  | _, _ => false
  end.

(** [a < b]: integers by value, strings lexicographically, and a
    [TypeError] between a string and an integer. *)
Definition value_lt (a b : value) : result bool :=
  match a, b with
  | VInt x, VInt y => Ok (Z.ltb x y)
  | VStr s, VStr t => Ok (String.ltb s t)
  | _, _ => Raise TypeError
  end.

(** ** Dictionaries *)

Section Dict.
Context {K V : Type} (eqb : K -> K -> bool).

Definition dict : Type := list (K * V).

Fixpoint dict_get (d : dict) (k : K) : option V :=
  match d with
  | [] => None
  | (k', v) :: d' => if eqb k' k then Some v else dict_get d' k
  end.

(** [d[k] = v] *)
Fixpoint dict_set (d : dict) (k : K) (v : V) : dict :=
  match d with
  | [] => [(k, v)]
  | (k', v') :: d' =>
      if eqb k' k then (k', v) :: d' else (k', v') :: dict_set d' k v
  end.

(** [d[k]], raising [KeyError] *)
Definition dict_item (d : dict) (k : K) : result V :=
  match dict_get d k with
  | Some v => Ok v
  | None => Raise KeyError
  end.

Definition dict_keys (d : dict) : list K := map fst d.
Definition dict_values (d : dict) : list V := map snd d.

(** No key of the dictionary is equal, for [eqb], to a later one. *)
Fixpoint dict_wf (d : dict) : Prop :=
  match d with
  | [] => True
  | (k, _) :: d' => (forall k', In k' (dict_keys d') -> eqb k k' = false) /\ dict_wf d'
  end.
End Dict.

Arguments dict K V : clear implicits.

(** ** Entities *)

(** [CommentEntry] comes from the [comment] module.  What this module uses
    of an entry: item access [e[attr]] (with [None] for an attribute that
    is not there), the [key] attribute that [main] sets, and the identity
    of the object, which is what set membership compares.  [eid] stands
    for that identity: two entries read from two records differ in it. *)
Record entity : Type := mkEntity {
  eid : nat;
  key : string;
  feats : list (string * value)
}.

Definition getitem (e : entity) (attr : string) : option value :=
  dict_get String.eqb (feats e) attr.

Definition value_eq_dec (a b : value) : {a = b} + {a <> b}.
Proof. decide equality; [apply string_dec | apply Z.eq_dec]. Defined.

Definition attr_eq_dec (p q : string * value) : {p = q} + {p <> q}.
Proof. decide equality; [apply value_eq_dec | apply string_dec]. Defined.

Definition entity_eq_dec (a b : entity) : {a = b} + {a <> b}.
Proof.
  decide equality;
    [apply (list_eq_dec attr_eq_dec) | apply string_dec | apply Nat.eq_dec].
Defined.

Definition entity_eqb (a b : entity) : bool :=
  if entity_eq_dec a b then true else false.

(** [e in es] *)
Definition mem (e : entity) (es : list entity) : bool :=
  existsb (entity_eqb e) es.

(** [es.add(e)] on a set kept as the list of its members *)
Definition set_add (es : list entity) (e : entity) : list entity :=
  if mem e es then es else es ++ [e].

(** The order in which a set is iterated: some arrangement of its members,
    fixed by the hashes of the objects and not by the program. *)
Record set_order : Type := mkSetOrder {
  iter : list entity -> list entity;
  iter_perm : forall es, Permutation (iter es) es
}.

(** ** Entropy *)

Definition log2 (x : R) : R := (ln x / ln 2)%R.

Definition Rltb (x y : R) : bool := if Rlt_dec x y then true else false.
Definition Rleb (x y : R) : bool := if Rle_dec x y then true else false.

(** [math.log2(x)]: a domain error outside the positive numbers *)
Definition py_log2 (x : R) : result R :=
  if Rleb x 0 then Raise ValueError else Ok (log2 x).

(** [a / b] on integers (true division) *)
Definition int_div (a b : Z) : result R :=
  if b =? 0 then Raise ZeroDivisionError else Ok (IZR a / IZR b)%R.

(** [x / b] with a float numerator and an integer denominator *)
Definition float_div (x : R) (b : Z) : result R :=
  if b =? 0 then Raise ZeroDivisionError else Ok (x / IZR b)%R.

Definition zsum (l : list Z) : Z := fold_left Z.add l 0.

(** [sum(g(x) for x in l)] for a float-valued [g] that may raise *)
Definition fsum {A : Type} (g : A -> result R) (l : list A) : result R :=
  foldM (fun acc a => t <- g a ;; Ok (acc + t)%R) l 0%R.

Definition calcetp (values : list Z) : result R :=
  let n := zsum values in
  s <- fsum (fun v => q <- int_div n v ;; l <- py_log2 q ;; Ok (IZR v * l)%R) values ;;
  float_div s n.

(** The [calcetp] of [learn.py] takes the dictionary itself. *)
Definition calcetp_learn (keys : dict string Z) : result R :=
  let n := zsum (dict_values keys) in
  s <- fsum (fun v => q <- int_div n v ;; l <- py_log2 q ;; Ok (IZR v * l)%R)
         (dict_values keys) ;;
  float_div s n.

(** The body of the loop of [countkeys] *)
Definition count_step (d : dict string Z) (e : entity) : dict string Z :=
  let k := key e in
  match dict_get String.eqb d k with
  | Some c => dict_set String.eqb d k (c + 1)
  | None => dict_set String.eqb d k 1
  end.

Definition countkeys (ents : list entity) : dict string Z :=
  fold_left count_step ents [].

Definition bestkey (keys : dict string Z) : result string :=
  let '(maxkey, _) :=
    fold_left (fun (st : option string * Z) (kv : string * Z) =>
                 let '(maxkey, maxv) := st in
                 let '(k, v) := kv in
                 match maxkey with
                 | None => (Some k, v)
                 | Some _ => if maxv <? v then (Some k, v) else st
                 end) keys (None, 0) in
  match maxkey with
  | Some k => Ok k
  | None => Raise AssertionError
  end.

Definition entetp (ents : list entity) : result R :=
  calcetp (dict_values (countkeys ents)).

Definition len {A : Type} (l : list A) : Z := Z.of_nat (List.length l).

(** ** Features *)

(** The five feature classes.  [DF1] is [DiscreteFeatureOne] with its
    [index], [MF1] is [MembershipFeatureOne] with its [nmems]; both are
    counts, never negative. *)
Inductive feature : Type :=
| DF (attr : string)
| DF1 (attr : string) (index : nat)
| MF (attr : string)
| MF1 (attr : string) (nmems : nat)
| QF (attr : string).

(** ['%d' % n] *)
Definition decimal (n : nat) : string := NilZero.string_of_uint (Nat.to_uint n).

Definition name (f : feature) : string :=
  match f with
  | DF attr => "DF:" ++ attr
  | DF1 attr index => ("DF" ++ decimal index ++ ":") ++ attr
  | MF attr => "MF:" ++ attr
  | MF1 attr nmems => ("MF" ++ decimal nmems ++ ":") ++ attr
  | QF attr => "QF:" ++ attr
  end%string.

(** [s.split(',')] *)
Fixpoint split_comma (s : string) : list string :=
  match s with
  | EmptyString => [EmptyString]
  | String c s' =>
      if Ascii.eqb c "," then EmptyString :: split_comma s'
      else match split_comma s' with
           | [] => [String c EmptyString]
           | t :: ts => String c t :: ts
           end
  end.

(** [Feature.get], inherited by [DiscreteFeature] and [QuantitativeFeature] *)
Definition Feature_get (attr : string) (e : entity) : option value :=
  getitem e attr.

(** [DiscreteFeatureOne.get]; an integer has no [split] method *)
Definition DF1_get (attr : string) (index : nat) (e : entity)
  : result (option value) :=
  match getitem e attr with
  | None => Ok None
  | Some (VInt _) => Raise AttributeError
  | Some (VStr s) =>
      let f := split_comma s in
      if len f <=? Z.of_nat index then Ok None
      else Ok (option_map VStr (nth_error f index))
  end.

(** [MembershipFeature.get] *)
Definition MF_get (attr : string) (e : entity) : result (list string) :=
  match getitem e attr with
  | None => Ok []
  | Some (VInt _) => Raise AttributeError
  | Some (VStr s) => Ok (split_comma s)
  end.

(** [MembershipFeatureOne.get] *)
Definition MF1_get (attr : string) (nmems : nat) (e : entity)
  : result (list string) :=
  match getitem e attr with
  | None => Ok []
  | Some (VInt _) => Raise AttributeError
  | Some (VStr s) => Ok (firstn nmems (split_comma s))
  end.

(** The value a discrete feature groups by. *)
Definition discrete_get (f : feature) (e : entity) : result (option value) :=
  match f with
  | DF1 attr index => DF1_get attr index e
  | DF attr | MF attr | MF1 attr _ | QF attr => Ok (Feature_get attr e)
  end.

(** The tokens a membership feature looks at. *)
Definition member_get (f : feature) (e : entity) : result (list string) :=
  match f with
  | MF1 attr nmems => MF1_get attr nmems e
  | DF attr | DF1 attr _ | MF attr | QF attr => MF_get attr e
  end.

(** [arg in tokens]: [==] against each token; only a string can be equal
    to one. *)
Definition arg_in (arg : option value) (tokens : list string) : bool :=
  match arg with
  | Some (VStr a) => existsb (String.eqb a) tokens
  | _ => false
  end.

Definition ident (f : feature) (arg : option value) (e : entity) : result bval :=
  match f with
  | DF _ | DF1 _ _ =>
      v <- discrete_get f e ;; Ok (of_attr v)
  | MF _ | MF1 _ _ =>
      tokens <- member_get f e ;; Ok (BBool (arg_in arg tokens))
  | QF attr =>
      match Feature_get attr e with
      | None => Ok (BStr "un")
      | Some v =>
          match arg with
          | None => Raise TypeError
          | Some a =>
              b <- value_lt v a ;;
              Ok (if b then BStr "lt" else BStr "ge")
          end
      end
  end.

(** What [split] returns: the weighted entropy, the argument and the list
    of (branch value, entities). *)
Definition partitions : Type := list (bval * list entity).
Definition split_result : Type := (R * option value * partitions)%type.

(** *** DiscreteFeature.split *)

(** The body of the grouping loop *)
Definition DF_step (f : feature) (d : dict bval (list entity)) (e : entity)
  : result (dict bval (list entity)) :=
  v <- discrete_get f e ;;
  let k := of_attr v in
  match dict_get py_eqb d k with
  | Some es => Ok (dict_set py_eqb d k (es ++ [e]))
  | None => Ok (dict_set py_eqb d k [e])
  end.

Definition DF_group (f : feature) (ents : list entity)
  : result (dict bval (list entity)) :=
  foldM (DF_step f) ents [].

Definition DF_split (f : feature) (ents : list entity) : result split_result :=
  _ <- assert (2 <=? len ents) ;;
  d <- DF_group f ents ;;
  if len d <? 2 then Raise InvalidSplit
  else
    let n := len ents in
    s <- fsum (fun es => h <- entetp es ;; Ok (IZR (len es) * h)%R)
           (dict_values d) ;;
    avgetp <- float_div s n ;;
    Ok (avgetp, None, d).

(** *** MembershipFeature.split *)

(** The running minimum kept by the scanning loops: [None] before the
    first candidate, then the candidate and its weighted entropy; a later
    candidate replaces it only when strictly smaller. *)
Definition keep_min {C : Type} (st : option (C * R)) (c : C) (avgetp : R)
  : option (C * R) :=
  match st with
  | None => Some (c, avgetp)
  | Some (_, minetp) => if Rltb avgetp minetp then Some (c, avgetp) else st
  end.

Section WithSetOrder.
Variable ord : set_order.

(** [entetp(es)] and [list(es)] for a set [es] *)
Definition set_entetp (es : list entity) : result R := entetp (iter ord es).
Definition set_list (es : list entity) : list entity := iter ord es.

(** [e] joins the set filed under the token [v] *)
Definition MF_add (e : entity) (d : dict string (list entity)) (v : string)
  : dict string (list entity) :=
  match dict_get String.eqb d v with
  | Some es => dict_set String.eqb d v (set_add es e)
  | None => dict_set String.eqb d v (set_add [] e)
  end.

Definition MF_index (f : feature) (ents : list entity)
  : result (dict string (list entity)) :=
  foldM (fun d e =>
           tokens <- member_get f e ;;
           Ok (fold_left (MF_add e) tokens d)) ents [].

(** [[e for e in ents if e not in es]] *)
Definition outside (ents es : list entity) : list entity :=
  filter (fun e => negb (mem e es)) ents.

(** The body of the loop over [d.items()] *)
Definition MF_try (ents : list entity)
           (st : option ((string * list entity) * R))
           (ves : string * list entity)
  : result (option ((string * list entity) * R)) :=
  let '(v, es) := ves in
  let nes := outside ents es in
  match nes with
  | [] => Ok st
  | _ :: _ =>
      h1 <- set_entetp es ;;
      h2 <- entetp nes ;;
      avgetp <- float_div (IZR (len es) * h1 + IZR (len nes) * h2)%R (len ents) ;;
      Ok (keep_min st (v, nes) avgetp)
  end.

Definition MF_scan (ents : list entity) (d : dict string (list entity))
  : result (option ((string * list entity) * R)) :=
  foldM (MF_try ents) d None.

Definition MF_split (f : feature) (ents : list entity) : result split_result :=
  _ <- assert (2 <=? len ents) ;;
  d <- MF_index f ents ;;
  if len d <? 2 then Raise InvalidSplit
  else
    st <- MF_scan ents d ;;
    match st with
    | None => Raise InvalidSplit
    | Some ((arg, nes), minetp) =>
        es <- dict_item String.eqb d arg ;;
        Ok (minetp, Some (VStr arg),
            [(BBool true, set_list es); (BBool false, nes)])
    end.

(** *** QuantitativeFeature.split *)

Definition same_kind (a b : value) : bool :=
  match a, b with
  | VStr _, VStr _ | VInt _, VInt _ => true
  | _, _ => false
  end.

Definition value_ltb (a b : value) : bool :=
  match value_lt a b with
  | Ok b => b
  | Raise _ => false
  end.

Fixpoint insert_by_value (p : entity * value) (l : list (entity * value))
  : list (entity * value) :=
  match l with
  | [] => [p]
  | q :: l' =>
      if value_ltb (snd q) (snd p) then q :: insert_by_value p l'
      else p :: l
  end.

(** [pairs.sort(key=lambda ev: ev[1])].  The sort is stable and compares
    keys with [<]; the result is the one stable arrangement, produced
    here by insertion.  Ordering a list that holds both a string and an
    integer has to compare two such keys somewhere, which raises
    [TypeError], whatever the order of the comparisons. *)
Definition sort_pairs (pairs : list (entity * value))
  : result (list (entity * value)) :=
  match pairs with
  | [] => Ok []
  | (_, v) :: _ =>
      if forallb (fun p => same_kind v (snd p)) pairs
      then Ok (fold_right insert_by_value [] pairs)
      else Raise TypeError
  end.

Definition QF_collect (attr : string) (ents : list entity)
  : list (entity * value) * list entity :=
  fold_left (fun (st : list (entity * value) * list entity) e =>
               let '(pairs, undefs) := st in
               match Feature_get attr e with
               | None => (pairs, undefs ++ [e])
               | Some v => (pairs ++ [(e, v)], undefs)
               end) ents ([], []).

(** [avgetp] for the cut before position [i] *)
Definition QF_avgetp (es : list entity) (i : nat) : result R :=
  let n := List.length es in
  h1 <- entetp (firstn i es) ;;
  h2 <- entetp (skipn i es) ;;
  float_div (IZR (Z.of_nat i) * h1 + IZR (Z.of_nat n - Z.of_nat i) * h2)%R
            (Z.of_nat n).

(** The body of the loop over [range(1, n)]; the state of the loop is
    [v0] and the running minimum. *)
Definition QF_try (es : list entity) (vs : list value)
           (st : value * option (nat * R)) (i : nat)
  : result (value * option (nat * R)) :=
  let '(v0, m) := st in
  let v1 := nth i vs v0 in
  if value_eqb v0 v1 then Ok st
  else
    avgetp <- QF_avgetp es i ;;
    Ok (v1, keep_min m i avgetp).

Definition QF_scan (es : list entity) (vs : list value) (v0 : value)
  : result (value * option (nat * R)) :=
  foldM (QF_try es vs) (seq 1 (List.length vs - 1)) (v0, None).

Definition QF_split (attr : string) (ents : list entity) : result split_result :=
  _ <- assert (2 <=? len ents) ;;
  let '(pairs, undefs) := QF_collect attr ents in
  match pairs with
  | [] => Raise InvalidSplit
  | (_, v) :: _ =>
      sorted <- sort_pairs pairs ;;
      let es := map fst sorted in
      let vs := map snd sorted in
      let v0 := nth 0 vs v in
      '(_, m) <- QF_scan es vs v0 ;;
      match m with
      | None => Raise InvalidSplit
      | Some (minsplit, minetp) =>
          let arg := nth minsplit vs v0 in
          let sp := [(BStr "lt", firstn minsplit es);
                     (BStr "ge", skipn minsplit es)] in
          Ok (minetp, Some arg,
              match undefs with
              | [] => sp
              | _ :: _ => sp ++ [(BStr "un", undefs)]
              end)
      end
  end.

Definition split (f : feature) (ents : list entity) : result split_result :=
  match f with
  | DF _ | DF1 _ _ => DF_split f ents
  | MF _ | MF1 _ _ => MF_split f ents
  | QF attr => QF_split attr ents
  end.

(** ** Tree nodes *)

#[warnings="-register-all"]
Inductive tree : Type :=
| TreeBranch (f : feature) (arg : option value) (default : string)
             (children : list (bval * tree))
| TreeLeaf (k : string).

(** [TreeBranch.test] and [TreeLeaf.test].  The [except KeyError] also
    covers the call on the child. *)
Fixpoint test (t : tree) (e : entity) : result string :=
  match t with
  | TreeLeaf k => Ok k
  | TreeBranch f arg default children =>
      v <- ident f arg e ;;
      (fix lookup (d : list (bval * tree)) : result string :=
         match d with
         | [] => Ok default
         | (k, branch) :: d' =>
             if py_eqb k v then
               match test branch e with
               | Raise KeyError => Ok default
               | r => r
               end
             else lookup d'
         end) children
  end.

(** ** TreeBuilder *)

Record TreeBuilder : Type := mkTreeBuilder {
  features : dict string feature;
  minkeys : Z;
  minetp : R
}.

Definition addfeat (b : TreeBuilder) (feat : feature) : TreeBuilder :=
  mkTreeBuilder (dict_set String.eqb (features b) (name feat) feat)
                (minkeys b) (minetp b).

(** One pass of the loop over the winning partitions: [rec] is the
    recursive call; a subset on which it returns [None] becomes a leaf. *)
Definition build_child (rec : list entity -> option (result (option tree)))
           (es : list entity) : option (result tree) :=
  match rec es with
  | None => None
  | Some (Raise x) => Some (Raise x)
  | Some (Ok (Some branch)) => Some (Ok branch)
  | Some (Ok None) =>
      Some (best <- bestkey (countkeys es) ;; Ok (TreeLeaf best))
  end.

Fixpoint build_children (rec : list entity -> option (result (option tree)))
         (sp : partitions) (children : dict bval tree)
  : option (result (dict bval tree)) :=
  match sp with
  | [] => Some (Ok children)
  | (v, es) :: sp' =>
      match build_child rec es with
      | None => None
      | Some (Raise x) => Some (Raise x)
      | Some (Ok branch) =>
          build_children rec sp' (dict_set py_eqb children v branch)
      end
  end.

Variable builder : TreeBuilder.

(** The loop over [self.features.values()]: a feature that raises
    [InvalidSplit] is skipped, any other exception leaves [build]. *)
Definition choose (ents : list entity)
  : result (option ((feature * option value * partitions) * R)) :=
  foldM (fun st feat =>
           match split feat ents with
           | Raise InvalidSplit => Ok st
           | Raise x => Raise x
           | Ok (etp, arg, sp) => Ok (keep_min st (feat, arg, sp) etp)
           end) (dict_values (features builder)) None.

(** The body of [build]; [rec] is the recursive call. *)
Definition build_body (rec : list entity -> option (result (option tree)))
           (ents : list entity) : option (result (option tree)) :=
  let keys := countkeys ents in
  match calcetp (dict_values keys) with
  | Raise x => Some (Raise x)
  | Ok etp =>
      if Rltb etp (minetp builder) then Some (Ok None)
      else if len ents <? minkeys builder then Some (Ok None)
      else
        match choose ents with
        | Raise x => Some (Raise x)
        | Ok None => Some (Ok None)
        | Ok (Some ((feat, arg, sp), _)) =>
            match bestkey keys with
            | Raise x => Some (Raise x)
            | Ok default =>
                match build_children rec sp [] with
                | None => None
                | Some (Raise x) => Some (Raise x)
                | Some (Ok children) =>
                    Some (Ok (Some (TreeBranch feat arg default children)))
                end
            end
        end
  end.

(** [build], with a bound on the depth of the recursion; the outer
    [None] means that the bound was reached. *)
Fixpoint build_fuel (fuel : nat) (ents : list entity)
  : option (result (option tree)) :=
  match fuel with
  | O => None
  | S fuel' => build_body (build_fuel fuel') ents
  end.

(** Every subset handed to a recursive call is shorter than [ents], so
    this bound is never reached and the last case is never taken (see
    [build_fuel_enough] below). *)
Definition build (ents : list entity) : result (option tree) :=
  match build_fuel (S (List.length ents)) ents with
  | Some r => r
  | None => Ok None
  end.

(** ** Persisted trees *)

(** What [export_tree] returns and what [main] reads back from the file
    it wrote: a 4-tuple for a branch, with the list of the pairs of a
    branch value and a subtree, and the bare label for a leaf.
    [import_tree] is embedded on data of this shape.  [eval] can yield
    any object: a tuple of another length or children that are not pairs
    make the unpacking raise [ValueError] or [TypeError], and children
    given as a tuple are read like a list; such data is outside this
    type. *)
#[warnings="-register-all"]
Inductive pydata : Type :=
| PTuple (nm : string) (arg : option value) (default : string)
         (children : list (bval * pydata))
| PScalar (k : string).

Fixpoint export_tree (t : tree) : pydata :=
  match t with
  | TreeBranch f arg default children =>
      PTuple (name f) arg default
             (map (fun vb : bval * tree => (fst vb, export_tree (snd vb)))
                  children)
  | TreeLeaf k => PScalar k
  end.

(** The dict comprehension is evaluated before [self.features[name]]. *)
Fixpoint import_tree (data : pydata) : result tree :=
  match data with
  | PTuple nm arg default children =>
      ch <- (fix comprehension (l : list (bval * pydata)) (acc : dict bval tree)
               : result (dict bval tree) :=
               match l with
               | [] => Ok acc
               | (v, branch) :: l' =>
                   t <- import_tree branch ;;
                   comprehension l' (dict_set py_eqb acc v t)
               end) children [] ;;
      f <- dict_item String.eqb (features builder) nm ;;
      Ok (TreeBranch f arg default ch)
  | PScalar k => Ok (TreeLeaf k)
  end.
End WithSetOrder.

(** ** Scoring (the testing branch of [main]) *)

(** [d[k] = d.get(k, 0) + 1] *)
Definition incr (d : dict string Z) (k : string) : dict string Z :=
  dict_set String.eqb d k
    (match dict_get String.eqb d k with Some c => c | None => 0 end + 1).

Record counters : Type := mkCounters {
  correct : dict string Z;
  keys : dict string Z;
  resp : dict string Z
}.

Definition tally (t : tree) (ents : list entity) : result counters :=
  foldM (fun c e =>
           let keys' := incr (keys c) (key e) in
           k <- test t e ;;
           let resp' := incr (resp c) k in
           Ok (if String.eqb (key e) k
               then mkCounters (incr (correct c) k) keys' resp'
               else mkCounters (correct c) keys' resp'))
        ents (mkCounters [] [] []).

(** [x / y] on floats *)
Definition real_div (x y : R) : result R :=
  if Req_dec_T y 0 then Raise ZeroDivisionError else Ok (x / y)%R.

(** The values printed on one per-label line. *)
Record line : Type := mkLine {
  line_label : string;
  line_prec : R;
  line_correct : Z;
  line_resp : Z;
  line_recl : R;
  line_keys : Z;
  line_f : R
}.

Definition report_line (c : counters) (kv : string * Z) : result line :=
  let '(k, v) := kv in
  rk <- dict_item String.eqb (resp c) k ;;
  p <- int_div v rk ;;
  kk <- dict_item String.eqb (keys c) k ;;
  r <- int_div v kk ;;
  f <- real_div (2 * (p * r))%R (p + r)%R ;;
  Ok (mkLine k p v rk r kk f).

(** The per-label lines, then the two numbers of the last line. *)
Definition score (t : tree) (ents : list entity)
  : result (list line * (Z * Z)) :=
  c <- tally t ents ;;
  ls <- mapM (report_line c) (correct c) ;;
  Ok (ls, (zsum (dict_values (correct c)), zsum (dict_values (keys c)))).

(** ** The features and the two branches of [main] *)

Definition add_target_feats (b : TreeBuilder) : TreeBuilder :=
  let b := addfeat b (QF "deltaLine") in
  let b := addfeat b (QF "deltaCols") in
  let b := addfeat b (QF "deltaLeft") in
  let b := addfeat b (QF "deltaRight") in
  let b := addfeat b (DF1 "rightTypes" 0) in
  let b := addfeat b (MF1 "rightTypes" 1) in
  let b := addfeat b (MF "rightTypes") in
  addfeat b (MF1 "words" 1).

Definition add_cat_feats (b : TreeBuilder) : TreeBuilder :=
  let b := addfeat b (DF "type") in
  let b := addfeat b (DF1 "parentTypes" 0) in
  let b := addfeat b (MF1 "parentTypes" 1) in
  let b := addfeat b (MF "parentTypes") in
  let b := addfeat b (DF1 "leftTypes" 0) in
  let b := addfeat b (MF1 "leftTypes" 1) in
  let b := addfeat b (MF "leftTypes") in
  let b := addfeat b (DF "codeLike") in
  let b := addfeat b (DF "empty") in
  let b := addfeat b (DF1 "posTags" 0) in
  let b := addfeat b (MF1 "posTags" 1) in
  addfeat b (MF "posTags").

(** [TreeBuilder(minkeys=minkeys, debug=debug)] followed by
    [add_cat_feats(builder)]; [minetp] keeps its default, 0.10. *)
Definition main_builder (minkeys : Z) : TreeBuilder :=
  add_cat_feats (mkTreeBuilder [] minkeys (1 / 10)%R).

(** [export_tree(root)] on what [build] returned: [None] is no
    [TreeBranch], and has no attribute [key]. *)
Definition export_root (root : option tree) : result pydata :=
  match root with
  | Some t => Ok (export_tree t)
  | None => Raise AttributeError
  end.

(** The training branch of [main]: the value that is printed. *)
Definition train (ord : set_order) (minkeys : Z) (ents : list entity)
  : result pydata :=
  root <- build ord (main_builder minkeys) ents ;;
  export_root root.


(** * [tools/learn.py]

    The earlier, smaller program: two feature classes that read the
    attribute named like the feature, branches with a list of children and
    no default, a builder made from feature names.  [countkeys] and
    [bestkey] are those of [learncomm.py], word for word; [calcetp] takes
    the dictionary ([calcetp_learn] above). *)

Module Learn.

Definition entetp (ents : list entity) : result R :=
  calcetp_learn (countkeys ents).

(** What [split] returns: the weighted entropy, the argument ([None] for
    a Discrete feature, the threshold [v] of the pair [('<', v)] for a
    Quantitative one) and the list of subsets. *)
Definition split_result : Type := (R * option value * list (list entity))%type.

(** The body of the grouping loop, on [v = e[self.name]] *)
Definition DF_step (name : string) (d : dict bval (list entity)) (e : entity)
  : dict bval (list entity) :=
  let k := of_attr (getitem e name) in
  match dict_get py_eqb d k with
  | Some es => dict_set py_eqb d k (es ++ [e])
  | None => dict_set py_eqb d k [e]
  end.

Definition DF_split (name : string) (ents : list entity) : result split_result :=
  _ <- assert (2 <=? len ents) ;;
  let d := fold_left (DF_step name) ents [] in
  if len d <? 2 then Raise InvalidSplit
  else
    let n := len ents in
    s <- fsum (fun es => h <- entetp es ;; Ok (IZR (len es) * h)%R)
           (dict_values d) ;;
    avgetp <- float_div s n ;;
    Ok (avgetp, None, dict_values d).

(** [[(e, e[self.name]) for e in ents]] *)
Definition QF_pairs (name : string) (ents : list entity)
  : list (entity * option value) :=
  map (fun e => (e, getitem e name)) ents.

(** The keys of the sort when none of them is [None]. *)
Fixpoint all_defined (pairs : list (entity * option value))
  : option (list (entity * value)) :=
  match pairs with
  | [] => Some []
  | (e, Some v) :: l =>
      match all_defined l with
      | Some l' => Some ((e, v) :: l')
      | None => None
      end
  | (_, None) :: _ => None
  end.

(** [pairs.sort(key=lambda ev: ev[1])] on at least two pairs: the sort
    compares every key with another one, [None] cannot be compared, and
    a string cannot be compared with an integer. *)
Definition sort_keys (pairs : list (entity * option value))
  : result (list (entity * value)) :=
  match all_defined pairs with
  | None => Raise TypeError
  | Some l => sort_pairs l
  end.

(** [avgetp] for the cut before position [i] *)
Definition QF_avgetp (es : list entity) (n : Z) (i : nat) : result R :=
  h1 <- entetp (firstn i es) ;;
  h2 <- entetp (skipn i es) ;;
  float_div (IZR (Z.of_nat i) * h1 + IZR (n - Z.of_nat i) * h2)%R n.

(** The body of the loop over [range(1, n)] *)
Definition QF_try (es : list entity) (vs : list value) (n : Z)
           (st : value * option (nat * R)) (i : nat)
  : result (value * option (nat * R)) :=
  let '(v0, m) := st in
  let v1 := nth i vs v0 in
  if value_eqb v0 v1 then Ok st
  else
    avgetp <- QF_avgetp es n i ;;
    Ok (v1, keep_min m i avgetp).

(** The assertion leaves at least two pairs, so [vs[0]] and [vs[i]] exist
    and the default of [nth] is not used. *)
Definition QF_split (name : string) (ents : list entity) : result split_result :=
  _ <- assert (2 <=? len ents) ;;
  sorted <- sort_keys (QF_pairs name ents) ;;
  let es := map fst sorted in
  let vs := map snd sorted in
  let n := len ents in
  let v0 := nth 0 vs (VInt 0) in
  '(_, m) <- foldM (QF_try es vs n) (seq 1 (Z.to_nat n - 1)) (v0, None) ;;
  match m with
  | None => Raise InvalidSplit
  | Some (minsplit, minetp) =>
      Ok (minetp, Some (nth minsplit vs v0),
          [firstn minsplit es; skipn minsplit es])
  end.

Inductive feature : Type :=
| DF (name : string)
| QF (name : string).

Definition name (f : feature) : string :=
  match f with
  | DF n | QF n => n
  end.

Definition split (f : feature) (ents : list entity) : result split_result :=
  match f with
  | DF n => DF_split n ents
  | QF n => QF_split n ents
  end.

#[warnings="-register-all"]
Inductive tree : Type :=
| TreeBranch (f : feature) (arg : option value) (children : list tree)
| TreeLeaf (k : string).

Record TreeBuilder : Type := mkTreeBuilder {
  features : list feature;
  minkeys : Z;
  minent : R
}.

Definition FEATURES : list feature := [QF "deltaLine"; QF "deltaCols"].

(** [{ feat.name: feat for feat in FEATURES }] *)
Definition name2feat : dict string feature :=
  fold_left (fun d feat => dict_set String.eqb d (name feat) feat) FEATURES [].

Definition getfeat (nm : string) : result feature :=
  dict_item String.eqb name2feat nm.

(** [TreeBuilder(names, minkeys, minent)] *)
Definition new (names : list string) (minkeys : Z) (minent : R)
  : result TreeBuilder :=
  feats <- mapM getfeat names ;;
  Ok (mkTreeBuilder feats minkeys minent).

(** The loop over the subsets of the winning split: [rec] is the
    recursive call; a subset on which it returns [None] becomes a leaf. *)
Fixpoint build_children (rec : list entity -> option (result (option tree)))
         (sp : list (list entity)) : option (result (list tree)) :=
  match sp with
  | [] => Some (Ok [])
  | es :: sp' =>
      match rec es with
      | None => None
      | Some (Raise x) => Some (Raise x)
      | Some (Ok r) =>
          match (match r with
                 | Some branch => Ok branch
                 | None => best <- bestkey (countkeys es) ;; Ok (TreeLeaf best)
                 end) with
          | Raise x => Some (Raise x)
          | Ok child =>
              match build_children rec sp' with
              | None => None
              | Some (Raise x) => Some (Raise x)
              | Some (Ok children) => Some (Ok (child :: children))
              end
          end
      end
  end.

Section WithBuilder.
Variable builder : TreeBuilder.

(** The loop over [self.features] *)
Definition choose (ents : list entity)
  : result (option ((feature * option value * list (list entity)) * R)) :=
  foldM (fun st feat =>
           match split feat ents with
           | Raise InvalidSplit => Ok st
           | Raise x => Raise x
           | Ok (etp, arg, sp) => Ok (keep_min st (feat, arg, sp) etp)
           end) (features builder) None.

(** The body of [build]; [rec] is the recursive call. *)
Definition build_body (rec : list entity -> option (result (option tree)))
           (ents : list entity) : option (result (option tree)) :=
  let keys := countkeys ents in
  match calcetp_learn keys with
  | Raise x => Some (Raise x)
  | Ok etp =>
      if len ents <? 2 then Some (Ok None)
      else if len keys <? minkeys builder then Some (Ok None)
      else if Rltb etp (minent builder) then Some (Ok None)
      else
        match choose ents with
        | Raise x => Some (Raise x)
        | Ok None => Some (Ok None)
        | Ok (Some ((feat, arg, sp), _)) =>
            match build_children rec sp with
            | None => None
            | Some (Raise x) => Some (Raise x)
            | Some (Ok children) =>
                Some (Ok (Some (TreeBranch feat arg children)))
            end
        end
  end.

(** [build], with a bound on the depth of the recursion; the outer
    [None] means that the bound was reached, which does not happen above
    the size of the set (see [learn_build_fuel_enough] below). *)
Fixpoint build_fuel (fuel : nat) (ents : list entity)
  : option (result (option tree)) :=
  match fuel with
  | O => None
  | S fuel' => build_body (build_fuel fuel') ents
  end.

Definition build (ents : list entity) : result (option tree) :=
  match build_fuel (S (List.length ents)) ents with
  | Some r => r
  | None => Ok None
  end.
End WithBuilder.

(** What [export_tree] returns: a 3-tuple for a branch, with the list of
    the subtrees, and the bare label for a leaf.  [import_tree] is
    embedded on data of this shape; other objects are outside this
    type. *)
#[warnings="-register-all"]
Inductive pydata : Type :=
| PTuple (nm : string) (arg : option value) (children : list pydata)
| PScalar (k : string).

Fixpoint export_tree (t : tree) : pydata :=
  match t with
  | TreeBranch f arg children => PTuple (name f) arg (map export_tree children)
  | TreeLeaf k => PScalar k
  end.

(** The children are imported before the feature is looked up;
    [builder.getfeat] is a class method and reads [name2feat], whatever
    the builder. *)
Fixpoint import_tree (builder : TreeBuilder) (data : pydata) : result tree :=
  match data with
  | PTuple nm arg children =>
      ch <- (fix comprehension (l : list pydata) : result (list tree) :=
               match l with
               | [] => Ok []
               | branch :: l' =>
                   t <- import_tree builder branch ;;
                   ts <- comprehension l' ;;
                   Ok (t :: ts)
               end) children ;;
      f <- getfeat nm ;;
      Ok (TreeBranch f arg ch)
  | PScalar k => Ok (TreeLeaf k)
  end.

(** What [main] prints last, from the entries it has read:
    [root.dump()] and [export_tree(root)] need a tree. *)
Definition main (ents : list entity) : result pydata :=
  builder <- new ["deltaLine"; "deltaCols"] 2 (1 / 100)%R ;;
  root <- build builder ents ;;
  match root with
  | None => Raise AttributeError
  | Some t => Ok (export_tree t)
  end.

End Learn.

(** * The numbers the interpreter computes

    In the definitions above a Python [float] is a real number.  What
    the interpreter computes is a double: quotients, products and sums
    are rounded, an integer too large for a double raises
    [OverflowError], and [math.log2] and [sum] are those of the platform
    and of the version of the interpreter.  The module [Computed] holds
    the functions of [learncomm.py] that compute or compare such numbers,
    over an arbitrary arithmetic [arith]: the type of the numbers and the
    operations that the program applies to them, each with the exceptions
    it may raise.  What is proved of [Computed] for every arithmetic
    holds of the program as it runs; the exact arithmetic [exact] gives
    back the definitions above, and [binary64] is the arithmetic of IEEE
    754 doubles. *)

Record arith : Type := mkArith {
  (** the values of type [float] *)
  num : Type;
  (** [a / b] on two integers, [b] not zero *)
  itruediv : Z -> Z -> result num;
  (** [math.log2(x)] *)
  flog2 : num -> result num;
  (** [k * x], an integer by a float *)
  imul : Z -> num -> result num;
  (** [sum(...)] of one float or more *)
  ftotal : list num -> num;
  (** [x + y] *)
  fadd : num -> num -> num;
  (** [x / n], a float by an integer, [n] not zero *)
  fdivi : num -> Z -> result num;
  (** [x < y] *)
  flt : num -> num -> bool;
  (** [x == y] *)
  feq : num -> num -> bool
}.

Module Computed.
Section WithArith.
Variable A : arith.

(** [a / b] on integers *)
Definition int_div (a b : Z) : result (num A) :=
  if b =? 0 then Raise ZeroDivisionError else itruediv A a b.

(** [x / b] with a float numerator and an integer denominator *)
Definition float_div (x : num A) (b : Z) : result (num A) :=
  if b =? 0 then Raise ZeroDivisionError else fdivi A x b.

(** [sum(...) / n] on the terms that the generator has produced; the sum
    of no term at all is the integer 0. *)
Definition sum_div (terms : list (num A)) (n : Z) : result (num A) :=
  match terms with
  | [] => int_div 0 n
  | _ :: _ => float_div (ftotal A terms) n
  end.

Definition calcetp (values : list Z) : result (num A) :=
  let n := zsum values in
  terms <- mapM (fun v => q <- int_div n v ;; l <- flog2 A q ;; imul A v l)
             values ;;
  sum_div terms n.

Definition entetp (ents : list entity) : result (num A) :=
  calcetp (dict_values (countkeys ents)).

Definition split_result : Type := (num A * option value * partitions)%type.

Definition DF_split (f : feature) (ents : list entity) : result split_result :=
  _ <- assert (2 <=? len ents) ;;
  d <- DF_group f ents ;;
  if len d <? 2 then Raise InvalidSplit
  else
    let n := len ents in
    terms <- mapM (fun es => h <- entetp es ;; imul A (len es) h)
               (dict_values d) ;;
    avgetp <- sum_div terms n ;;
    Ok (avgetp, None, d).

Definition keep_min {C : Type} (st : option (C * num A)) (c : C)
           (avgetp : num A) : option (C * num A) :=
  match st with
  | None => Some (c, avgetp)
  | Some (_, minetp) => if flt A avgetp minetp then Some (c, avgetp) else st
  end.

Section WithSetOrder.
Variable ord : set_order.

(** The body of the loop over [d.items()] *)
Definition MF_try (ents : list entity)
           (st : option ((string * list entity) * num A))
           (ves : string * list entity)
  : result (option ((string * list entity) * num A)) :=
  let '(v, es) := ves in
  let nes := outside ents es in
  match nes with
  | [] => Ok st
  | _ :: _ =>
      h1 <- entetp (iter ord es) ;;
      t1 <- imul A (len es) h1 ;;
      h2 <- entetp nes ;;
      t2 <- imul A (len nes) h2 ;;
      avgetp <- float_div (fadd A t1 t2) (len ents) ;;
      Ok (keep_min st (v, nes) avgetp)
  end.

Definition MF_scan (ents : list entity) (d : dict string (list entity))
  : result (option ((string * list entity) * num A)) :=
  foldM (MF_try ents) d None.

Definition MF_split (f : feature) (ents : list entity) : result split_result :=
  _ <- assert (2 <=? len ents) ;;
  d <- MF_index f ents ;;
  if len d <? 2 then Raise InvalidSplit
  else
    st <- MF_scan ents d ;;
    match st with
    | None => Raise InvalidSplit
    | Some ((arg, nes), minetp) =>
        es <- dict_item String.eqb d arg ;;
        Ok (minetp, Some (VStr arg),
            [(BBool true, iter ord es); (BBool false, nes)])
    end.

(** [avgetp] for the cut before position [i] *)
Definition QF_avgetp (es : list entity) (i : nat) : result (num A) :=
  let n := List.length es in
  h1 <- entetp (firstn i es) ;;
  t1 <- imul A (Z.of_nat i) h1 ;;
  h2 <- entetp (skipn i es) ;;
  t2 <- imul A (Z.of_nat n - Z.of_nat i) h2 ;;
  float_div (fadd A t1 t2) (Z.of_nat n).

(** The body of the loop over [range(1, n)] *)
Definition QF_try (es : list entity) (vs : list value)
           (st : value * option (nat * num A)) (i : nat)
  : result (value * option (nat * num A)) :=
  let '(v0, m) := st in
  let v1 := nth i vs v0 in
  if value_eqb v0 v1 then Ok st
  else
    avgetp <- QF_avgetp es i ;;
    Ok (v1, keep_min m i avgetp).

Definition QF_scan (es : list entity) (vs : list value) (v0 : value)
  : result (value * option (nat * num A)) :=
  foldM (QF_try es vs) (seq 1 (List.length vs - 1)) (v0, None).

Definition QF_split (attr : string) (ents : list entity) : result split_result :=
  _ <- assert (2 <=? len ents) ;;
  let '(pairs, undefs) := QF_collect attr ents in
  match pairs with
  | [] => Raise InvalidSplit
  | (_, v) :: _ =>
      sorted <- sort_pairs pairs ;;
      let es := map fst sorted in
      let vs := map snd sorted in
      let v0 := nth 0 vs v in
      '(_, m) <- QF_scan es vs v0 ;;
      match m with
      | None => Raise InvalidSplit
      | Some (minsplit, minetp) =>
          let arg := nth minsplit vs v0 in
          let sp := [(BStr "lt", firstn minsplit es);
                     (BStr "ge", skipn minsplit es)] in
          Ok (minetp, Some arg,
              match undefs with
              | [] => sp
              | _ :: _ => sp ++ [(BStr "un", undefs)]
              end)
      end
  end.

Definition split (f : feature) (ents : list entity) : result split_result :=
  match f with
  | DF _ | DF1 _ _ => DF_split f ents
  | MF _ | MF1 _ _ => MF_split f ents
  | QF attr => QF_split attr ents
  end.

Record TreeBuilder : Type := mkTreeBuilder {
  features : dict string feature;
  minkeys : Z;
  minetp : num A
}.

Variable builder : TreeBuilder.

(** The loop over [self.features.values()] *)
Definition choose (ents : list entity)
  : result (option ((feature * option value * partitions) * num A)) :=
  foldM (fun st feat =>
           match split feat ents with
           | Raise InvalidSplit => Ok st
           | Raise x => Raise x
           | Ok (etp, arg, sp) => Ok (keep_min st (feat, arg, sp) etp)
           end) (dict_values (features builder)) None.

(** The body of [build]; [rec] is the recursive call. *)
Definition build_body (rec : list entity -> option (result (option tree)))
           (ents : list entity) : option (result (option tree)) :=
  let keys := countkeys ents in
  match calcetp (dict_values keys) with
  | Raise x => Some (Raise x)
  | Ok etp =>
      if flt A etp (minetp builder) then Some (Ok None)
      else if len ents <? minkeys builder then Some (Ok None)
      else
        match choose ents with
        | Raise x => Some (Raise x)
        | Ok None => Some (Ok None)
        | Ok (Some ((feat, arg, sp), _)) =>
            match bestkey keys with
            | Raise x => Some (Raise x)
            | Ok default =>
                match build_children rec sp [] with
                | None => None
                | Some (Raise x) => Some (Raise x)
                | Some (Ok children) =>
                    Some (Ok (Some (TreeBranch feat arg default children)))
                end
            end
        end
  end.

Fixpoint build_fuel (fuel : nat) (ents : list entity)
  : option (result (option tree)) :=
  match fuel with
  | O => None
  | S fuel' => build_body (build_fuel fuel') ents
  end.

Definition build (ents : list entity) : result (option tree) :=
  match build_fuel (S (List.length ents)) ents with
  | Some r => r
  | None => Ok None
  end.
End WithSetOrder.
End WithArith.

Arguments mkTreeBuilder {A} features minkeys minetp.
Arguments features {A} t.
Arguments minkeys {A} t.
Arguments minetp {A} t.
Arguments keep_min {A C} st c avgetp.
End Computed.

(** *** Exact arithmetic *)

Definition Reqb (x y : R) : bool := if Req_dec_T x y then true else false.

(** The arithmetic in which nothing is rounded and every integer is a
    number: the one of the definitions of the first part. *)
Definition exact : arith := {|
  num := R;
  itruediv := fun a b => Ok (IZR a / IZR b)%R;
  flog2 := py_log2;
  imul := fun k x => Ok (IZR k * x)%R;
  ftotal := fun l => fold_left Rplus l 0%R;
  fadd := Rplus;
  fdivi := fun x n => Ok (x / IZR n)%R;
  flt := Rltb;
  feq := Reqb
|}.

(** *** IEEE 754 doubles *)

Module Binary64.
Import SpecFloat.

Definition prec : Z := 53.
Definition emax : Z := 1024.

(** An integer as the pair of a mantissa and the exponent 0, before any
    rounding. *)
Definition of_int (z : Z) : spec_float :=
  match z with
  | Z0 => S754_zero false
  | Zpos p => S754_finite false p 0
  | Zneg p => S754_finite true p 0
  end.

(** A result that has left the range of the doubles raises
    [OverflowError] where Python checks for it. *)
Definition in_range (x : spec_float) : result spec_float :=
  match x with
  | S754_infinity _ => Raise OverflowError
  | _ => Ok x
  end.

(** [float(z)]: the nearest double, ties to even. *)
Definition to_float (z : Z) : result spec_float :=
  in_range (binary_normalize prec emax z 0 false).

(** [a / b] on two integers: the quotient, rounded once. *)
Definition int_truediv (a b : Z) : result spec_float :=
  in_range (SFdiv prec emax (of_int a) (of_int b)).

(** [k * x]: the integer is converted to a double, then multiplied. *)
Definition int_mul (k : Z) (x : spec_float) : result spec_float :=
  y <- to_float k ;; Ok (SFmul prec emax y x).

(** [x / n]: the integer is converted to a double, then divides. *)
Definition div_int (x : spec_float) (n : Z) : result spec_float :=
  y <- to_float n ;; Ok (SFdiv prec emax x y).

(** [0.0] and [1.0] *)
Definition zero : spec_float := S754_zero false.
Definition one : spec_float := S754_finite false 4503599627370496 (-52).

End Binary64.

(** Doubles, with the platform's [math.log2] and the interpreter's
    [sum] as parameters. *)
Definition binary64 (log2f : SpecFloat.spec_float -> result SpecFloat.spec_float)
           (sumf : list SpecFloat.spec_float -> SpecFloat.spec_float) : arith := {|
  num := SpecFloat.spec_float;
  itruediv := Binary64.int_truediv;
  flog2 := log2f;
  imul := Binary64.int_mul;
  ftotal := sumf;
  fadd := SpecFloat.SFadd Binary64.prec Binary64.emax;
  fdivi := Binary64.div_int;
  flt := SpecFloat.SFltb;
  feq := SpecFloat.SFeqb
|}.

(** ** The definitions on small inputs *)

Example split_comma_tokens :
  split_comma "if,while" = ["if"; "while"]
  /\ split_comma "" = [""]
  /\ split_comma "a," = ["a"; ""].
Proof. repeat split. Qed.

Example feature_names :
  name (DF "type") = "DF:type"
  /\ name (DF1 "parentTypes" 0) = "DF0:parentTypes"
  /\ name (MF1 "posTags" 1) = "MF1:posTags"
  /\ name (MF "leftTypes") = "MF:leftTypes"
  /\ name (QF "deltaLine") = "QF:deltaLine".
Proof. repeat split. Qed.

Example dict_set_keeps_place :
  dict_set String.eqb [("a", 1); ("b", 2)] "a" 5 = [("a", 5); ("b", 2)]
  /\ dict_set String.eqb [("a", 1); ("b", 2)] "c" 5 = [("a", 1); ("b", 2); ("c", 5)]
  /\ dict_set py_eqb [(BBool true, 1)] (BInt 1) 7 = [(BBool true, 7)].
Proof. repeat split. Qed.

Example countkeys_order :
  countkeys [mkEntity 1 "B" []; mkEntity 2 "A" []; mkEntity 3 "B" []]
  = [("B", 2); ("A", 1)].
Proof. reflexivity. Qed.

Example bestkey_first_of_equals :
  bestkey [("A", 1); ("B", 2); ("C", 2)] = Ok "B"
  /\ bestkey [] = Raise AssertionError.
Proof. split; reflexivity. Qed.

Example DF1_get_token :
  DF1_get "posTags" 1 (mkEntity 1 "A" [("posTags", VStr "NN,VB")]) = Ok (Some (VStr "VB"))
  /\ DF1_get "posTags" 2 (mkEntity 1 "A" [("posTags", VStr "NN,VB")]) = Ok None
  /\ DF1_get "posTags" 0 (mkEntity 1 "A" []) = Ok None
  /\ DF1_get "deltaLine" 0 (mkEntity 1 "A" [("deltaLine", VInt 3)]) = Raise AttributeError.
Proof. repeat split. Qed.

Example ident_branch_values :
  ident (MF "words") (Some (VStr "x")) (mkEntity 1 "A" [("words", VStr "y,x")])
  = Ok (BBool true)
  /\ ident (MF1 "words" 1) (Some (VStr "x")) (mkEntity 1 "A" [("words", VStr "y,x")])
     = Ok (BBool false)
  /\ ident (QF "deltaLine") (Some (VInt 5)) (mkEntity 1 "A" [("deltaLine", VInt 4)])
     = Ok (BStr "lt")
  /\ ident (QF "deltaLine") (Some (VInt 5)) (mkEntity 1 "A" [("deltaLine", VInt 5)])
     = Ok (BStr "ge")
  /\ ident (QF "deltaLine") (Some (VInt 5)) (mkEntity 1 "A" []) = Ok (BStr "un").
Proof. repeat split. Qed.

Example sort_pairs_is_stable :
  sort_pairs [(mkEntity 1 "A" [], VInt 2); (mkEntity 2 "B" [], VInt 1);
              (mkEntity 3 "C" [], VInt 2)]
  = Ok [(mkEntity 2 "B" [], VInt 1); (mkEntity 1 "A" [], VInt 2);
        (mkEntity 3 "C" [], VInt 2)]
  /\ sort_pairs [(mkEntity 1 "A" [], VInt 2); (mkEntity 2 "B" [], VStr "1")]
     = Raise TypeError.
Proof. split; reflexivity. Qed.

Example import_unknown_feature :
  import_tree (mkTreeBuilder [] 10 0%R) (PTuple "DF:type" None "A" [])
  = Raise KeyError
  /\ import_tree (mkTreeBuilder [] 10 0%R) (PScalar "A") = Ok (TreeLeaf "A").
Proof. split; reflexivity. Qed.

(** * Properties *)

(** ** Real-number comparisons *)

Lemma Rltb_true (x y : R) : (x < y)%R -> Rltb x y = true.
Proof. intros H; unfold Rltb; destruct (Rlt_dec x y); [reflexivity | contradiction]. Qed.

Lemma Rltb_false (x y : R) : (y <= x)%R -> Rltb x y = false.
Proof. intros H; unfold Rltb; destruct (Rlt_dec x y); [lra | reflexivity]. Qed.

Lemma Rltb_spec (x y : R) : Rltb x y = true <-> (x < y)%R.
Proof.
  unfold Rltb; destruct (Rlt_dec x y); split; intros; try assumption;
    try reflexivity; try discriminate; contradiction.
Qed.

Lemma Rleb_false (x y : R) : (y < x)%R -> Rleb x y = false.
Proof. intros H; unfold Rleb; destruct (Rle_dec x y); [lra | reflexivity]. Qed.

Lemma ln2_pos : (0 < ln 2)%R.
Proof. rewrite <- ln_1; apply ln_increasing; lra. Qed.

Lemma log2_1 : log2 1 = 0%R.
Proof. unfold log2; rewrite ln_1; unfold Rdiv; apply Rmult_0_l. Qed.


Lemma log2_nonneg (x : R) : (1 <= x)%R -> (0 <= log2 x)%R.
Proof.
  intros H; unfold log2.
  apply Rmult_le_pos; [| left; apply Rinv_0_lt_compat, ln2_pos].
  destruct H as [H | <-]; [| rewrite ln_1; lra].
  left; rewrite <- ln_1; apply ln_increasing; lra.
Qed.

Lemma log2_pos (x : R) : (1 < x)%R -> (0 < log2 x)%R.
Proof.
  intros H; unfold log2.
  apply Rmult_lt_0_compat; [| apply Rinv_0_lt_compat, ln2_pos].
  rewrite <- ln_1; apply ln_increasing; lra.
Qed.

(** ** The monad *)

Lemma bind_ok {A B : Type} (m : result A) (k : A -> result B) (b : B) :
  bind m k = Ok b -> exists a, m = Ok a /\ k a = Ok b.
Proof. destruct m as [a | x]; simpl; [eauto | discriminate]. Qed.

Lemma foldM_app {A S : Type} (body : S -> A -> result S) (l1 l2 : list A) (s : S) :
  foldM body (l1 ++ l2) s = (s' <- foldM body l1 s ;; foldM body l2 s').
Proof.
  revert s; induction l1 as [| a l1 IH]; intros s; simpl; [reflexivity |].
  destruct (body s a); simpl; [apply IH | reflexivity].
Qed.

(** ** Sums *)

Definition rsum (l : list R) : R := fold_right Rplus 0%R l.

Lemma zsum_acc (l : list Z) (a : Z) : fold_left Z.add l a = a + zsum l.
Proof.
  unfold zsum; revert a; induction l as [| x l IH]; intros a; simpl; [lia |].
  rewrite (IH (a + x)), (IH x); lia.
Qed.

Lemma zsum_cons (x : Z) (l : list Z) : zsum (x :: l) = x + zsum l.
Proof. unfold zsum at 1; simpl; apply zsum_acc. Qed.

Lemma zsum_app (l1 l2 : list Z) : zsum (l1 ++ l2) = zsum l1 + zsum l2.
Proof.
  induction l1 as [| x l1 IH]; simpl; [change (zsum []) with 0; lia |].
  rewrite !zsum_cons, IH; lia.
Qed.

Lemma zsum_pos (l : list Z) : Forall (fun c => 0 < c) l -> l <> [] -> 0 < zsum l.
Proof.
  induction 1 as [| x l Hx Hl IH]; intros Hne; [congruence |].
  rewrite zsum_cons. destruct l as [| y l]; [unfold zsum; simpl; lia |].
  assert (0 < zsum (y :: l)) by (apply IH; discriminate). lia.
Qed.

Lemma zsum_ge (l : list Z) (c : Z) :
  Forall (fun c => 0 < c) l -> In c l -> c <= zsum l.
Proof.
  induction 1 as [| x l Hx Hl IH]; intros Hin; [destruct Hin |].
  rewrite zsum_cons. destruct Hin as [-> | Hin].
  - destruct l as [| y l]; [unfold zsum; simpl; lia |].
    assert (0 < zsum (y :: l)) by (apply zsum_pos; [assumption | discriminate]). lia.
  - specialize (IH Hin); lia.
Qed.

Lemma fsum_acc {A : Type} (g : A -> result R) (h : A -> R) (l : list A) (acc : R) :
  (forall a, In a l -> g a = Ok (h a)) ->
  foldM (fun acc a => t <- g a ;; Ok (acc + t)%R) l acc
  = Ok (acc + rsum (map h l))%R.
Proof.
  revert acc; induction l as [| a l IH]; intros acc H; simpl.
  - f_equal; lra.
  - rewrite H by (left; reflexivity); simpl.
    rewrite IH by (intros; apply H; right; assumption).
    f_equal; unfold rsum; simpl; lra.
Qed.

Lemma fsum_ok {A : Type} (g : A -> result R) (h : A -> R) (l : list A) :
  (forall a, In a l -> g a = Ok (h a)) -> fsum g l = Ok (rsum (map h l)).
Proof.
  intros H; unfold fsum; rewrite (fsum_acc g h) by assumption.
  f_equal; lra.
Qed.

(** ** Entropy *)

(** The entropy as the specification words it: the sum of
    [c * log2 (n / c)] over the counts, divided by [n], the sum of the
    counts. *)
Definition entropy_spec (counts : list Z) : R :=
  let n := IZR (zsum counts) in
  (rsum (map (fun c => IZR c * log2 (n / IZR c)) counts) / n)%R.

Lemma term_ok (n v : Z) :
  0 < v -> 0 < n ->
  (q <- int_div n v ;; l <- py_log2 q ;; Ok (IZR v * l)%R)
  = Ok (IZR v * log2 (IZR n / IZR v))%R.
Proof.
  intros Hv Hn; unfold int_div.
  destruct (Z.eqb_spec v 0) as [-> | _]; [lia |]; simpl.
  unfold py_log2; rewrite Rleb_false; [reflexivity |].
  apply Rdiv_lt_0_compat; apply IZR_lt; assumption.
Qed.

Lemma calcetp_ok (counts : list Z) :
  counts <> [] -> Forall (fun c => 0 < c) counts ->
  calcetp counts = Ok (entropy_spec counts).
Proof.
  intros Hne Hpos; unfold calcetp, entropy_spec.
  pose proof (zsum_pos counts Hpos Hne) as Hn.
  rewrite (fsum_ok _ (fun v => (IZR v * log2 (IZR (zsum counts) / IZR v))%R)).
  - simpl; unfold float_div.
    destruct (Z.eqb_spec (zsum counts) 0); [lia | reflexivity].
  - intros v Hv; apply term_ok; [| assumption].
    rewrite Forall_forall in Hpos; apply Hpos; assumption.
Qed.

Lemma entropy_spec_nonneg (counts : list Z) :
  counts <> [] -> Forall (fun c => 0 < c) counts -> (0 <= entropy_spec counts)%R.
Proof.
  intros Hne Hpos; unfold entropy_spec.
  pose proof (zsum_pos counts Hpos Hne) as Hn.
  apply Rmult_le_pos; [| left; apply Rinv_0_lt_compat, IZR_lt; assumption].
  assert (H : forall l, (forall c, In c l -> 0 < c <= zsum counts) ->
                        (0 <= rsum (map (fun c => IZR c * log2 (IZR (zsum counts) / IZR c)) l))%R).
  { induction l as [| c l IH]; intros Hl; simpl; [lra |].
    assert (0 < c <= zsum counts) as [Hc1 Hc2] by (apply Hl; left; reflexivity).
    apply Rplus_le_le_0_compat; [| apply IH; intros; apply Hl; right; assumption].
    apply Rmult_le_pos; [left; apply IZR_lt; assumption |].
    apply log2_nonneg.
    apply IZR_lt in Hc1. apply IZR_le in Hc2.
    apply (Rmult_le_reg_r (IZR c)); [assumption |].
    unfold Rdiv; rewrite Rmult_assoc, Rinv_l by lra. lra. }
  apply H; intros c Hc; split.
  - rewrite Forall_forall in Hpos; apply Hpos; assumption.
  - apply zsum_ge; assumption.
Qed.

Lemma calcetp_single (n : Z) : 0 < n -> calcetp [n] = Ok 0%R.
Proof.
  intros Hn; rewrite calcetp_ok; [| discriminate | repeat constructor; assumption].
  f_equal; unfold entropy_spec, zsum; simpl.
  replace (IZR n / IZR n)%R with 1%R by (field; apply Rgt_not_eq, IZR_lt; assumption).
  rewrite log2_1; field; apply Rgt_not_eq, IZR_lt; assumption.
Qed.

Lemma calcetp_learn_eq (keys : dict string Z) :
  calcetp_learn keys = calcetp (dict_values keys).
Proof. reflexivity. Qed.

(** ** Dictionaries *)

Section DictFacts.
Context {K V : Type} (eqb : K -> K -> bool).

Lemma dict_get_none (d : dict K V) (k : K) :
  dict_get eqb d k = None <-> forall k', In k' (dict_keys d) -> eqb k' k = false.
Proof.
  induction d as [| [k0 v0] d IH]; simpl; split; intros H; try reflexivity.
  - intros k' [].
  - destruct (eqb k0 k) eqn:E; [discriminate |].
    intros k' [<- | Hin]; [assumption | apply IH; assumption].
  - rewrite (H k0) by (left; reflexivity).
    apply IH; intros; apply H; right; assumption.
Qed.

Lemma dict_get_in (d : dict K V) (k : K) (v : V) :
  dict_get eqb d k = Some v -> exists k', In (k', v) d /\ eqb k' k = true.
Proof.
  induction d as [| [k0 v0] d IH]; simpl; [discriminate |].
  destruct (eqb k0 k) eqn:E.
  - intros [= <-]; exists k0; split; [left; reflexivity | assumption].
  - intros H; destruct (IH H) as (k' & Hin & Hk); exists k'; split;
      [right; assumption | assumption].
Qed.

Lemma dict_set_absent (d : dict K V) (k : K) (v : V) :
  dict_get eqb d k = None -> dict_set eqb d k v = d ++ [(k, v)].
Proof.
  induction d as [| [k0 v0] d IH]; simpl; [reflexivity |].
  destruct (eqb k0 k); [discriminate |].
  intros H; rewrite IH by assumption; reflexivity.
Qed.

Lemma dict_set_present (d : dict K V) (k : K) (v c : V) :
  dict_get eqb d k = Some c ->
  exists d1 k0 d2, d = d1 ++ (k0, c) :: d2
                   /\ dict_set eqb d k v = d1 ++ (k0, v) :: d2
                   /\ eqb k0 k = true
                   /\ dict_get eqb d1 k = None.
Proof.
  induction d as [| [k0 v0] d IH]; simpl; [discriminate |].
  destruct (eqb k0 k) eqn:E.
  - intros [= <-]; exists [], k0, d; repeat split; assumption.
  - intros H; destruct (IH H) as (d1 & k1 & d2 & -> & -> & Hk & Hn).
    exists ((k0, v0) :: d1), k1, d2; repeat split; try assumption.
    simpl; rewrite E; assumption.
Qed.

Lemma dict_set_keys_present (d : dict K V) (k : K) (v c : V) :
  dict_get eqb d k = Some c -> dict_keys (dict_set eqb d k v) = dict_keys d.
Proof.
  intros H; destruct (dict_set_present d k v c H) as (d1 & k0 & d2 & -> & -> & _).
  unfold dict_keys; rewrite !map_app; reflexivity.
Qed.

Lemma dict_wf_app_one (d : dict K V) (k : K) (v : V) :
  dict_wf eqb d -> dict_get eqb d k = None -> dict_wf eqb (d ++ [(k, v)]).
Proof.
  induction d as [| [k0 v0] d IH]; simpl; intros Hwf Hget.
  - split; [intros k' [] | exact I].
  - destruct (eqb k0 k) eqn:E; [discriminate |].
    destruct Hwf as [H1 H2]; split; [| apply IH; assumption].
    intros k'; unfold dict_keys; rewrite map_app, in_app_iff; simpl.
    intros [Hin | [<- | []]]; [apply H1; assumption | assumption].
Qed.

Lemma dict_wf_keys (d d' : dict K V) :
  dict_keys d = dict_keys d' -> dict_wf eqb d -> dict_wf eqb d'.
Proof.
  revert d'; induction d as [| [k v] d IH]; intros [| [k' v'] d']; simpl;
    try discriminate; try tauto.
  intros [= <- Hk] [H1 H2]; split; [| apply IH; assumption].
  unfold dict_keys in *; rewrite <- Hk; assumption.
Qed.

Lemma dict_set_wf (d : dict K V) (k : K) (v : V) :
  dict_wf eqb d -> dict_wf eqb (dict_set eqb d k v).
Proof.
  intros Hwf; destruct (dict_get eqb d k) as [c |] eqn:E.
  - apply (dict_wf_keys d); [| assumption].
    symmetry; apply (dict_set_keys_present d k v c E).
  - rewrite dict_set_absent by assumption; apply dict_wf_app_one; assumption.
Qed.

Lemma dict_get_set_same (d : dict K V) (k : K) (v : V) :
  eqb k k = true -> dict_get eqb (dict_set eqb d k v) k = Some v.
Proof.
  intros Hr; induction d as [| [k0 v0] d IH]; simpl; [rewrite Hr; reflexivity |].
  destruct (eqb k0 k) eqn:E; simpl; rewrite E; [reflexivity | assumption].
Qed.
End DictFacts.

Lemma dict_get_set_other {V : Type} (d : dict string V) (k k' : string) (v : V) :
  k <> k' ->
  dict_get String.eqb (dict_set String.eqb d k v) k' = dict_get String.eqb d k'.
Proof.
  intros Hne; induction d as [| [k0 v0] d IH]; simpl.
  - destruct (String.eqb_spec k k'); [contradiction | reflexivity].
  - destruct (String.eqb_spec k0 k) as [-> | Hk]; simpl.
    + destruct (String.eqb_spec k k'); [contradiction | reflexivity].
    + destruct (String.eqb_spec k0 k'); [reflexivity | assumption].
Qed.

(** ** Label counts *)

Lemma count_step_inv (d : dict string Z) (e : entity) :
  Forall (fun c => 0 < c) (dict_values d) ->
  Forall (fun c => 0 < c) (dict_values (count_step d e))
  /\ zsum (dict_values (count_step d e)) = zsum (dict_values d) + 1
  /\ count_step d e <> [].
Proof.
  intros Hpos; unfold count_step.
  destruct (dict_get String.eqb d (key e)) as [c |] eqn:E.
  - destruct (dict_set_present String.eqb d (key e) (c + 1) c E)
      as (d1 & k0 & d2 & Hd & -> & _).
    subst d; unfold dict_values in *; rewrite map_app in *; simpl in *.
    apply Forall_app in Hpos as [H1 H2]; inversion H2 as [| ? ? Hc Hd2]; subst.
    repeat split.
    + apply Forall_app; split; [assumption |]; constructor; [lia | assumption].
    + rewrite map_app; simpl; rewrite !zsum_app, !zsum_cons; lia.
    + destruct d1; discriminate.
  - rewrite dict_set_absent by assumption.
    unfold dict_values; rewrite map_app; simpl; repeat split.
    + apply Forall_app; split; [assumption | repeat constructor].
    + rewrite zsum_app; reflexivity.
    + destruct d; discriminate.
Qed.

Lemma countkeys_inv (ents : list entity) (d : dict string Z) :
  Forall (fun c => 0 < c) (dict_values d) ->
  let d' := fold_left count_step ents d in
  Forall (fun c => 0 < c) (dict_values d')
  /\ zsum (dict_values d') = zsum (dict_values d) + len ents
  /\ (ents <> [] -> d' <> []).
Proof.
  revert d; induction ents as [| e ents IH]; intros d Hpos; simpl.
  - repeat split; [assumption | unfold len; simpl; lia | congruence].
  - destruct (count_step_inv d e Hpos) as (H1 & H2 & H3).
    destruct (IH _ H1) as (I1 & I2 & I3); repeat split; [assumption | |].
    + rewrite I2, H2; unfold len; cbn [List.length]; lia.
    + intros _; destruct ents as [| e' ents]; [assumption |].
      apply I3; discriminate.
Qed.

Lemma countkeys_pos (ents : list entity) :
  Forall (fun c => 0 < c) (dict_values (countkeys ents)).
Proof. apply (countkeys_inv ents []); constructor. Qed.

Lemma countkeys_nonempty (ents : list entity) :
  ents <> [] -> dict_values (countkeys ents) <> [].
Proof.
  intros Hne H.
  destruct (countkeys_inv ents [] (Forall_nil _)) as (_ & _ & H3).
  apply (H3 Hne); apply map_eq_nil in H; exact H.
Qed.

Lemma entetp_ok (ents : list entity) :
  ents <> [] -> entetp ents = Ok (entropy_spec (dict_values (countkeys ents))).
Proof.
  intros Hne; apply calcetp_ok; [apply countkeys_nonempty; assumption | apply countkeys_pos].
Qed.

Lemma bestkey_ok (d : dict string Z) : d <> [] -> exists k, bestkey d = Ok k.
Proof.
  intros Hne; unfold bestkey.
  destruct d as [| [k v] d]; [congruence |]; simpl.
  assert (H : forall l k0 v0, exists k1 v1,
             fold_left (fun (st : option string * Z) (kv : string * Z) =>
                          let '(maxkey, maxv) := st in
                          let '(k, v) := kv in
                          match maxkey with
                          | None => (Some k, v)
                          | Some _ => if maxv <? v then (Some k, v) else st
                          end) l (Some k0, v0) = (Some k1, v1)).
  { induction l as [| [k' v'] l IH]; intros k0 v0; simpl; [eauto |].
    destruct (v0 <? v'); apply IH. }
  destruct (H d k v) as (k1 & v1 & ->); eauto.
Qed.

(** ** Classification *)

(** Induction on trees that reaches the children of a branch. *)
Section TreeInduction.
Variable P : tree -> Prop.
Hypothesis Hleaf : forall k, P (TreeLeaf k).
Hypothesis Hbranch : forall f arg default children,
    Forall (fun vb : bval * tree => P (snd vb)) children ->
    P (TreeBranch f arg default children).

Fixpoint tree_induction (t : tree) : P t :=
  match t with
  | TreeLeaf k => Hleaf k
  | TreeBranch f arg default children =>
      Hbranch f arg default children
        ((fix go (l : list (bval * tree)) : Forall (fun vb => P (snd vb)) l :=
            match l with
            | [] => Forall_nil _
            | vb :: l' => Forall_cons vb (tree_induction (snd vb)) (go l')
            end) children)
  end.
End TreeInduction.

(** Every feature that the entity meets on its way down the tree can
    read it: its [ident] does not raise. *)
Inductive readable (e : entity) : tree -> Prop :=
| readable_leaf (k : string) : readable e (TreeLeaf k)
| readable_default (f : feature) (arg : option value) (default : string)
                   (children : list (bval * tree)) (v : bval) :
    ident f arg e = Ok v ->
    dict_get py_eqb children v = None ->
    readable e (TreeBranch f arg default children)
| readable_child (f : feature) (arg : option value) (default : string)
                 (children : list (bval * tree)) (v : bval) (branch : tree) :
    ident f arg e = Ok v ->
    dict_get py_eqb children v = Some branch ->
    readable e branch ->
    readable e (TreeBranch f arg default children).

(** [test] on a branch, with the dictionary access written as such. *)
Lemma test_branch (f : feature) (arg : option value) (default : string)
      (children : list (bval * tree)) (e : entity) :
  test (TreeBranch f arg default children) e
  = (v <- ident f arg e ;;
     match dict_get py_eqb children v with
     | None => Ok default
     | Some branch =>
         match test branch e with
         | Raise KeyError => Ok default
         | r => r
         end
     end).
Proof.
  simpl; destruct (ident f arg e) as [v | x]; simpl; [| reflexivity].
  induction children as [| [k b] l IH]; simpl; [reflexivity |].
  destruct (py_eqb k v); [reflexivity | apply IH].
Qed.

Lemma ident_no_KeyError (f : feature) (arg : option value) (e : entity) :
  ident f arg e <> Raise KeyError.
Proof.
  destruct f as [attr | attr index | attr | attr nmems | attr]; simpl;
    unfold DF1_get, MF_get, MF1_get, Feature_get;
    destruct (getitem e attr) as [[s | z] |]; simpl; try discriminate.
  - destruct (len (split_comma s) <=? Z.of_nat index); discriminate.
  - destruct arg as [[t | y] |]; simpl; discriminate.
  - destruct arg as [[t | y] |]; simpl; discriminate.
Qed.

(** The [except KeyError] leaves no [KeyError] to the caller. *)
Lemma test_no_KeyError (t : tree) (e : entity) : test t e <> Raise KeyError.
Proof.
  induction t as [k | f arg default children IH] using tree_induction;
    [discriminate |].
  rewrite test_branch.
  destruct (ident f arg e) as [v | x] eqn:Hv; simpl;
    [| intros [= ->]; apply (ident_no_KeyError f arg e); assumption].
  destruct (dict_get py_eqb children v) as [b |] eqn:E; [| discriminate].
  destruct (dict_get_in _ _ _ _ E) as (k' & Hin & _).
  rewrite Forall_forall in IH; specialize (IH _ Hin); simpl in IH.
  destruct (test b e) as [l | x]; [discriminate |].
  destruct x; try discriminate; congruence.
Qed.

Lemma test_readable (t : tree) (e : entity) :
  readable e t -> exists label, test t e = Ok label.
Proof.
  induction 1 as [k | f arg default children v Hv Hget
                  | f arg default children v branch Hv Hget _ [l Hl]].
  - exists k; reflexivity.
  - exists default; rewrite test_branch, Hv; simpl; rewrite Hget; reflexivity.
  - exists l; rewrite test_branch, Hv; simpl; rewrite Hget, Hl; reflexivity.
Qed.

Definition c5_tree : tree :=
  TreeBranch (QF "deltaLine") (Some (VInt 5)) "A" [].

Definition c5_entity : entity :=
  mkEntity 0 "A" [("deltaLine", VStr "x")].

(** C5 as stated fails: a Quantitative branch whose threshold is an
    integer, tested on an entry whose attribute is text, raises the
    [TypeError] of ['x' < 5]. *)
Lemma test_can_raise :
  test c5_tree c5_entity = Raise TypeError
  /\ ~ (forall (t : tree) (e : entity), exists label, test t e = Ok label).
Proof.
  split; [reflexivity |].
  intros H; destruct (H c5_tree c5_entity) as [l Hl]; discriminate.
Qed.

(** C5 (classification), amended.  When every feature that the entity
    meets on its way down the tree can read it, [test] returns a label;
    a leaf returns its own label; a branch whose branch value is not a key
    of its children returns its default; and in no case does [test] raise
    [KeyError]. *)
Theorem test_returns_label (t : tree) (e : entity) :
  readable e t ->
  (exists label, test t e = Ok label)
  /\ (forall k, t = TreeLeaf k -> test t e = Ok k)
  /\ (forall f arg default children v,
        t = TreeBranch f arg default children ->
        ident f arg e = Ok v ->
        dict_get py_eqb children v = None ->
        test t e = Ok default)
  /\ (forall t', test t' e <> Raise KeyError).
Proof.
  intros Hr; split; [apply test_readable; assumption | split; [| split]].
  - intros k ->; reflexivity.
  - intros f arg default children v -> Hv Hget.
    rewrite test_branch, Hv; simpl; rewrite Hget; reflexivity.
  - intros t'; apply test_no_KeyError.
Qed.

Definition c5_known : tree :=
  TreeBranch (DF "type") None "A" [(BStr "block", TreeLeaf "B")].

Lemma test_returns_label_witness :
  readable (mkEntity 1 "A" [("type", VStr "line")]) c5_known
  /\ test c5_known (mkEntity 1 "A" [("type", VStr "line")]) = Ok "A".
Proof.
  assert (Hr : readable (mkEntity 1 "A" [("type", VStr "line")]) c5_known).
  { apply (readable_default _ _ _ _ _ (BStr "line")); reflexivity. }
  split; [exact Hr |].
  destruct (test_returns_label c5_known _ Hr) as (_ & _ & H & _).
  apply (H (DF "type") None "A" [(BStr "block", TreeLeaf "B")] (BStr "line"));
    reflexivity.
Defined.

(** ** Scoring *)

Lemma dict_in_get {V : Type} (d : dict string V) (k : string) (v : V) :
  dict_wf String.eqb d -> In (k, v) d -> dict_get String.eqb d k = Some v.
Proof.
  induction d as [| [k0 v0] d IH]; simpl; intros Hwf Hin; [destruct Hin |].
  destruct Hwf as [H1 H2]; destruct Hin as [[= -> ->] | Hin].
  - rewrite String.eqb_refl; reflexivity.
  - rewrite H1; [apply IH; assumption |].
    unfold dict_keys; apply (in_map fst) in Hin; assumption.
Qed.

Lemma dict_get_in_str {V : Type} (d : dict string V) (k : string) (v : V) :
  dict_get String.eqb d k = Some v -> In (k, v) d.
Proof.
  intros H; destruct (dict_get_in _ _ _ _ H) as (k' & Hin & Hk).
  apply String.eqb_eq in Hk; subst; assumption.
Qed.

Lemma dict_keys_get {V : Type} (d : dict string V) (k : string) :
  In k (dict_keys d) <-> dict_get String.eqb d k <> None.
Proof.
  split.
  - intros Hin Hnone; rewrite dict_get_none in Hnone.
    specialize (Hnone k Hin); rewrite String.eqb_refl in Hnone; discriminate.
  - intros H; destruct (dict_get String.eqb d k) as [v |] eqn:E; [| congruence].
    apply dict_get_in_str in E; apply (in_map fst) in E; exact E.
Qed.

Definition lookup0 (d : dict string Z) (k : string) : Z :=
  match dict_get String.eqb d k with Some c => c | None => 0 end.

Lemma incr_same (d : dict string Z) (k : string) :
  dict_get String.eqb (incr d k) k = Some (lookup0 d k + 1).
Proof. unfold incr; apply dict_get_set_same, String.eqb_refl. Qed.

Lemma incr_other (d : dict string Z) (k k' : string) :
  k <> k' -> dict_get String.eqb (incr d k) k' = dict_get String.eqb d k'.
Proof. intros H; unfold incr; apply dict_get_set_other; assumption. Qed.

Lemma lookup0_incr (d : dict string Z) (k k0 : string) :
  lookup0 (incr d k) k0 = lookup0 d k0 + (if String.eqb k k0 then 1 else 0).
Proof.
  unfold lookup0 at 1; destruct (String.eqb_spec k k0) as [<- | Hne].
  - rewrite incr_same; reflexivity.
  - rewrite incr_other by assumption; unfold lookup0; lia.
Qed.

Lemma lookup0_some (d : dict string Z) (k : string) :
  lookup0 d k <> 0 -> dict_get String.eqb d k = Some (lookup0 d k).
Proof. unfold lookup0; destruct (dict_get String.eqb d k); [reflexivity | congruence]. Qed.

Definition tally_step (t : tree) (c : counters) (e : entity) : result counters :=
  let keys' := incr (keys c) (key e) in
  k <- test t e ;;
  let resp' := incr (resp c) k in
  Ok (if String.eqb (key e) k
      then mkCounters (incr (correct c) k) keys' resp'
      else mkCounters (correct c) keys' resp').

(** What holds of the three dictionaries after the entries [l]: the keys
    of [correct] are the labels with a correctly classified entry, and a
    count of correct answers is at least 1 and at most the two other
    counts for the label. *)
Record tallied (t : tree) (l : list entity) (c : counters) : Prop := {
  tallied_wf : dict_wf String.eqb (correct c);
  tallied_hits : forall k,
      dict_get String.eqb (correct c) k <> None
      <-> exists e, In e l /\ key e = k /\ test t e = Ok k;
  tallied_pos : forall k v, dict_get String.eqb (correct c) k = Some v -> 1 <= v;
  tallied_bounds : forall k,
      0 <= lookup0 (correct c) k
      /\ lookup0 (correct c) k <= lookup0 (resp c) k
      /\ lookup0 (correct c) k <= lookup0 (keys c) k;
  tallied_tested : forall e, In e l -> exists k, test t e = Ok k
}.

Lemma tallied_nil (t : tree) : tallied t [] (mkCounters [] [] []).
Proof.
  constructor; simpl; try exact I.
  - intros k; split; [congruence | intros (e & [] & _)].
  - discriminate.
  - intros k; unfold lookup0; simpl; lia.
  - intros e [].
Qed.

Lemma tallied_step (t : tree) (l : list entity) (c c' : counters) (e : entity) :
  tallied t l c -> tally_step t c e = Ok c' -> tallied t (l ++ [e]) c'.
Proof.
  intros [Hwf Hhits Hpos Hb Ht]; unfold tally_step; intros Hstep.
  apply bind_ok in Hstep as (k & Hk & Hc').
  assert (Hin : forall e0, In e0 (l ++ [e]) <-> In e0 l \/ e0 = e).
  { intros e0; rewrite in_app_iff; simpl; intuition. }
  assert (Htest : forall e0, In e0 (l ++ [e]) -> exists k, test t e0 = Ok k).
  { intros e0; rewrite Hin; intros [H0 | ->]; [apply Ht; assumption | eauto]. }
  destruct (String.eqb_spec (key e) k) as [Hhit | Hmiss]; injection Hc' as <-;
    constructor; simpl; try assumption.
  - apply dict_set_wf; assumption.
  - intros k0; destruct (string_dec k k0) as [<- | Hne].
    + rewrite incr_same; split; [| discriminate].
      intros _; exists e; rewrite Hin; auto.
    + rewrite incr_other by assumption; rewrite Hhits; split;
        intros (e0 & H0 & H1 & H2); exists e0; rewrite Hin in *.
      * auto.
      * destruct H0 as [H0 | ->]; [auto | congruence].
  - intros k0 v; destruct (string_dec k k0) as [<- | Hne].
    + rewrite incr_same; intros [= <-]; destruct (Hb k); lia.
    + rewrite incr_other by assumption; apply Hpos.
  - intros k0; rewrite !lookup0_incr, Hhit; destruct (Hb k0).
    destruct (String.eqb k k0); lia.
  - intros k0; rewrite Hhits; split; intros (e0 & H0 & H1 & H2); exists e0;
      rewrite Hin in *.
    + auto.
    + destruct H0 as [H0 | ->]; [auto | congruence].
  - intros k0; rewrite !lookup0_incr; destruct (Hb k0).
    destruct (String.eqb k k0), (String.eqb (key e) k0); lia.
Qed.

Lemma tallied_tally (t : tree) (l : list entity) (c : counters) :
  tally t l = Ok c -> tallied t l c.
Proof.
  revert c; induction l as [| e l IH] using rev_ind; intros c.
  - intros [= <-]; apply tallied_nil.
  - unfold tally; rewrite foldM_app; intros H.
    apply bind_ok in H as (c0 & H0 & H1); simpl in H1.
    apply bind_ok in H1 as (c1 & H1 & [= <-]).
    apply (tallied_step t l c0); [apply IH; exact H0 | exact H1].
Qed.

Lemma tally_ok (t : tree) (l : list entity) :
  (forall e, In e l -> exists k, test t e = Ok k) -> exists c, tally t l = Ok c.
Proof.
  induction l as [| e l IH] using rev_ind; intros H; [eexists; reflexivity |].
  destruct IH as [c0 Hc0]; [intros; apply H; rewrite in_app_iff; auto |].
  destruct (H e) as [k Hk]; [rewrite in_app_iff; simpl; auto |].
  unfold tally in *; rewrite foldM_app, Hc0; simpl; rewrite Hk; simpl.
  eexists; reflexivity.
Qed.

Lemma mapM_ok {A B : Type} (f : A -> result B) (Q : A -> B -> Prop) (l : list A) :
  (forall a, In a l -> exists b, f a = Ok b /\ Q a b) ->
  exists bs, mapM f l = Ok bs /\ Forall2 Q l bs.
Proof.
  induction l as [| a l IH]; intros H; simpl; [eauto |].
  destruct (H a) as (b & -> & Hq); [left; reflexivity |].
  destruct IH as (bs & -> & Hbs); [intros; apply H; right; assumption |].
  simpl; eauto.
Qed.

(** What a per-label line holds, given the entry of [correct] it is
    printed for. *)
Definition line_of (kv : string * Z) (ln : line) : Prop :=
  line_label ln = fst kv
  /\ line_correct ln = snd kv
  /\ 1 <= line_correct ln
  /\ line_correct ln <= line_resp ln
  /\ line_correct ln <= line_keys ln
  /\ line_prec ln = (IZR (line_correct ln) / IZR (line_resp ln))%R
  /\ line_recl ln = (IZR (line_correct ln) / IZR (line_keys ln))%R
  /\ line_f ln = (2 * (line_prec ln * line_recl ln)
                  / (line_prec ln + line_recl ln))%R.

Lemma report_line_ok (t : tree) (l : list entity) (c : counters) (kv : string * Z) :
  tallied t l c -> In kv (correct c) ->
  exists ln, report_line c kv = Ok ln /\ line_of kv ln.
Proof.
  intros [Hwf Hhits Hpos Hb Ht] Hin; destruct kv as [k v].
  pose proof (dict_in_get _ _ _ Hwf Hin) as Hget.
  pose proof (Hpos _ _ Hget) as Hv.
  destruct (Hb k) as (_ & Hr & Hk); unfold lookup0 at 1 in Hr;
    unfold lookup0 at 1 in Hk; rewrite Hget in Hr, Hk.
  unfold report_line, dict_item.
  rewrite (lookup0_some (resp c) k), (lookup0_some (keys c) k) by lia; simpl.
  unfold int_div.
  destruct (Z.eqb_spec (lookup0 (resp c) k) 0); [lia |].
  destruct (Z.eqb_spec (lookup0 (keys c) k) 0); [lia |]; simpl.
  assert (Hp : (0 < IZR v / IZR (lookup0 (resp c) k))%R)
    by (apply Rdiv_lt_0_compat; apply IZR_lt; lia).
  assert (Hq : (0 < IZR v / IZR (lookup0 (keys c) k))%R)
    by (apply Rdiv_lt_0_compat; apply IZR_lt; lia).
  unfold real_div; destruct (Req_dec_T _ 0) as [E | _]; [lra |]; simpl.
  eexists; split; [reflexivity |]; unfold line_of; simpl; repeat split; lia.
Qed.

Lemma Forall2_line_labels (d : dict string Z) (ls : list line) :
  Forall2 line_of d ls -> map line_label ls = dict_keys d.
Proof.
  induction 1 as [| kv ln d ls (H & _) _ IH]; simpl; [reflexivity |].
  rewrite H, IH; reflexivity.
Qed.

Lemma Forall2_right {A B : Type} (Q : A -> B -> Prop) (P : B -> Prop)
      (l : list A) (l' : list B) :
  (forall a b, Q a b -> P b) -> Forall2 Q l l' -> Forall P l'.
Proof. intros H; induction 1; constructor; eauto. Qed.

(** C10 (scoring).  When every entry is classified, the scoring loop ends
    without a division by zero; it prints a line for a label exactly when
    some entry of that label was classified correctly, and on every line
    the number of correct answers is at least 1 and at most the predicted
    and the actual counts, which are the denominators of precision and
    recall. *)
Theorem score_lines (t : tree) (ents : list entity) :
  (forall e, In e ents -> exists k, test t e = Ok k) ->
  exists ls totals,
    score t ents = Ok (ls, totals)
    /\ (forall k, In k (map line_label ls)
                  <-> exists e, In e ents /\ key e = k /\ test t e = Ok k)
    /\ Forall (fun ln =>
                 1 <= line_correct ln
                 /\ 1 <= line_resp ln
                 /\ 1 <= line_keys ln
                 /\ line_prec ln = (IZR (line_correct ln) / IZR (line_resp ln))%R
                 /\ line_recl ln = (IZR (line_correct ln) / IZR (line_keys ln))%R)
              ls.
Proof.
  intros Htest; destruct (tally_ok t ents Htest) as [c Hc].
  pose proof (tallied_tally _ _ _ Hc) as Hinv.
  destruct (mapM_ok (report_line c) line_of (correct c)) as (ls & Hls & Hall).
  { intros kv Hin; apply (report_line_ok t ents); assumption. }
  exists ls; eexists; unfold score; rewrite Hc; simpl; rewrite Hls; simpl.
  split; [reflexivity | split].
  - intros k; rewrite (Forall2_line_labels _ _ Hall), dict_keys_get.
    apply (tallied_hits _ _ _ Hinv).
  - refine (Forall2_right line_of _ _ _ _ Hall).
    intros kv ln H; unfold line_of in H; intuition lia.
Qed.

(** ** DiscreteFeature.split *)

Lemma of_attr_eqb (a b : option value) :
  py_eqb (of_attr a) (of_attr b) = true -> of_attr a = of_attr b.
Proof.
  destruct a as [[s | x] |], b as [[t | y] |]; simpl; try discriminate; try reflexivity.
  - intros H; apply String.eqb_eq in H; congruence.
  - intros H; apply Z.eqb_eq in H; congruence.
Qed.

(** What holds of the groups after the entries [l]: distinct keys, no
    empty group, every member filed under its own extracted value, and the
    groups together are the entries read. *)
Record grouped (f : feature) (l : list entity) (d : dict bval (list entity))
  : Prop := {
  grouped_wf : dict_wf py_eqb d;
  grouped_members : forall k es, In (k, es) d ->
      es <> [] /\ forall e, In e es -> exists v, discrete_get f e = Ok v /\ of_attr v = k;
  grouped_perm : Permutation (List.concat (dict_values d)) l
}.

Lemma grouped_step (f : feature) (l : list entity) (d d' : dict bval (list entity))
      (e : entity) :
  grouped f l d -> DF_step f d e = Ok d' -> grouped f (l ++ [e]) d'.
Proof.
  intros [Hwf Hmem Hperm] Hstep; unfold DF_step in Hstep.
  apply bind_ok in Hstep as (v & Hv & Hstep).
  destruct (dict_get py_eqb d (of_attr v)) as [es |] eqn:E; injection Hstep as <-.
  - destruct (dict_set_present py_eqb d (of_attr v) (es ++ [e]) es E)
      as (d1 & k0 & d2 & Hd & Hset & Hk0 & _).
    rewrite Hset; constructor.
    + rewrite <- Hset; apply dict_set_wf; assumption.
    + assert (Hes : In (k0, es) d) by (rewrite Hd, in_app_iff; simpl; auto).
      destruct (Hmem _ _ Hes) as [Hne Hall].
      assert (Hk : of_attr v = k0).
      { destruct es as [| e0 es]; [congruence |].
        destruct (Hall e0) as (v0 & _ & <-); [left; reflexivity |].
        symmetry; apply of_attr_eqb; assumption. }
      intros k es' Hin; rewrite in_app_iff in Hin; simpl in Hin.
      destruct Hin as [Hin | [[= <- <-] | Hin]].
      * apply Hmem; rewrite Hd, in_app_iff; auto.
      * split; [destruct es; discriminate |].
        intros e'; rewrite in_app_iff; simpl; intros [He' | [<- | []]];
          [apply Hall; assumption | eauto].
      * apply Hmem; rewrite Hd, in_app_iff; simpl; auto.
    + subst d; unfold dict_values in *; rewrite map_app in *; simpl in *.
      rewrite List.concat_app in *; simpl in *.
      apply Permutation_trans
        with ((List.concat (map snd d1) ++ es ++ List.concat (map snd d2)) ++ [e]);
        [| apply Permutation_app_tail; exact Hperm].
      rewrite <- !app_assoc; do 2 apply Permutation_app_head.
      apply Permutation_app_comm.
  - rewrite dict_set_absent by assumption; constructor.
    + apply dict_wf_app_one; assumption.
    + intros k es Hin; rewrite in_app_iff in Hin; simpl in Hin.
      destruct Hin as [Hin | [[= <- <-] | []]]; [apply Hmem; assumption |].
      split; [discriminate |]; intros e' [<- | []]; eauto.
    + unfold dict_values; rewrite map_app, List.concat_app; simpl.
      apply Permutation_app_tail; exact Hperm.
Qed.

Lemma DF_group_grouped (f : feature) (ents : list entity)
      (d : dict bval (list entity)) :
  DF_group f ents = Ok d -> grouped f ents d.
Proof.
  revert d; induction ents as [| e l IH] using rev_ind; intros d.
  - intros [= <-]; constructor; simpl; [exact I | intros ? ? [] | constructor].
  - unfold DF_group; rewrite foldM_app; intros H.
    apply bind_ok in H as (d0 & H0 & H1); simpl in H1.
    apply bind_ok in H1 as (d1 & H1 & [= <-]).
    apply (grouped_step f l d0); [apply IH; exact H0 | exact H1].
Qed.

Lemma DF_group_ok (f : feature) (ents : list entity) :
  (forall e, In e ents -> exists v, discrete_get f e = Ok v) ->
  exists d, DF_group f ents = Ok d.
Proof.
  induction ents as [| e l IH] using rev_ind; intros H; [eexists; reflexivity |].
  destruct IH as [d0 Hd0]; [intros; apply H; rewrite in_app_iff; auto |].
  destruct (H e) as [v Hv]; [rewrite in_app_iff; simpl; auto |].
  unfold DF_group in *; rewrite foldM_app, Hd0; simpl; unfold DF_step.
  rewrite Hv; simpl.
  destruct (dict_get py_eqb d0 (of_attr v)); simpl; eexists; reflexivity.
Qed.

(** A group among at least two non-empty groups is shorter than all the
    groups together. *)
Lemma group_shorter {A : Type} (groups : list (list A)) (g : list A) :
  (2 <= List.length groups)%nat -> Forall (fun g => g <> []) groups -> In g groups ->
  (List.length g < List.length (List.concat groups))%nat.
Proof.
  intros Hlen Hne Hin.
  assert (Hpos : forall g', In g' groups -> (1 <= List.length g')%nat).
  { intros g' Hg'; rewrite Forall_forall in Hne; specialize (Hne _ Hg').
    destruct g'; [congruence | simpl; lia]. }
  destruct groups as [| g1 [| g2 rest]]; simpl in Hlen; try lia.
  simpl; rewrite !length_app.
  pose proof (Hpos g1 (or_introl eq_refl)).
  pose proof (Hpos g2 (or_intror (or_introl eq_refl))).
  destruct Hin as [<- | [<- | Hin]]; try lia.
  assert (List.length g <= List.length (List.concat rest))%nat; [| lia].
  clear -Hin; induction rest as [| r rest IH]; [destruct Hin |].
  simpl; rewrite length_app; destruct Hin as [<- | Hin]; [lia |].
  specialize (IH Hin); lia.
Qed.

Lemma DF_split_inv (f : feature) (ents : list entity) (w : R)
      (arg : option value) (parts : partitions) :
  DF_split f ents = Ok (w, arg, parts) ->
  grouped f ents parts /\ arg = None /\ (2 <= List.length parts)%nat.
Proof.
  unfold DF_split; intros H.
  apply bind_ok in H as ([] & _ & H).
  apply bind_ok in H as (d & Hd & H).
  destruct (Z.ltb_spec (len d) 2) as [| Hlen]; [discriminate |].
  apply bind_ok in H as (s & _ & H).
  apply bind_ok in H as (a & _ & [= <- <- <-]).
  split; [apply DF_group_grouped; assumption | split; [reflexivity |]].
  unfold len in Hlen; lia.
Qed.

Lemma assert_len_short {A : Type} (ents : list A) :
  len ents < 2 -> assert (2 <=? len ents) = Raise AssertionError.
Proof. intros H; unfold assert; destruct (Z.leb_spec 2 (len ents)); [lia | reflexivity]. Qed.

Lemma assert_len_long {A : Type} (ents : list A) :
  2 <= len ents -> assert (2 <=? len ents) = Ok tt.
Proof. intros H; unfold assert; destruct (Z.leb_spec 2 (len ents)); [reflexivity | lia]. Qed.

Lemma fsum_total {A : Type} (g : A -> result R) (l : list A) :
  (forall a, In a l -> exists h, g a = Ok h) -> exists s, fsum g l = Ok s.
Proof.
  unfold fsum; generalize 0%R; induction l as [| a l IH]; intros acc H; simpl;
    [eauto |].
  destruct (H a) as [h ->]; [left; reflexivity |]; simpl.
  apply IH; intros; apply H; right; assumption.
Qed.

Lemma entetp_total (ents : list entity) : ents <> [] -> exists h, entetp ents = Ok h.
Proof. intros H; rewrite entetp_ok by assumption; eauto. Qed.

Lemma DF_split_total (f : feature) (ents : list entity) :
  2 <= len ents ->
  (forall e, In e ents -> exists v, discrete_get f e = Ok v) ->
  (exists r, DF_split f ents = Ok r) \/ DF_split f ents = Raise InvalidSplit.
Proof.
  intros Hlen Hget; unfold DF_split; rewrite assert_len_long by assumption; simpl.
  destruct (DF_group_ok f ents Hget) as [d Hd]; rewrite Hd; simpl.
  destruct (len d <? 2); [right; reflexivity | left].
  pose proof (DF_group_grouped _ _ _ Hd) as [_ Hmem _].
  destruct (fsum_total (fun es => h <- entetp es ;; Ok (IZR (len es) * h)%R)
                       (dict_values d)) as [s ->].
  { intros es Hin; unfold dict_values in Hin; apply in_map_iff in Hin.
    destruct Hin as ([k es'] & <- & Hin); simpl.
    destruct (entetp_total es') as [h ->]; [apply (Hmem k); assumption |].
    simpl; eauto. }
  simpl; unfold float_div.
  destruct (Z.eqb_spec (len ents) 0); [lia |]; simpl; eauto.
Qed.

(** ** MembershipFeature.split *)

Lemma entity_eqb_eq (a b : entity) : entity_eqb a b = true <-> a = b.
Proof.
  unfold entity_eqb; destruct (entity_eq_dec a b); split; congruence.
Qed.

Lemma mem_In (e : entity) (es : list entity) : mem e es = true <-> In e es.
Proof.
  unfold mem; rewrite existsb_exists; split.
  - intros (x & Hx & Heq); apply entity_eqb_eq in Heq; subst; assumption.
  - intros H; exists e; split; [assumption | apply entity_eqb_eq; reflexivity].
Qed.

Lemma mem_false (e : entity) (es : list entity) : mem e es = false <-> ~ In e es.
Proof.
  rewrite <- mem_In; destruct (mem e es); split; congruence.
Qed.

Lemma set_add_In (es : list entity) (e e' : entity) :
  In e' (set_add es e) <-> In e' es \/ e' = e.
Proof.
  unfold set_add; destruct (mem e es) eqn:E.
  - apply mem_In in E; split; [auto | intros [H | ->]; assumption].
  - rewrite in_app_iff; simpl; intuition.
Qed.

Lemma set_add_NoDup (es : list entity) (e : entity) :
  NoDup es -> NoDup (set_add es e).
Proof.
  intros H; unfold set_add; destruct (mem e es) eqn:E; [assumption |].
  apply mem_false in E.
  apply NoDup_rev in H; rewrite <- (rev_involutive (es ++ [e])).
  apply NoDup_rev; rewrite rev_app_distr; simpl.
  constructor; [rewrite <- in_rev; assumption | assumption].
Qed.

Lemma set_add_nonempty (es : list entity) (e : entity) : set_add es e <> [].
Proof.
  unfold set_add; destruct (mem e es) eqn:E.
  - apply mem_In in E; destruct es; [destruct E | discriminate].
  - destruct es; discriminate.
Qed.

(** The index of a membership feature: [d] maps a token to the set of the
    entries related to it by [rel]. *)
Record indexed (rel : string -> entity -> Prop) (d : dict string (list entity))
  : Prop := {
  indexed_wf : dict_wf String.eqb d;
  indexed_sets : forall v es, In (v, es) d ->
      es <> [] /\ NoDup es /\ forall e, In e es <-> rel v e;
  indexed_absent : forall v e, dict_get String.eqb d v = None -> ~ rel v e
}.

Lemma indexed_ext (rel rel' : string -> entity -> Prop) (d : dict string (list entity)) :
  (forall v e, rel v e <-> rel' v e) -> indexed rel d -> indexed rel' d.
Proof.
  intros Hext [Hwf Hsets Habs]; constructor; [assumption | |].
  - intros v es Hin; destruct (Hsets v es Hin) as (H1 & H2 & H3).
    repeat split; try assumption; intros H; [apply Hext, H3 | apply H3, Hext];
      assumption.
  - intros v e Hget Hrel; apply (Habs v e Hget), Hext; assumption.
Qed.

Lemma indexed_add (rel : string -> entity -> Prop) (d : dict string (list entity))
      (e : entity) (v : string) :
  indexed rel d ->
  indexed (fun v' e' => rel v' e' \/ (v' = v /\ e' = e)) (MF_add e d v).
Proof.
  intros [Hwf Hsets Habs]; unfold MF_add.
  destruct (dict_get String.eqb d v) as [es |] eqn:E.
  - destruct (dict_set_present String.eqb d v (set_add es e) es E)
      as (d1 & k0 & d2 & Hd & Hset & Hk0 & _).
    apply String.eqb_eq in Hk0; subst k0.
    assert (Hwf' : dict_wf String.eqb (dict_set String.eqb d v (set_add es e)))
      by (apply dict_set_wf; assumption).
    assert (Hes : In (v, es) d) by (rewrite Hd, in_app_iff; simpl; auto).
    constructor; [assumption | |].
    + intros v' es' Hin.
      assert (Hcase : (v' = v /\ es' = set_add es e) \/ (v' <> v /\ In (v', es') d)).
      { pose proof (dict_in_get _ _ _ Hwf' Hin) as Hg.
        destruct (string_dec v v') as [<- | Hne].
        - left; rewrite dict_get_set_same in Hg by apply String.eqb_refl.
          injection Hg as <-; auto.
        - right; split; [congruence |].
          rewrite dict_get_set_other in Hg by assumption.
          apply dict_get_in_str; assumption. }
      destruct Hcase as [[-> ->] | [Hne Hin']].
      * destruct (Hsets v es Hes) as (H1 & H2 & H3).
        repeat split; [apply set_add_nonempty | apply set_add_NoDup; assumption | |].
        -- rewrite set_add_In, H3; intros [H | ->]; auto.
        -- rewrite set_add_In, H3; intros [H | [_ ->]]; auto.
      * destruct (Hsets v' es' Hin') as (H1 & H2 & H3).
        repeat split; try assumption; [rewrite H3; auto |].
        rewrite H3; intros [H | [-> _]]; [assumption | congruence].
    + intros v' e' Hget [Hrel | [-> ->]].
      * destruct (string_dec v v') as [<- | Hne].
        -- rewrite dict_get_set_same in Hget by apply String.eqb_refl; discriminate.
        -- rewrite dict_get_set_other in Hget by assumption.
           apply (Habs v' e'); assumption.
      * rewrite dict_get_set_same in Hget by apply String.eqb_refl; discriminate.
  - assert (Hwf' : dict_wf String.eqb (dict_set String.eqb d v (set_add [] e)))
      by (apply dict_set_wf; assumption).
    constructor; [assumption | |].
    + intros v' es' Hin.
      pose proof (dict_in_get _ _ _ Hwf' Hin) as Hg.
      destruct (string_dec v v') as [<- | Hne].
      * rewrite dict_get_set_same in Hg by apply String.eqb_refl.
        injection Hg as <-.
        repeat split; [discriminate | repeat constructor; intros [] | |].
        -- intros [<- | []]; auto.
        -- intros [Hrel | [_ ->]]; [| left; reflexivity].
           exfalso; apply (Habs v e0); assumption.
      * rewrite dict_get_set_other in Hg by assumption.
        apply dict_get_in_str in Hg.
        destruct (Hsets v' es' Hg) as (H1 & H2 & H3).
        repeat split; try assumption; [rewrite H3; auto |].
        rewrite H3; intros [H | [-> _]]; [assumption | congruence].
    + intros v' e' Hget [Hrel | [-> ->]].
      * destruct (string_dec v v') as [<- | Hne].
        -- rewrite dict_get_set_same in Hget by apply String.eqb_refl; discriminate.
        -- rewrite dict_get_set_other in Hget by assumption.
           apply (Habs v' e'); assumption.
      * rewrite dict_get_set_same in Hget by apply String.eqb_refl; discriminate.
Qed.

Lemma indexed_add_tokens (rel : string -> entity -> Prop) (e : entity)
      (tokens : list string) (d : dict string (list entity)) :
  indexed rel d ->
  indexed (fun v' e' => rel v' e' \/ (In v' tokens /\ e' = e))
          (fold_left (MF_add e) tokens d).
Proof.
  revert rel d; induction tokens as [| v ts IH]; intros rel d H; simpl.
  - apply (indexed_ext rel); [intros; tauto | assumption].
  - apply (indexed_ext (fun v' e' => (rel v' e' \/ (v' = v /\ e' = e))
                                     \/ (In v' ts /\ e' = e))).
    + intros v' e'; intuition congruence.
    + apply IH, indexed_add; assumption.
Qed.

(** The relation the index of [f] over the entries [l] records: the entry
    is one of [l] and the token is among those [f] reads in it. *)
Definition holds_token (f : feature) (l : list entity) (v : string) (e : entity)
  : Prop :=
  In e l /\ exists tokens, member_get f e = Ok tokens /\ In v tokens.

Lemma MF_index_app (f : feature) (l : list entity) (e : entity) :
  MF_index f (l ++ [e])
  = (d <- MF_index f l ;;
     tokens <- member_get f e ;;
     Ok (fold_left (MF_add e) tokens d)).
Proof.
  unfold MF_index; rewrite foldM_app.
  match goal with
  | |- context [foldM ?body l []] => destruct (foldM body l []) as [d |]
  end; simpl; [| reflexivity].
  destruct (member_get f e); reflexivity.
Qed.

Lemma MF_index_indexed (f : feature) (ents : list entity)
      (d : dict string (list entity)) :
  MF_index f ents = Ok d ->
  indexed (holds_token f ents) d
  /\ forall e, In e ents -> exists tokens, member_get f e = Ok tokens.
Proof.
  revert d; induction ents as [| e l IH] using rev_ind; intros d.
  - intros [= <-]; split; [| intros e []].
    constructor; simpl; [exact I | intros ? ? [] |].
    intros v e _ [[] _].
  - rewrite MF_index_app; intros H.
    apply bind_ok in H as (d0 & H0 & H).
    apply bind_ok in H as (tokens & Htok & [= <-]).
    destruct (IH d0 H0) as [Hidx Hall]; split.
    + apply (indexed_ext (fun v' e' => holds_token f l v' e'
                                       \/ (In v' tokens /\ e' = e)));
        [| apply indexed_add_tokens; assumption].
      intros v' e'; unfold holds_token; rewrite in_app_iff; simpl; split.
      * intros [(H1 & H2) | (H1 & ->)]; [tauto |].
        split; [tauto | eauto].
      * intros ([H1 | [<- | []]] & toks & H2 & H3); [left; eauto |].
        right; split; [congruence | reflexivity].
    + intros e'; rewrite in_app_iff; simpl; intros [H | [<- | []]];
        [apply Hall; assumption | eauto].
Qed.

Lemma MF_index_ok (f : feature) (ents : list entity) :
  (forall e, In e ents -> exists tokens, member_get f e = Ok tokens) ->
  exists d, MF_index f ents = Ok d.
Proof.
  induction ents as [| e l IH] using rev_ind; intros H; [eexists; reflexivity |].
  destruct IH as [d0 Hd0]; [intros; apply H; rewrite in_app_iff; auto |].
  destruct (H e) as [v Hv]; [rewrite in_app_iff; simpl; auto |].
  rewrite MF_index_app, Hd0; simpl; rewrite Hv; simpl; eauto.
Qed.

Section MembershipScan.
Variable ord : set_order.

Lemma iter_nonempty (es : list entity) : es <> [] -> iter ord es <> [].
Proof.
  intros Hne Hnil; pose proof (iter_perm ord es) as Hp.
  rewrite Hnil in Hp; apply Permutation_nil in Hp; congruence.
Qed.

Lemma iter_In (es : list entity) (e : entity) : In e (iter ord es) <-> In e es.
Proof.
  split; apply Permutation_in; [| symmetry]; apply iter_perm.
Qed.

Lemma iter_length (es : list entity) : List.length (iter ord es) = List.length es.
Proof. apply Permutation_length, iter_perm. Qed.

(** What the scan keeps is an entry of the index with a complement that
    is not empty. *)
Definition MF_kept (ents : list entity) (d : dict string (list entity))
           (st : option ((string * list entity) * R)) : Prop :=
  match st with
  | None => True
  | Some ((v, nes), _) =>
      exists es, In (v, es) d /\ nes = outside ents es /\ nes <> []
  end.

Lemma keep_min_cases {C : Type} (st : option (C * R)) (c : C) (x : R) :
  keep_min st c x = Some (c, x) \/ (keep_min st c x = st /\ st <> None).
Proof.
  destruct st as [[c0 m] |]; simpl; [| auto].
  destruct (Rltb x m); [auto | right; split; [reflexivity | discriminate]].
Qed.

Lemma MF_scan_kept (ents : list entity) (d d' : dict string (list entity))
      (st st' : option ((string * list entity) * R)) :
  incl d' d -> MF_kept ents d st ->
  foldM (MF_try ord ents) d' st = Ok st' ->
  MF_kept ents d st' /\ (st <> None -> st' <> None).
Proof.
  revert st; induction d' as [| [v es] d' IH]; intros st Hincl Hst; simpl.
  - intros [= <-]; auto.
  - intros H; apply bind_ok in H as (st1 & H1 & H2).
    assert (Hincl' : incl d' d) by (intros x Hx; apply Hincl; right; assumption).
    unfold MF_try in H1.
    destruct (outside ents es) as [| e0 nes0] eqn:E.
    + injection H1 as <-; apply (IH st); assumption.
    + apply bind_ok in H1 as (h1 & _ & H1).
      apply bind_ok in H1 as (h2 & _ & H1).
      apply bind_ok in H1 as (a & _ & [= <-]).
      assert (Hkept : MF_kept ents d (keep_min st (v, e0 :: nes0) a)).
      { destruct (keep_min_cases st (v, e0 :: nes0) a) as [-> | [-> _]];
          [| assumption].
        simpl; exists es; repeat split;
          [apply Hincl; left; reflexivity | symmetry; exact E | discriminate]. }
      destruct (IH _ Hincl' Hkept H2) as [Hk Hn].
      split; [assumption |].
      intros _; apply Hn.
      destruct (keep_min_cases st (v, e0 :: nes0) a) as [-> | [-> ?]];
        [discriminate | assumption].
Qed.

Lemma MF_split_inv (f : feature) (ents : list entity) (w : R)
      (arg : option value) (parts : partitions) :
  MF_split ord f ents = Ok (w, arg, parts) ->
  exists a es,
    arg = Some (VStr a)
    /\ parts = [(BBool true, iter ord es); (BBool false, outside ents es)]
    /\ es <> [] /\ NoDup es
    /\ (forall e, In e es <-> holds_token f ents a e)
    /\ outside ents es <> []
    /\ (forall e, In e ents -> exists tokens, member_get f e = Ok tokens).
Proof.
  unfold MF_split; intros H.
  apply bind_ok in H as ([] & _ & H).
  apply bind_ok in H as (d & Hd & H).
  destruct (len d <? 2); [discriminate |].
  apply bind_ok in H as (st & Hst & H).
  destruct st as [[[a nes] m] |]; [| discriminate].
  apply bind_ok in H as (es & Hes & [= <- <- <-]).
  destruct (MF_index_indexed _ _ _ Hd) as [[Hwf Hsets Habs] Hall].
  destruct (MF_scan_kept ents d d None (Some (a, nes, m)) (incl_refl _) I Hst)
    as [(es' & Hin & Hnes & Hne) _].
  unfold dict_item in Hes.
  rewrite (dict_in_get _ _ _ Hwf Hin) in Hes; injection Hes as <-.
  destruct (Hsets a es' Hin) as (H1 & H2 & H3).
  exists a, es'; subst nes.
  split; [reflexivity | split; [reflexivity |]].
  split; [assumption | split; [assumption |]].
  split; [exact H3 | split; assumption].
Qed.
End MembershipScan.

Section MembershipTotal.
Variable ord : set_order.

Lemma MF_scan_total (ents : list entity) (d' : dict string (list entity))
      (st : option ((string * list entity) * R)) :
  ents <> [] ->
  (forall v es, In (v, es) d' -> es <> []) ->
  exists st', foldM (MF_try ord ents) d' st = Ok st'.
Proof.
  intros Hents; revert st; induction d' as [| [v es] d' IH]; intros st Hne;
    [simpl; eauto |].
  cbn [foldM].
  assert (Hstep : exists st1, MF_try ord ents st (v, es) = Ok st1).
  { unfold MF_try; destruct (outside ents es) as [| e0 nes] eqn:E; [eauto |].
    unfold set_entetp.
    destruct (entetp_total (iter ord es)) as [h1 ->];
      [apply iter_nonempty, (Hne v); left; reflexivity |].
    destruct (entetp_total (e0 :: nes)) as [h2 ->]; [discriminate |].
    simpl; unfold float_div.
    destruct (Z.eqb_spec (len ents) 0) as [H0 |]; simpl; [| eauto].
    destruct ents; [congruence | unfold len in H0; simpl in H0; lia]. }
  destruct Hstep as [st1 ->]; simpl.
  apply IH; intros v' es' Hin; apply (Hne v'); right; assumption.
Qed.

Lemma MF_split_total (f : feature) (ents : list entity) :
  2 <= len ents ->
  (forall e, In e ents -> exists tokens, member_get f e = Ok tokens) ->
  (exists r, MF_split ord f ents = Ok r) \/ MF_split ord f ents = Raise InvalidSplit.
Proof.
  intros Hlen Hget; unfold MF_split; rewrite assert_len_long by assumption; simpl.
  destruct (MF_index_ok f ents Hget) as [d Hd]; rewrite Hd; simpl.
  destruct (len d <? 2); [right; reflexivity |].
  destruct (MF_index_indexed _ _ _ Hd) as [[Hwf Hsets Habs] _].
  assert (Hents : ents <> []) by (intros ->; unfold len in Hlen; simpl in Hlen; lia).
  destruct (MF_scan_total ents d None Hents) as [st Hst];
    [intros v es Hin; apply (Hsets v es Hin) |].
  unfold MF_scan; rewrite Hst; simpl.
  destruct st as [[[a nes] m] |]; [left | right; reflexivity].
  destruct (MF_scan_kept ord ents d d None _ (incl_refl _) I Hst)
    as [(es & Hin & _) _].
  unfold dict_item; rewrite (dict_in_get _ _ _ Hwf Hin); simpl; eauto.
Qed.
End MembershipTotal.

(** ** Order on values *)

Lemma string_compare_refl (s : string) : String.compare s s = Eq.
Proof.
  induction s as [| c s IH]; simpl; [reflexivity |].
  unfold Ascii.compare; rewrite N.compare_refl; assumption.
Qed.

Lemma string_compare_lt_trans (a b c : string) :
  String.compare a b = Lt -> String.compare b c = Lt -> String.compare a c = Lt.
Proof.
  revert b c; induction a as [| x a IH]; intros [| y b] [| z c]; simpl;
    try discriminate; try reflexivity.
  unfold Ascii.compare.
  destruct (N.compare_spec (N_of_ascii x) (N_of_ascii y)) as [Hxy | Hxy | Hxy];
    destruct (N.compare_spec (N_of_ascii y) (N_of_ascii z)) as [Hyz | Hyz | Hyz];
    try discriminate; intros H1 H2.
  - rewrite Hxy, Hyz, N.compare_refl; eapply IH; eassumption.
  - rewrite Hxy; apply N.compare_lt_iff in Hyz; rewrite Hyz; reflexivity.
  - rewrite <- Hyz; apply N.compare_lt_iff in Hxy; rewrite Hxy; reflexivity.
  - assert (H : (N_of_ascii x < N_of_ascii z)%N) by (eapply N.lt_trans; eassumption).
    apply N.compare_lt_iff in H; rewrite H; reflexivity.
Qed.

(** [a <= b] as the sort sees it: not [b < a]. *)
Definition value_le (a b : value) : Prop := value_ltb b a = false.

Lemma value_ltb_irrefl (a : value) : value_ltb a a = false.
Proof.
  destruct a as [s | x]; unfold value_ltb; simpl.
  - unfold String.ltb; rewrite string_compare_refl; reflexivity.
  - apply Z.ltb_irrefl.
Qed.


Lemma string_ltb_false (s t : string) :
  String.ltb s t = false <-> (s = t \/ String.ltb t s = true).
Proof.
  unfold String.ltb; rewrite (String.compare_antisym t s).
  destruct (String.compare s t) eqn:E; simpl; split; intros H;
    try discriminate; try reflexivity; auto.
  - left; apply String.compare_eq_iff; assumption.
  - destruct H as [-> | H]; [| discriminate].
    rewrite string_compare_refl in E; discriminate.
Qed.

Lemma string_ltb_trans (a b c : string) :
  String.ltb a b = true -> String.ltb b c = true -> String.ltb a c = true.
Proof.
  unfold String.ltb; intros H1 H2.
  destruct (String.compare a b) eqn:E1; try discriminate.
  destruct (String.compare b c) eqn:E2; try discriminate.
  rewrite (string_compare_lt_trans a b c E1 E2); reflexivity.
Qed.

Lemma value_ltb_false (a b : value) :
  same_kind a b = true ->
  value_ltb a b = false <-> (a = b \/ value_ltb b a = true).
Proof.
  destruct a as [s | x], b as [t | y]; simpl; try discriminate; intros _;
    unfold value_ltb; simpl.
  - rewrite string_ltb_false; split; intros [H | H]; auto; left; congruence.
  - rewrite Z.ltb_ge, Z.ltb_lt; split; [intros H | intros [[= ->] | H]]; try lia.
    destruct (Z.eq_dec x y) as [-> | ?]; [left; reflexivity | right; lia].
Qed.

Lemma value_ltb_trans (a b c : value) :
  value_ltb a b = true -> value_ltb b c = true -> value_ltb a c = true.
Proof.
  destruct a as [s | x], b as [t | y], c as [u | z]; unfold value_ltb; simpl;
    try discriminate.
  - apply string_ltb_trans.
  - rewrite !Z.ltb_lt; lia.
Qed.

Lemma same_kind_trans (a b c : value) :
  same_kind a b = true -> same_kind a c = true -> same_kind b c = true.
Proof. destruct a, b, c; simpl; congruence. Qed.

Lemma same_kind_refl (a : value) : same_kind a a = true.
Proof. destruct a; reflexivity. Qed.


Lemma value_le_trans (a b c : value) :
  same_kind a b = true -> same_kind b c = true ->
  value_le a b -> value_le b c -> value_le a c.
Proof.
  intros Hab Hbc H1 H2; unfold value_le in *.
  destruct (value_ltb c a) eqn:E; [| reflexivity].
  assert (Hcb : same_kind c b = true) by (destruct b, c; simpl in *; congruence).
  apply (value_ltb_false c b Hcb) in H2 as [-> | Hlt]; [congruence |].
  assert (Hba : same_kind b a = true) by (destruct a, b; simpl in *; congruence).
  rewrite (value_ltb_trans b c a Hlt E) in H1; discriminate.
Qed.



(** ** QuantitativeFeature.split *)

(** The entries with a value, each with its value, and the entries
    without one, both in the order of [ents]. *)
Definition defined (attr : string) (ents : list entity) : list (entity * value) :=
  flat_map (fun e => match Feature_get attr e with
                     | Some v => [(e, v)]
                     | None => []
                     end) ents.

Definition undefined (attr : string) (ents : list entity) : list entity :=
  filter (fun e => match Feature_get attr e with
                   | Some _ => false
                   | None => true
                   end) ents.

Lemma QF_collect_eq (attr : string) (ents : list entity) :
  QF_collect attr ents = (defined attr ents, undefined attr ents).
Proof.
  unfold QF_collect.
  assert (H : forall l pairs undefs,
             fold_left (fun (st : list (entity * value) * list entity) e =>
                          let '(pairs, undefs) := st in
                          match Feature_get attr e with
                          | None => (pairs, undefs ++ [e])
                          | Some v => (pairs ++ [(e, v)], undefs)
                          end) l (pairs, undefs)
             = (pairs ++ defined attr l, undefs ++ undefined attr l)).
  { induction l as [| e l IH]; intros pairs undefs; simpl.
    - rewrite !app_nil_r; reflexivity.
    - destruct (Feature_get attr e) as [v |]; rewrite IH, <- app_assoc; reflexivity. }
  apply (H ents [] []).
Qed.

Lemma defined_In (attr : string) (ents : list entity) (e : entity) (v : value) :
  In (e, v) (defined attr ents) <-> In e ents /\ Feature_get attr e = Some v.
Proof.
  unfold defined; rewrite in_flat_map; split.
  - intros (x & Hx & Hin); destruct (Feature_get attr x) as [w |] eqn:E;
      [| destruct Hin].
    destruct Hin as [[= -> ->] | []]; auto.
  - intros [Hin Hv]; exists e; rewrite Hv; split; [assumption | left; reflexivity].
Qed.

Lemma undefined_In (attr : string) (ents : list entity) (e : entity) :
  In e (undefined attr ents) <-> In e ents /\ Feature_get attr e = None.
Proof.
  unfold undefined; rewrite filter_In.
  destruct (Feature_get attr e); intuition congruence.
Qed.

Lemma defined_undefined_length (attr : string) (ents : list entity) :
  (List.length (defined attr ents) + List.length (undefined attr ents)
   = List.length ents)%nat.
Proof.
  induction ents as [| e l IH]; simpl; [reflexivity |].
  destruct (Feature_get attr e); simpl; rewrite ?length_app; simpl; lia.
Qed.

(** *** The sort *)

Definition by_value (p q : entity * value) : Prop := value_le (snd p) (snd q).

Definition one_kind (l : list (entity * value)) : Prop :=
  forall p q, In p l -> In q l -> same_kind (snd p) (snd q) = true.

Lemma insert_by_value_perm (p : entity * value) (l : list (entity * value)) :
  Permutation (insert_by_value p l) (p :: l).
Proof.
  induction l as [| q l IH]; simpl; [reflexivity |].
  destruct (value_ltb (snd q) (snd p)); [| reflexivity].
  rewrite IH; apply perm_swap.
Qed.

Lemma insert_by_value_sorted (p : entity * value) (l : list (entity * value)) :
  one_kind (p :: l) -> StronglySorted by_value l ->
  StronglySorted by_value (insert_by_value p l).
Proof.
  intros Hk Hs; induction Hs as [| q l Hs IH Hq]; simpl.
  - constructor; constructor.
  - assert (Hpq : same_kind (snd p) (snd q) = true)
      by (apply Hk; simpl; auto).
    destruct (value_ltb (snd q) (snd p)) eqn:E.
    + constructor.
      * apply IH; intros x y Hx Hy; apply Hk; simpl in *; intuition.
      * rewrite Forall_forall; intros x Hx.
        apply (Permutation_in _ (insert_by_value_perm p l)) in Hx.
        destruct Hx as [<- | Hx]; [| rewrite Forall_forall in Hq; apply Hq; assumption].
        unfold by_value, value_le.
        destruct (value_ltb (snd p) (snd q)) eqn:E'; [| reflexivity].
        pose proof (value_ltb_trans _ _ _ E E') as Hc.
        rewrite value_ltb_irrefl in Hc; discriminate.
    + constructor; [constructor; assumption |].
      constructor; [exact E |].
      rewrite Forall_forall in Hq |- *; intros x Hx.
      apply (value_le_trans _ (snd q)); [assumption | | exact E | apply Hq; assumption].
      apply Hk; simpl; auto.
Qed.

Lemma sort_pairs_inv (pairs sorted : list (entity * value)) :
  sort_pairs pairs = Ok sorted ->
  Permutation sorted pairs /\ StronglySorted by_value sorted /\ one_kind sorted.
Proof.
  unfold sort_pairs; destruct pairs as [| [e0 v0] rest] eqn:Hp.
  - intros [= <-]; repeat split; [constructor | constructor | intros ? ? []].
  - rewrite <- Hp; clear Hp.
    destruct (forallb (fun p => same_kind v0 (snd p)) pairs) eqn:Hall; [| discriminate].
    intros [= <-]; rewrite forallb_forall in Hall.
    assert (Hk : one_kind pairs).
    { intros p q Hp Hq; apply (same_kind_trans v0); apply Hall; assumption. }
    clear Hall; induction pairs as [| p l IH]; simpl.
    + repeat split; [constructor | constructor | intros ? ? []].
    + assert (Hk' : one_kind l) by (intros x y Hx Hy; apply Hk; simpl; auto).
      destruct (IH Hk') as (H1 & H2 & H3).
      assert (Hperm : Permutation (insert_by_value p (fold_right insert_by_value [] l))
                                  (p :: l)).
      { rewrite insert_by_value_perm; constructor; assumption. }
      assert (Hk'' : one_kind (p :: fold_right insert_by_value [] l)).
      { intros x y Hx Hy; apply Hk;
          [apply (Permutation_in x (perm_skip p H1)) | apply (Permutation_in y (perm_skip p H1))];
          assumption. }
      repeat split; [exact Hperm | apply insert_by_value_sorted; assumption |].
      intros x y Hx Hy; apply Hk; eapply Permutation_in; eassumption.
Qed.

Lemma sort_pairs_ok (pairs : list (entity * value)) :
  one_kind pairs -> exists sorted, sort_pairs pairs = Ok sorted.
Proof.
  intros Hk; unfold sort_pairs; destruct pairs as [| [e0 v0] rest]; [eauto |].
  assert (H : forallb (fun p => same_kind v0 (snd p)) ((e0, v0) :: rest) = true).
  { rewrite forallb_forall; intros p Hin.
    apply (Hk (e0, v0) p); [left; reflexivity | assumption]. }
  rewrite H; eauto.
Qed.

(** *** The scan of the cut points *)

Lemma value_eqb_eq (a b : value) : value_eqb a b = true <-> a = b.
Proof.
  destruct a as [s | x], b as [t | y]; simpl; split; try discriminate.
  - intros H; apply String.eqb_eq in H; congruence.
  - intros [= ->]; apply String.eqb_refl.
  - intros H; apply Z.eqb_eq in H; congruence.
  - intros [= ->]; apply Z.eqb_refl.
Qed.

Definition vnth (vs : list value) (i : nat) : value := nth i vs (VInt 0).

(** Position [i] is a cut point: the values on its two sides differ. *)
Definition is_cut (vs : list value) (i : nat) : Prop :=
  value_eqb (vnth vs (i - 1)) (vnth vs i) = false.

(** The state of the scan when the positions below [a] have been seen. *)
Definition scanned (es : list entity) (vs : list value) (a : nat)
           (st : value * option (nat * R)) : Prop :=
  fst st = vnth vs (a - 1)
  /\ match snd st with
     | None => forall j, (1 <= j < a)%nat -> ~ is_cut vs j
     | Some (i, w) =>
         (1 <= i < a)%nat /\ is_cut vs i /\ QF_avgetp es i = Ok w
         /\ forall j, (1 <= j < a)%nat -> is_cut vs j ->
                      exists wj, QF_avgetp es j = Ok wj /\ (w <= wj)%R
     end.

Lemma scanned_step (es : list entity) (vs : list value) (a : nat)
      (st st' : value * option (nat * R)) :
  (1 <= a < List.length vs)%nat ->
  scanned es vs a st -> QF_try es vs st a = Ok st' -> scanned es vs (S a) st'.
Proof.
  intros Ha [Hv Hm]; destruct st as [v0 m]; simpl in Hv, Hm; unfold QF_try.
  rewrite (nth_indep vs v0 (VInt 0)) by lia; fold (vnth vs a).
  unfold scanned; replace (S a - 1)%nat with a by lia.
  assert (Hlt : forall j, (1 <= j < S a)%nat -> (1 <= j < a)%nat \/ j = a) by lia.
  destruct (value_eqb v0 (vnth vs a)) eqn:E.
  - intros [= <-]; apply value_eqb_eq in E; split; simpl; [assumption |].
    assert (Hnot : ~ is_cut vs a).
    { unfold is_cut; rewrite <- Hv, E.
      destruct (value_eqb (vnth vs a) (vnth vs a)) eqn:E'; [discriminate |].
      assert (H : value_eqb (vnth vs a) (vnth vs a) = true) by (apply value_eqb_eq; reflexivity).
      congruence. }
    destruct m as [[i w] |].
    + destruct Hm as (Hi & Hcut & Hw & Hmin); repeat split; try assumption; try lia.
      intros j Hj Hc; destruct (Hlt j Hj) as [Hj' | ->];
        [apply Hmin; assumption | contradiction].
    + intros j Hj Hc; destruct (Hlt j Hj) as [Hj' | ->];
        [apply (Hm j); assumption | contradiction].
  - intros H; apply bind_ok in H as (w' & Hw' & [= <-]); split; simpl; [reflexivity |].
    assert (Hcut : is_cut vs a) by (unfold is_cut; rewrite <- Hv; exact E).
    destruct m as [[i w] |]; simpl.
    + destruct Hm as (Hi & Hci & Hw & Hmin).
      destruct (Rltb w' w) eqn:Hcmp.
      * apply Rltb_spec in Hcmp; repeat split; try assumption; try lia.
        intros j Hj Hc; destruct (Hlt j Hj) as [Hj' | ->].
        -- destruct (Hmin j Hj' Hc) as (wj & Hwj & Hle); exists wj; split;
             [assumption | lra].
        -- exists w'; split; [assumption | lra].
      * assert (Hge : (w <= w')%R).
        { destruct (Rlt_dec w' w) as [Hlt' |]; [| lra].
          apply Rltb_true in Hlt'; congruence. }
        repeat split; try assumption; try lia.
        intros j Hj Hc; destruct (Hlt j Hj) as [Hj' | ->];
          [apply Hmin; assumption | eauto].
    + repeat split; try assumption; try lia.
      intros j Hj Hc; destruct (Hlt j Hj) as [Hj' | ->].
      * exfalso; apply (Hm j); assumption.
      * exists w'; split; [assumption | lra].
Qed.

Lemma scanned_loop (es : list entity) (vs : list value) (k a : nat)
      (st st' : value * option (nat * R)) :
  (1 <= a)%nat -> (a + k <= List.length vs)%nat ->
  scanned es vs a st ->
  foldM (QF_try es vs) (seq a k) st = Ok st' ->
  scanned es vs (a + k) st'.
Proof.
  revert a st; induction k as [| k IH]; intros a st Ha Hk Hst; simpl.
  - intros [= <-]; rewrite Nat.add_0_r; assumption.
  - intros H; apply bind_ok in H as (st1 & H1 & H2).
    replace (a + S k)%nat with (S a + k)%nat by lia.
    apply (IH (S a) st1); [lia | lia | | assumption].
    apply (scanned_step es vs a st); [lia | assumption | assumption].
Qed.

Lemma QF_avgetp_total (es : list entity) (i : nat) :
  (1 <= i < List.length es)%nat -> exists w, QF_avgetp es i = Ok w.
Proof.
  intros Hi; unfold QF_avgetp.
  destruct (entetp_total (firstn i es)) as [h1 ->].
  { intros H; apply (f_equal (@List.length entity)) in H.
    rewrite length_firstn in H; simpl in H; lia. }
  destruct (entetp_total (skipn i es)) as [h2 ->].
  { intros H; apply (f_equal (@List.length entity)) in H.
    rewrite length_skipn in H; simpl in H; lia. }
  simpl; unfold float_div.
  destruct (Z.eqb_spec (Z.of_nat (List.length es)) 0); [lia | eauto].
Qed.

Lemma QF_scan_total (es : list entity) (vs : list value) (k a : nat)
      (st : value * option (nat * R)) :
  List.length es = List.length vs ->
  (1 <= a)%nat -> (a + k <= List.length vs)%nat ->
  exists st', foldM (QF_try es vs) (seq a k) st = Ok st'.
Proof.
  intros Hlen; revert a st; induction k as [| k IH]; intros a st Ha Hk; simpl;
    [eauto |].
  assert (Hstep : exists st1, QF_try es vs st a = Ok st1).
  { unfold QF_try; destruct st as [v0 m].
    destruct (value_eqb v0 (nth a vs v0)); [eauto |].
    destruct (QF_avgetp_total es a) as [w ->]; [lia | simpl; eauto]. }
  destruct Hstep as [st1 ->]; simpl; apply IH; lia.
Qed.

(** What a successful [QuantitativeFeature.split] returned. *)
Record QF_outcome (attr : string) (ents : list entity) (w : R)
       (arg : option value) (parts : partitions)
       (sorted : list (entity * value)) (i : nat) : Prop := {
  QF_sorted : sort_pairs (defined attr ents) = Ok sorted;
  QF_range : (1 <= i < List.length sorted)%nat;
  QF_cut : is_cut (map snd sorted) i;
  QF_arg : arg = Some (vnth (map snd sorted) i);
  QF_etp : QF_avgetp (map fst sorted) i = Ok w;
  QF_min : forall j, (1 <= j < List.length sorted)%nat ->
                     is_cut (map snd sorted) j ->
                     exists wj, QF_avgetp (map fst sorted) j = Ok wj /\ (w <= wj)%R;
  QF_parts : parts = [(BStr "lt", firstn i (map fst sorted));
                      (BStr "ge", skipn i (map fst sorted))]
                     ++ match undefined attr ents with
                        | [] => []
                        | _ :: _ => [(BStr "un", undefined attr ents)]
                        end;
  QF_count : 2 <= len ents
}.

Lemma QF_split_inv (attr : string) (ents : list entity) (w : R)
      (arg : option value) (parts : partitions) :
  QF_split attr ents = Ok (w, arg, parts) ->
  exists sorted i, QF_outcome attr ents w arg parts sorted i.
Proof.
  unfold QF_split; intros H.
  apply bind_ok in H as ([] & Hassert & H).
  rewrite QF_collect_eq in H.
  destruct (defined attr ents) as [| [e0 v0] rest] eqn:Hdef; [discriminate |].
  rewrite <- Hdef in H.
  apply bind_ok in H as (sorted & Hsort & H).
  apply bind_ok in H as ([v0' m] & Hscan & H).
  destruct m as [[i wi] |]; [| discriminate].
  pose proof (sort_pairs_inv _ _ Hsort) as (Hperm & _ & _).
  assert (Hn : (1 <= List.length sorted)%nat).
  { rewrite (Permutation_length Hperm), Hdef; simpl; lia. }
  assert (Hinv : scanned (map fst sorted) (map snd sorted)
                         (List.length (map snd sorted)) (v0', Some (i, wi))).
  { replace (List.length (map snd sorted))
      with (1 + (List.length (map snd sorted) - 1))%nat at 1
      by (rewrite length_map; lia).
    apply (scanned_loop _ _ _ 1 (nth 0 (map snd sorted) v0, None));
      [lia | rewrite length_map; lia | | exact Hscan].
    split; simpl; [| intros j Hj; lia].
    apply nth_indep; rewrite length_map; lia. }
  destruct Hinv as (_ & Hi & Hcut & Hw & Hmin); simpl in Hi, Hcut, Hw, Hmin.
  rewrite length_map in Hi, Hmin.
  injection H as Hw' Harg Hparts; subst w arg parts.
  exists sorted, i; constructor; try assumption.
  - f_equal; apply nth_indep; rewrite length_map; lia.
  - destruct (undefined attr ents); reflexivity.
  - unfold assert in Hassert; destruct (Z.leb_spec 2 (len ents)); [assumption | discriminate].
Qed.

Lemma QF_split_total (attr : string) (ents : list entity) :
  2 <= len ents -> one_kind (defined attr ents) ->
  (exists r, QF_split attr ents = Ok r) \/ QF_split attr ents = Raise InvalidSplit.
Proof.
  intros Hlen Hk; unfold QF_split; rewrite assert_len_long by assumption; simpl.
  rewrite QF_collect_eq.
  destruct (defined attr ents) as [| [e0 v0] rest] eqn:Hdef; [right; reflexivity |].
  rewrite <- Hdef in *.
  destruct (sort_pairs_ok _ Hk) as [sorted Hsort]; rewrite Hsort; simpl.
  pose proof (sort_pairs_inv _ _ Hsort) as (Hperm & _ & _).
  assert (Hn : (1 <= List.length sorted)%nat).
  { rewrite (Permutation_length Hperm), Hdef; simpl; lia. }
  destruct (QF_scan_total (map fst sorted) (map snd sorted)
                          (List.length (map snd sorted) - 1) 1
                          (nth 0 (map snd sorted) v0, None)) as [[v0' m] Hscan];
    [rewrite !length_map; reflexivity | lia | rewrite length_map; lia |].
  unfold QF_scan; rewrite Hscan; simpl.
  destruct m as [[i wi] |]; [left; eauto | right; reflexivity].
Qed.

(** *** Where the sorted entries fall *)






Section QuantitativeRouting.
Variables (attr : string) (ents : list entity) (sorted : list (entity * value)).
Variable i : nat.
Hypothesis Hsort : sort_pairs (defined attr ents) = Ok sorted.
Hypothesis Hi : (1 <= i < List.length sorted)%nat.
Hypothesis Hcut : is_cut (map snd sorted) i.

Let arg : option value := Some (vnth (map snd sorted) i).

Lemma sorted_value (p : entity * value) :
  In p sorted -> In (fst p) ents /\ Feature_get attr (fst p) = Some (snd p).
Proof.
  intros Hin; destruct (sort_pairs_inv _ _ Hsort) as (Hperm & _ & _).
  apply (Permutation_in _ Hperm) in Hin; destruct p as [e v].
  apply defined_In; assumption.
Qed.




End QuantitativeRouting.

(** ** What every successful split satisfies *)

Lemma outside_In (ents es : list entity) (e : entity) :
  In e (outside ents es) <-> In e ents /\ ~ In e es.
Proof.
  unfold outside; rewrite filter_In, negb_true_iff, mem_false; reflexivity.
Qed.

Lemma filter_length_split {A : Type} (p : A -> bool) (l : list A) :
  (List.length (filter p l) + List.length (filter (fun x => negb (p x)) l)
   = List.length l)%nat.
Proof.
  induction l as [| x l IH]; simpl; [reflexivity |].
  destruct (p x); simpl; lia.
Qed.

Lemma set_shorter (ents es : list entity) :
  NoDup es -> incl es ents ->
  (List.length es + List.length (outside ents es) <= List.length ents)%nat.
Proof.
  intros Hnd Hincl.
  pose proof (filter_length_split (fun e => mem e es) ents) as Hsplit.
  cbv beta in Hsplit; unfold outside.
  assert (List.length es <= List.length (filter (fun e => mem e es) ents))%nat;
    [| lia].
  apply NoDup_incl_length; [assumption |].
  intros e He; apply filter_In; split; [apply Hincl; assumption | apply mem_In; assumption].
Qed.

Section SplitFacts.
Variable ord : set_order.


(** A partition is not empty, is shorter than the set that was split,
    and holds entries of that set only; there are at least two of
    them, under distinct branch values. *)
Lemma split_parts (f : feature) (ents : list entity) (w : R)
      (arg : option value) (parts : partitions) :
  split ord f ents = Ok (w, arg, parts) ->
  (2 <= List.length parts)%nat
  /\ dict_wf py_eqb parts
  /\ forall bv sub, In (bv, sub) parts ->
       sub <> [] /\ (List.length sub < List.length ents)%nat /\ incl sub ents.
Proof.
  intros Hsplit.
  assert (Hdiscrete : DF_split f ents = Ok (w, arg, parts) ->
            (2 <= List.length parts)%nat
            /\ dict_wf py_eqb parts
            /\ forall bv sub, In (bv, sub) parts ->
                 sub <> [] /\ (List.length sub < List.length ents)%nat
                 /\ incl sub ents).
  { intros H; apply DF_split_inv in H as ([Hwf Hmem Hperm] & _ & Hlen).
    split; [assumption | split; [assumption |]].
    intros bv sub Hin.
    assert (Hsub : In sub (dict_values parts))
      by (apply (in_map snd) in Hin; exact Hin).
    split; [apply (Hmem bv sub Hin) | split].
    - rewrite <- (Permutation_length Hperm).
      apply group_shorter; [unfold dict_values; rewrite length_map; assumption | |
                            assumption].
      rewrite Forall_forall; intros g Hg.
      apply in_map_iff in Hg as ([k g'] & <- & Hg); apply (Hmem k g' Hg).
    - intros e He; apply (Permutation_in _ Hperm).
      apply in_concat; exists sub; split; assumption. }
  assert (Hmember : MF_split ord f ents = Ok (w, arg, parts) ->
            (2 <= List.length parts)%nat
            /\ dict_wf py_eqb parts
            /\ forall bv sub, In (bv, sub) parts ->
                 sub <> [] /\ (List.length sub < List.length ents)%nat
                 /\ incl sub ents).
  { intros H; apply MF_split_inv in H
      as (a & es & -> & -> & Hne & Hnd & Hes & Hout & Hall).
    assert (Hincl : incl es ents) by (intros e He; apply Hes in He; apply He).
    pose proof (set_shorter ents es Hnd Hincl) as Hlen.
    assert (0 < List.length es)%nat by (destruct es; [congruence | simpl; lia]).
    assert (0 < List.length (outside ents es))%nat
      by (destruct (outside ents es); [congruence | simpl; lia]).
    split; [simpl; lia | split].
    { simpl; repeat split; try tauto. intros k' [<- | []]; reflexivity. }
    intros bv sub [[= <- <-] | [[= <- <-] | []]].
    - split; [apply iter_nonempty; assumption | split].
      + rewrite iter_length; lia.
      + intros e He; apply Hincl; rewrite <- (iter_In ord); assumption.
    - split; [assumption | split; [lia |]].
      intros e He; apply outside_In in He; apply He. }
  destruct f as [attr | attr index | attr | attr nmems | attr]; simpl in Hsplit;
    auto.
  apply QF_split_inv in Hsplit as (sorted & i & [Hs Hi Hc _ _ _ -> _]).
  destruct (sort_pairs_inv _ _ Hs) as (Hperm & _ & _).
  pose proof (defined_undefined_length attr ents) as Hlen.
  rewrite <- (Permutation_length Hperm) in Hlen.
  assert (Hes : incl (map fst sorted) ents).
  { intros e He; apply in_map_iff in He as (p & <- & Hp).
    apply (sorted_value attr ents sorted Hs p Hp). }
  split; [rewrite length_app; simpl; lia | split].
  { destruct (undefined attr ents); simpl; repeat split; try tauto;
      intros k' H; repeat (destruct H as [<- | H]; [reflexivity |]); destruct H. }
  intros bv sub Hin; simpl in Hin.
  destruct Hin as [[= <- <-] | [[= <- <-] | Hin]].
  - split; [| split].
    + intros H; apply (f_equal (@List.length entity)) in H.
      rewrite length_firstn, length_map in H; simpl in H; lia.
    + rewrite length_firstn, length_map; lia.
    + intros e He; apply Hes.
      rewrite <- (firstn_skipn i (map fst sorted)), in_app_iff; auto.
  - split; [| split].
    + intros H; apply (f_equal (@List.length entity)) in H.
      rewrite length_skipn, length_map in H; simpl in H; lia.
    + rewrite length_skipn, length_map; lia.
    + intros e He; apply Hes.
      rewrite <- (firstn_skipn i (map fst sorted)), in_app_iff; auto.
  - destruct (undefined attr ents) as [| u us] eqn:Hu; [destruct Hin |].
    destruct Hin as [[= <- <-] | []].
    split; [discriminate | split; [simpl in *; lia |]].
    intros e He; rewrite <- Hu in He; apply undefined_In in He; apply He.
Qed.
End SplitFacts.

(** ** Sample data *)

(** The order of insertion, and its reverse: two of the orders in which a
    set may be iterated. *)
Definition insertion_order : set_order :=
  mkSetOrder (fun es => es) (fun es => Permutation_refl es).

Definition reverse_order : set_order :=
  mkSetOrder (@rev entity) (fun es => Permutation_sym (Permutation_rev es)).

Definition entry (n : nat) (label type words : string) : entity :=
  mkEntity n label [("type", VStr type); ("words", VStr words)].

Definition e1 : entity := entry 1 "A" "line" "x,z".
Definition e2 : entity := entry 2 "B" "block" "x,z".
Definition e3 : entity := entry 3 "C" "block" "z".

Lemma entetp_one (e : entity) : entetp [e] = Ok 0%R.
Proof. apply calcetp_single; reflexivity. Qed.

#[local] Arguments entetp : simpl never.
#[local] Arguments calcetp : simpl never.
#[local] Arguments Rltb : simpl never.




(** ** The failures of [split] *)

(** The attribute is text or absent, which is what [v.split(',')] needs. *)
Definition is_text (attr : string) (e : entity) : bool :=
  match getitem e attr with
  | Some (VInt _) => false
  | _ => true
  end.

(** The attribute values have the types the feature works on: text for
    the features that cut it into tokens, values of one kind, which can be
    ordered, for a Quantitative feature. *)
Definition can_read (f : feature) (ents : list entity) : bool :=
  match f with
  | DF _ => true
  | DF1 attr _ | MF attr | MF1 attr _ => forallb (is_text attr) ents
  | QF attr =>
      forallb (fun p => forallb (fun q => same_kind (snd p) (snd q))
                                (defined attr ents))
              (defined attr ents)
  end.

Lemma can_read_discrete (f : feature) (ents : list entity) :
  match f with DF _ | DF1 _ _ => True | _ => False end ->
  can_read f ents = true ->
  forall e, In e ents -> exists v, discrete_get f e = Ok v.
Proof.
  destruct f as [attr | attr index | | |]; try tauto; intros _ H e He; simpl.
  - eauto.
  - simpl in H; rewrite forallb_forall in H; specialize (H e He).
    unfold DF1_get, is_text in *.
    destruct (getitem e attr) as [[s | z] |]; try discriminate; [| eauto].
    destruct (len (split_comma s) <=? Z.of_nat index); eauto.
Qed.

Lemma can_read_member (f : feature) (ents : list entity) :
  match f with MF _ | MF1 _ _ => True | _ => False end ->
  can_read f ents = true ->
  forall e, In e ents -> exists tokens, member_get f e = Ok tokens.
Proof.
  destruct f as [| | attr | attr nmems |]; try tauto; intros _ H e He;
    simpl in H; rewrite forallb_forall in H; specialize (H e He);
    simpl; unfold MF_get, MF1_get, is_text in *;
    destruct (getitem e attr) as [[s | z] |]; try discriminate; eauto.
Qed.

Lemma can_read_quantitative (attr : string) (ents : list entity) :
  can_read (QF attr) ents = true -> one_kind (defined attr ents).
Proof.
  simpl; rewrite forallb_forall; intros H p q Hp Hq.
  specialize (H p Hp); rewrite forallb_forall in H; apply H; assumption.
Qed.

Lemma split_short (ord : set_order) (f : feature) (ents : list entity) :
  len ents < 2 -> split ord f ents = Raise AssertionError.
Proof.
  intros H; destruct f; simpl; unfold DF_split, MF_split, QF_split;
    rewrite assert_len_short by assumption; reflexivity.
Qed.

Lemma split_total (ord : set_order) (f : feature) (ents : list entity) :
  2 <= len ents -> can_read f ents = true ->
  (exists r, split ord f ents = Ok r) \/ split ord f ents = Raise InvalidSplit.
Proof.
  intros Hlen Hread; destruct f as [attr | attr index | attr | attr nmems | attr];
    simpl split.
  - apply DF_split_total; [assumption | apply can_read_discrete; simpl; auto].
  - apply DF_split_total; [assumption | apply can_read_discrete; simpl; auto].
  - apply MF_split_total; [assumption | apply can_read_member; simpl; auto].
  - apply MF_split_total; [assumption | apply can_read_member; simpl; auto].
  - apply QF_split_total; [assumption | apply can_read_quantitative; assumption].
Qed.

(** C4 as stated fails: on a set of one entry [split] does not signal
    [InvalidSplit]; its first statement is [assert 2 <= len(ents)], which
    raises [AssertionError].  And a feature that cuts its attribute into
    tokens fails with [AttributeError] on an integer attribute, whatever
    the partitions that could be formed. *)
Lemma split_single_asserts :
  split insertion_order (DF "type") [e1] = Raise AssertionError
  /\ split insertion_order (MF "words") [e1] = Raise AssertionError
  /\ split insertion_order (QF "deltaLine") [] = Raise AssertionError
  /\ split insertion_order (MF "deltaLine")
           [mkEntity 1 "A" [("deltaLine", VInt 1)];
            mkEntity 2 "B" [("deltaLine", VInt 2)]] = Raise AttributeError
  /\ ~ (forall (f : feature) (ents : list entity),
          len ents < 2 -> split insertion_order f ents = Raise InvalidSplit).
Proof.
  repeat split; try reflexivity.
  intros H; specialize (H (DF "type") [e1]); simpl in H.
  assert (Hlen : len [e1] < 2) by (unfold len; simpl; lia).
  specialize (H Hlen); discriminate.
Qed.

(** C4 (failures of split), amended.  On attribute values of the types
    the feature works on: a set of fewer than 2 entries makes [split] fail
    its assertion ([AssertionError]); on a set of at least 2 entries
    [split] either returns at least 2 partitions, none of them empty, or
    signals [InvalidSplit], and fails in no other way. *)
Theorem split_failure_kinds (ord : set_order) (f : feature) (ents : list entity) :
  can_read f ents = true ->
  (len ents < 2 -> split ord f ents = Raise AssertionError)
  /\ (2 <= len ents ->
      split ord f ents = Raise InvalidSplit
      \/ exists w arg parts,
           split ord f ents = Ok (w, arg, parts)
           /\ (2 <= List.length parts)%nat
           /\ forall bv sub, In (bv, sub) parts -> sub <> []).
Proof.
  intros Hread; split; [apply split_short |].
  intros Hlen; destruct (split_total ord f ents Hlen Hread) as [[r Hr] | Hr];
    [right | left; assumption].
  destruct r as [[w arg] parts]; exists w, arg, parts.
  destruct (split_parts ord f ents w arg parts Hr) as (H2 & _ & Hsub).
  repeat split; try assumption.
  intros bv sub Hin; apply (Hsub bv sub Hin).
Qed.

Lemma split_failure_kinds_witness :
  can_read (DF1 "words" 0) [e1; e2] = true
  /\ (len [e1; e2] < 2 ->
      split insertion_order (DF1 "words" 0) [e1; e2] = Raise AssertionError)
  /\ (2 <= len [e1; e2] ->
      split insertion_order (DF1 "words" 0) [e1; e2] = Raise InvalidSplit
      \/ exists w arg parts,
           split insertion_order (DF1 "words" 0) [e1; e2] = Ok (w, arg, parts)
           /\ (2 <= List.length parts)%nat
           /\ forall bv sub, In (bv, sub) parts -> sub <> []).
Proof.
  split; [reflexivity |].
  apply (split_failure_kinds insertion_order (DF1 "words" 0) [e1; e2]).
  reflexivity.
Defined.

(** ** The choice of the feature *)

Section Choice.
Variables (ord : set_order) (ents : list entity).

(** The feature [g] does not beat the weighted entropy [w]: it cannot
    split, or its weighted entropy stands in relation [cmp] to [w]. *)
Definition not_better (cmp : R -> R -> Prop) (w : R) (g : feature) : Prop :=
  split ord g ents = Raise InvalidSplit
  \/ exists w' arg' sp', split ord g ents = Ok (w', arg', sp') /\ cmp w w'.

(** The state of the loop of [build] after the features [done]: nothing
    while no feature could split; otherwise the earliest feature of
    least weighted entropy. *)
Definition chosen (done : list feature)
           (st : option ((feature * option value * partitions) * R)) : Prop :=
  match st with
  | None => forall g, In g done -> split ord g ents = Raise InvalidSplit
  | Some ((f, arg, sp), w) =>
      split ord f ents = Ok (w, arg, sp)
      /\ exists l1 l2, done = l1 ++ f :: l2
                       /\ (forall g, In g l1 -> not_better Rlt w g)
                       /\ (forall g, In g l2 -> not_better Rle w g)
  end.

Definition choose_step (st : option ((feature * option value * partitions) * R))
           (feat : feature)
  : result (option ((feature * option value * partitions) * R)) :=
  match split ord feat ents with
  | Raise InvalidSplit => Ok st
  | Raise x => Raise x
  | Ok (etp, arg, sp) => Ok (keep_min st (feat, arg, sp) etp)
  end.

Lemma chosen_step (done : list feature) (g : feature)
      (st st' : option ((feature * option value * partitions) * R)) :
  chosen done st -> choose_step st g = Ok st' -> chosen (done ++ [g]) st'.
Proof.
  unfold choose_step; intros Hst Hstep.
  destruct (split ord g ents) as [[[w' arg'] sp'] | x] eqn:Hg.
  - injection Hstep as <-.
    destruct st as [[[[f arg] sp] w] |]; simpl.
    + destruct Hst as (Hf & l1 & l2 & -> & H1 & H2).
      destruct (Rltb w' w) eqn:Hcmp.
      * apply Rltb_spec in Hcmp; split; [assumption |].
        exists (l1 ++ f :: l2), []; repeat split; [| intros ? []].
        intros h Hh; apply in_app_iff in Hh as [Hh | [<- | Hh]].
        -- destruct (H1 h Hh) as [Hinv | (w1 & a1 & s1 & Hs & Hlt)];
             [left; assumption | right; exists w1, a1, s1; split; [assumption | lra]].
        -- right; exists w, arg, sp; split; assumption.
        -- destruct (H2 h Hh) as [Hinv | (w1 & a1 & s1 & Hs & Hle)];
             [left; assumption | right; exists w1, a1, s1; split; [assumption | lra]].
      * assert (Hge : (w <= w')%R).
        { destruct (Rlt_dec w' w) as [Hlt |]; [| lra].
          apply Rltb_true in Hlt; congruence. }
        split; [assumption |].
        exists l1, (l2 ++ [g]); repeat split;
          [rewrite <- app_assoc; reflexivity | assumption |].
        intros h Hh; apply in_app_iff in Hh as [Hh | [<- | []]];
          [apply H2; assumption |].
        right; exists w', arg', sp'; split; assumption.
    + split; [assumption |].
      exists done, []; repeat split; [| intros ? []].
      intros h Hh; left; apply Hst; assumption.
  - destruct x; try discriminate; injection Hstep as <-.
    destruct st as [[[[f arg] sp] w] |]; simpl.
    + destruct Hst as (Hf & l1 & l2 & -> & H1 & H2); split; [assumption |].
      exists l1, (l2 ++ [g]); repeat split;
        [rewrite <- app_assoc; reflexivity | assumption |].
      intros h Hh; apply in_app_iff in Hh as [Hh | [<- | []]];
        [apply H2; assumption | left; assumption].
    + intros h Hh; apply in_app_iff in Hh as [Hh | [<- | []]];
        [apply Hst; assumption | assumption].
Qed.

Lemma chosen_loop (l : list feature)
      (st : option ((feature * option value * partitions) * R)) :
  foldM choose_step l None = Ok st -> chosen l st.
Proof.
  revert st; induction l as [| g l IH] using rev_ind; intros st.
  - intros [= <-]; intros g [].
  - rewrite foldM_app; intros H; apply bind_ok in H as (st0 & H0 & H1).
    simpl in H1; apply bind_ok in H1 as (st1 & H1 & [= <-]).
    apply (chosen_step l g st0); [apply IH; assumption | assumption].
Qed.

Lemma choose_chosen (b : TreeBuilder)
      (st : option ((feature * option value * partitions) * R)) :
  choose ord b ents = Ok st -> chosen (dict_values (features b)) st.
Proof. apply chosen_loop. Qed.

End Choice.

(** ** Termination of [build] *)

Section Building.
Variables (ord : set_order) (b : TreeBuilder).

Lemma build_children_ext (rec1 rec2 : list entity -> option (result (option tree)))
      (sp : partitions) (children : dict bval tree) :
  (forall bv sub, In (bv, sub) sp -> rec1 sub = rec2 sub) ->
  build_children rec1 sp children = build_children rec2 sp children.
Proof.
  revert children; induction sp as [| [v es] sp IH]; intros children H; simpl;
    [reflexivity |].
  unfold build_child; rewrite (H v es) by (left; reflexivity).
  destruct (rec2 es) as [[[t |] | x] |]; try reflexivity.
  - apply IH; intros; eapply H; right; eassumption.
  - destruct (bestkey (countkeys es)); simpl; [| reflexivity].
    apply IH; intros; eapply H; right; eassumption.
Qed.

Lemma build_children_some (rec : list entity -> option (result (option tree)))
      (sp : partitions) (children : dict bval tree) :
  (forall bv sub, In (bv, sub) sp -> rec sub <> None) ->
  build_children rec sp children <> None.
Proof.
  revert children; induction sp as [| [v es] sp IH]; intros children H; simpl;
    [discriminate |].
  unfold build_child.
  pose proof (H v es (or_introl eq_refl)) as Hes.
  assert (Hrest : forall bv sub, In (bv, sub) sp -> rec sub <> None)
    by (intros; eapply H; right; eassumption).
  destruct (rec es) as [[[t |] | x] |]; try congruence; try discriminate.
  - apply IH; assumption.
  - destruct (bestkey (countkeys es)); simpl; [apply IH; assumption | discriminate].
Qed.

(** The recursive calls of the body are on shorter sets only. *)
Lemma build_body_ext (rec1 rec2 : list entity -> option (result (option tree)))
      (ents : list entity) :
  (forall sub, (List.length sub < List.length ents)%nat -> rec1 sub = rec2 sub) ->
  build_body ord b rec1 ents = build_body ord b rec2 ents.
Proof.
  intros H; unfold build_body.
  destruct (calcetp (dict_values (countkeys ents))) as [etp |]; [| reflexivity].
  destruct (Rltb etp (minetp b)); [reflexivity |].
  destruct (len ents <? minkeys b); [reflexivity |].
  destruct (choose ord b ents) as [[[[[f arg] sp] w] |] |] eqn:Hc; try reflexivity.
  destruct (bestkey (countkeys ents)); [| reflexivity].
  apply choose_chosen in Hc as [Hf _].
  destruct (split_parts ord f ents w arg sp Hf) as (_ & _ & Hsub).
  rewrite (build_children_ext rec1 rec2); [reflexivity |].
  intros bv sub Hin; apply H, (Hsub bv sub Hin).
Qed.

Lemma build_body_some (rec : list entity -> option (result (option tree)))
      (ents : list entity) :
  (forall sub, (List.length sub < List.length ents)%nat -> rec sub <> None) ->
  build_body ord b rec ents <> None.
Proof.
  intros H; unfold build_body.
  destruct (calcetp (dict_values (countkeys ents))) as [etp |]; [| discriminate].
  destruct (Rltb etp (minetp b)); [discriminate |].
  destruct (len ents <? minkeys b); [discriminate |].
  destruct (choose ord b ents) as [[[[[f arg] sp] w] |] |] eqn:Hc; try discriminate.
  destruct (bestkey (countkeys ents)); [| discriminate].
  apply choose_chosen in Hc as [Hf _].
  destruct (split_parts ord f ents w arg sp Hf) as (_ & _ & Hsub).
  pose proof (build_children_some rec sp []) as Hch.
  destruct (build_children rec sp []) as [[children |] |]; try discriminate.
  exfalso; apply Hch; [| reflexivity].
  intros bv sub Hin; apply H, (Hsub bv sub Hin).
Qed.

Lemma build_fuel_some (fuel : nat) (ents : list entity) :
  (List.length ents < fuel)%nat -> build_fuel ord b fuel ents <> None.
Proof.
  revert ents; induction fuel as [| fuel IH]; intros ents Hlen; [lia |].
  simpl; apply build_body_some; intros sub Hsub; apply IH; lia.
Qed.

Lemma build_fuel_stable (n m : nat) (ents : list entity) :
  (List.length ents < n)%nat -> (List.length ents < m)%nat ->
  build_fuel ord b n ents = build_fuel ord b m ents.
Proof.
  revert m ents; induction n as [| n IH]; intros [| m] ents Hn Hm; try lia.
  simpl; apply build_body_ext; intros sub Hsub; apply IH; lia.
Qed.

Lemma build_fuel_enough (fuel : nat) (ents : list entity) :
  (List.length ents < fuel)%nat ->
  build_fuel ord b fuel ents = Some (build ord b ents).
Proof.
  intros Hlen; unfold build.
  rewrite (build_fuel_stable fuel (S (List.length ents))) by lia.
  pose proof (build_fuel_some (S (List.length ents)) ents) as Hsome.
  destruct (build_fuel ord b (S (List.length ents)) ents); [reflexivity |].
  exfalso; apply Hsome; [lia | reflexivity].
Qed.

(** [build] satisfies the equation of its body. *)
Lemma build_unfold (ents : list entity) :
  Some (build ord b ents)
  = build_body ord b (fun sub => Some (build ord b sub)) ents.
Proof.
  rewrite <- (build_fuel_enough (S (List.length ents))) by lia; simpl.
  apply build_body_ext; intros sub Hsub; apply build_fuel_enough; assumption.
Qed.
End Building.


(** ** The result of [build] *)

Fixpoint keys_distinct {K : Type} (eqb : K -> K -> bool) (ks : list K) : Prop :=
  match ks with
  | [] => True
  | k :: ks' => (forall k', In k' ks' -> eqb k k' = false) /\ keys_distinct eqb ks'
  end.

Lemma dict_wf_distinct {K V : Type} (eqb : K -> K -> bool) (d : dict K V) :
  dict_wf eqb d <-> keys_distinct eqb (dict_keys d).
Proof.
  induction d as [| [k v] d IH]; simpl; [tauto |].
  rewrite IH; reflexivity.
Qed.

Lemma keys_distinct_app {K : Type} (eqb : K -> K -> bool) (l1 l2 : list K) :
  keys_distinct eqb (l1 ++ l2) ->
  keys_distinct eqb l2 /\ forall k1 k2, In k1 l1 -> In k2 l2 -> eqb k1 k2 = false.
Proof.
  induction l1 as [| k l1 IH]; simpl; [intros H; split; [assumption | intros ? ? []] |].
  intros [H1 H2]; destruct (IH H2) as [H3 H4]; split; [assumption |].
  intros k1 k2 [<- | Hk1] Hk2; [apply H1; rewrite in_app_iff; auto | apply H4; assumption].
Qed.

Lemma bestkey_max (d : dict string Z) (k : string) :
  bestkey d = Ok k ->
  exists c, In (k, c) d /\ forall k' c', In (k', c') d -> c' <= c.
Proof.
  unfold bestkey.
  set (step := fun (st : option string * Z) (kv : string * Z) =>
                 let '(maxkey, maxv) := st in
                 let '(k, v) := kv in
                 match maxkey with
                 | None => (Some k, v)
                 | Some _ => if maxv <? v then (Some k, v) else st
                 end).
  assert (H : forall l done st,
             (match fst st with
              | None => done = []
              | Some k0 => In (k0, snd st) done
                           /\ forall k' c', In (k', c') done -> c' <= snd st
              end) ->
             match fst (fold_left step l st) with
             | None => done ++ l = []
             | Some k0 => In (k0, snd (fold_left step l st)) (done ++ l)
                          /\ forall k' c', In (k', c') (done ++ l) ->
                                           c' <= snd (fold_left step l st)
             end).
  { induction l as [| [k1 v1] l IH]; intros done st Hst; simpl.
    - rewrite app_nil_r; assumption.
    - replace (done ++ (k1, v1) :: l) with ((done ++ [(k1, v1)]) ++ l)
        by (rewrite <- app_assoc; reflexivity).
      apply IH; destruct st as [[k0 |] v0]; simpl in *.
      + destruct Hst as [Hin Hmax].
        destruct (Z.ltb_spec v0 v1); simpl.
        * split; [rewrite in_app_iff; simpl; auto |].
          intros k' c' Hc; apply in_app_iff in Hc as [Hc | [[= <- <-] | []]];
            [specialize (Hmax _ _ Hc); lia | lia].
        * split; [rewrite in_app_iff; auto |].
          intros k' c' Hc; apply in_app_iff in Hc as [Hc | [[= <- <-] | []]];
            [apply (Hmax _ _ Hc) | lia].
      + subst done; simpl; split; [auto |].
        intros k' c' [[= <- <-] | []]; lia. }
  specialize (H d [] (None, 0) eq_refl); simpl in H.
  destruct (fold_left step d (None, 0)) as [[k0 |] v0]; simpl in H;
    [| discriminate].
  intros [= <-]; exists v0; exact H.
Qed.

Section BuildResult.
Variables (ord : set_order) (b : TreeBuilder).

(** The child made for one partition: the branch that the recursive
    call returned, or a leaf with the majority label of the partition
    when the call returned no tree. *)
Definition child_of (p : bval * list entity) (c : bval * tree) : Prop :=
  fst c = fst p
  /\ (build ord b (snd p) = Ok (Some (snd c))
      \/ (build ord b (snd p) = Ok None
          /\ exists best, bestkey (countkeys (snd p)) = Ok best
                          /\ snd c = TreeLeaf best)).

Lemma build_children_inv (sp : partitions) (acc children : dict bval tree) :
  keys_distinct py_eqb (dict_keys acc ++ dict_keys sp) ->
  build_children (fun sub => Some (build ord b sub)) sp acc = Some (Ok children) ->
  exists new, children = acc ++ new /\ Forall2 child_of sp new.
Proof.
  revert acc; induction sp as [| [v es] sp IH]; intros acc Hk; simpl.
  - intros [= <-]; exists []; split; [rewrite app_nil_r; reflexivity | constructor].
  - destruct (keys_distinct_app _ _ _ Hk) as [_ Hfresh].
    assert (Hget : dict_get py_eqb acc v = None).
    { apply dict_get_none; intros k' Hk'; apply Hfresh; [assumption | left; reflexivity]. }
    assert (Hk' : forall t, keys_distinct py_eqb
                              (dict_keys (dict_set py_eqb acc v t) ++ dict_keys sp)).
    { intros t; rewrite dict_set_absent by assumption.
      unfold dict_keys in *; rewrite map_app, <- app_assoc; exact Hk. }
    unfold build_child.
    destruct (build ord b es) as [[t |] | x] eqn:Hes; try discriminate.
    + intros H; destruct (IH _ (Hk' t) H) as (new & -> & Hnew).
      rewrite dict_set_absent by assumption.
      exists ((v, t) :: new); split; [rewrite <- app_assoc; reflexivity |].
      constructor; [| assumption].
      split; [reflexivity | left; assumption].
    + destruct (bestkey (countkeys es)) as [best |] eqn:Hbest; simpl;
        [| discriminate].
      intros H; destruct (IH _ (Hk' (TreeLeaf best)) H) as (new & -> & Hnew).
      rewrite dict_set_absent by assumption.
      exists ((v, TreeLeaf best) :: new); split; [rewrite <- app_assoc; reflexivity |].
      constructor; [| assumption].
      split; [reflexivity | right; split; [assumption | eauto]].
Qed.

Lemma build_inv (ents : list entity) (r : option tree) :
  build ord b ents = Ok r ->
  exists etp,
    calcetp (dict_values (countkeys ents)) = Ok etp
    /\ match r with
       | None =>
           (etp < minetp b)%R \/ len ents < minkeys b
           \/ forall f, In f (dict_values (features b)) ->
                        split ord f ents = Raise InvalidSplit
       | Some t =>
           ~ (etp < minetp b)%R /\ ~ len ents < minkeys b
           /\ exists f arg w sp default children,
               t = TreeBranch f arg default children
               /\ chosen ord ents (dict_values (features b)) (Some ((f, arg, sp), w))
               /\ bestkey (countkeys ents) = Ok default
               /\ Forall2 child_of sp children
       end.
Proof.
  intros Hb; pose proof (build_unfold ord b ents) as Hu; rewrite Hb in Hu.
  unfold build_body in Hu.
  destruct (calcetp (dict_values (countkeys ents))) as [etp |]; [| discriminate].
  exists etp; split; [reflexivity |].
  destruct (Rltb etp (minetp b)) eqn:Hetp.
  { injection Hu as ->; left; apply Rltb_spec; assumption. }
  assert (Hnlt : ~ (etp < minetp b)%R)
    by (intros Hlt; apply Rltb_true in Hlt; congruence).
  destruct (Z.ltb_spec (len ents) (minkeys b)) as [Hlen | Hlen].
  { injection Hu as ->; auto. }
  destruct (choose ord b ents) as [[[[[f arg] sp] w] |] |] eqn:Hc; try discriminate.
  - destruct (bestkey (countkeys ents)) as [default |] eqn:Hbest; [| discriminate].
    destruct (build_children _ sp []) as [[children |] |] eqn:Hch; try discriminate.
    injection Hu as ->; split; [assumption | split; [lia |]].
    pose proof (choose_chosen _ _ _ _ Hc) as Hchosen.
    destruct (split_parts ord f ents w arg sp (proj1 Hchosen)) as (_ & Hwf & _).
    destruct (build_children_inv sp [] children) as (new & -> & Hnew);
      [simpl; apply dict_wf_distinct; assumption | assumption |].
    exists f, arg, w, sp, default, new; simpl; auto.
  - injection Hu as ->; right; right.
    apply (choose_chosen _ _ _ _ Hc).
Qed.
End BuildResult.

(** ** [build] on sample sets *)

Lemma build_eq (ord : set_order) (b : TreeBuilder) (ents : list entity)
      (r : result (option tree)) :
  build_body ord b (fun sub => Some (build ord b sub)) ents = Some r ->
  build ord b ents = r.
Proof. rewrite <- build_unfold; congruence. Qed.

Lemma etp_not_below_zero (ents : list entity) (etp : R) :
  calcetp (dict_values (countkeys ents)) = Ok etp -> Rltb etp 0 = false.
Proof.
  intros H; apply Rltb_false.
  destruct ents as [| e l]; [discriminate |].
  rewrite calcetp_ok in H
    by (first [apply countkeys_nonempty; discriminate | apply countkeys_pos]).
  injection H as <-.
  apply entropy_spec_nonneg; [apply countkeys_nonempty; discriminate | apply countkeys_pos].
Qed.

(** A builder with one Membership feature, no entropy threshold and a
    count threshold of 3. *)
Definition words_builder : TreeBuilder :=
  addfeat (mkTreeBuilder [] 3 0%R) (MF "words").

Lemma build_small (ord : set_order) (ents : list entity) :
  ents <> [] -> len ents < 3 -> build ord words_builder ents = Ok None.
Proof.
  intros Hne Hlen; apply build_eq; unfold build_body.
  destruct (entetp_total ents Hne) as [etp Hetp]; unfold entetp in Hetp.
  change (minetp words_builder) with 0%R; change (minkeys words_builder) with 3.
  rewrite Hetp, (etp_not_below_zero ents etp Hetp).
  destruct (Z.ltb_spec (len ents) 3); [reflexivity | lia].
Qed.

Lemma index_words :
  MF_index (MF "words") [e1; e2; e3] = Ok [("x", [e1; e2]); ("z", [e1; e2; e3])].
Proof. vm_compute; reflexivity. Qed.

Lemma choose_words (ord : set_order) :
  exists w, choose ord words_builder [e1; e2; e3]
            = Ok (Some ((MF "words", Some (VStr "x"),
                         [(BBool true, iter ord [e1; e2]); (BBool false, [e3])]), w)).
Proof.
  unfold choose; change (dict_values (features words_builder)) with [MF "words"].
  cbn [foldM]; unfold split, MF_split.
  rewrite index_words.
  change (assert (2 <=? len [e1; e2; e3])) with (Ok tt).
  cbn [bind]; change (len [("x", [e1; e2]); ("z", [e1; e2; e3])] <? 2) with false.
  cbv iota; unfold MF_scan; cbn [foldM]; unfold MF_try.
  change (outside [e1; e2; e3] [e1; e2]) with [e3].
  change (outside [e1; e2; e3] [e1; e2; e3]) with (@nil entity).
  cbv iota; unfold set_entetp.
  destruct (entetp_total (iter ord [e1; e2])) as [h ->];
    [apply iter_nonempty; discriminate |].
  rewrite entetp_one; cbn [bind].
  change (float_div ?x (len [e1; e2; e3])) with (Ok (x / IZR 3)%R).
  cbn [bind keep_min].
  change (dict_item String.eqb [("x", [e1; e2]); ("z", [e1; e2; e3])] "x")
    with (Ok [e1; e2]).
  cbn [bind]; eexists; reflexivity.
Qed.

(** The tree built from the three sample entries: the label of the leaf
    under [True] is the majority label of the set [{e1, e2}] as the set
    happens to be listed. *)
Lemma build_words (ord : set_order) :
  exists best,
    bestkey (countkeys (iter ord [e1; e2])) = Ok best
    /\ build ord words_builder [e1; e2; e3]
       = Ok (Some (TreeBranch (MF "words") (Some (VStr "x")) "A"
                     [(BBool true, TreeLeaf best); (BBool false, TreeLeaf "C")])).
Proof.
  destruct (bestkey_ok (countkeys (iter ord [e1; e2]))) as [best Hbest].
  { intros H; apply (countkeys_nonempty (iter ord [e1; e2]));
      [apply iter_nonempty; discriminate | rewrite H; reflexivity]. }
  exists best; split; [assumption |].
  apply build_eq; unfold build_body.
  destruct (entetp_total [e1; e2; e3]) as [etp Hetp]; [discriminate |].
  unfold entetp in Hetp.
  change (minetp words_builder) with 0%R; change (minkeys words_builder) with 3.
  rewrite Hetp, (etp_not_below_zero _ etp Hetp).
  change (len [e1; e2; e3] <? 3) with false; cbv iota.
  destruct (choose_words ord) as [w ->].
  change (bestkey (countkeys [e1; e2; e3])) with (@Ok string "A").
  cbn [build_children]; unfold build_child.
  rewrite (build_small ord (iter ord [e1; e2]));
    [| apply iter_nonempty; discriminate
     | unfold len; rewrite iter_length; simpl; lia].
  rewrite Hbest; cbn [bind].
  rewrite (build_small ord [e3]); [| discriminate | unfold len; simpl; lia].
  reflexivity.
Qed.

Definition words_tree (best : string) : tree :=
  TreeBranch (MF "words") (Some (VStr "x")) "A"
             [(BBool true, TreeLeaf best); (BBool false, TreeLeaf "C")].

Lemma build_words_insertion :
  build insertion_order words_builder [e1; e2; e3] = Ok (Some (words_tree "A")).
Proof.
  destruct (build_words insertion_order) as (best & Hbest & ->).
  injection Hbest as <-; reflexivity.
Qed.

Lemma build_words_reverse :
  build reverse_order words_builder [e1; e2; e3] = Ok (Some (words_tree "B")).
Proof.
  destruct (build_words reverse_order) as (best & Hbest & ->).
  injection Hbest as <-; reflexivity.
Qed.

(** A builder with one Discrete feature and both thresholds at their
    lowest: no entropy threshold and a count threshold of 1. *)
Definition type_builder : TreeBuilder :=
  addfeat (mkTreeBuilder [] 1 0%R) (DF "type").

Lemma build_type_single :
  build insertion_order type_builder [e1] = Raise AssertionError.
Proof.
  apply build_eq; unfold build_body.
  change (dict_values (countkeys [e1])) with [1].
  rewrite calcetp_single by lia.
  change (minetp type_builder) with 0%R; rewrite Rltb_false by lra.
  reflexivity.
Qed.

(** ** When [build] returns *)

Lemma defined_incl (attr : string) (sub ents : list entity) :
  incl sub ents -> incl (defined attr sub) (defined attr ents).
Proof.
  intros Hincl [e v] Hin; apply defined_In in Hin as [Hin Hv].
  apply defined_In; split; [apply Hincl; assumption | assumption].
Qed.

Lemma can_read_incl (f : feature) (sub ents : list entity) :
  incl sub ents -> can_read f ents = true -> can_read f sub = true.
Proof.
  intros Hincl; destruct f as [attr | attr index | attr | attr nmems | attr];
    simpl; try reflexivity;
    try (rewrite !forallb_forall; intros H e He; apply H, Hincl; assumption).
  rewrite !forallb_forall; intros H p Hp.
  pose proof (H p (defined_incl attr sub ents Hincl p Hp)) as Hq.
  rewrite forallb_forall in Hq |- *; intros q Hq'.
  apply Hq, (defined_incl attr sub ents Hincl q Hq').
Qed.

Lemma choose_total (ord : set_order) (b : TreeBuilder) (ents : list entity) :
  (forall f, In f (dict_values (features b)) ->
             (exists r, split ord f ents = Ok r)
             \/ split ord f ents = Raise InvalidSplit) ->
  exists st, choose ord b ents = Ok st.
Proof.
  unfold choose; generalize (dict_values (features b)).
  generalize (@None ((feature * option value * partitions) * R)).
  intros st l; revert st; induction l as [| f l IH]; intros st H; simpl; [eauto |].
  destruct (H f (or_introl eq_refl)) as [[[[w arg] sp] ->] | ->]; simpl;
    apply IH; intros; apply H; right; assumption.
Qed.

Lemma build_children_total (ord : set_order) (b : TreeBuilder)
      (sp : partitions) (acc : dict bval tree) :
  (forall bv sub, In (bv, sub) sp ->
                  sub <> [] /\ exists r, build ord b sub = Ok r) ->
  exists children,
    build_children (fun sub => Some (build ord b sub)) sp acc = Some (Ok children).
Proof.
  revert acc; induction sp as [| [v es] sp IH]; intros acc H; simpl; [eauto |].
  destruct (H v es (or_introl eq_refl)) as [Hne [r Hr]].
  unfold build_child; rewrite Hr.
  assert (Hrest : forall bv sub, In (bv, sub) sp ->
                                 sub <> [] /\ exists r, build ord b sub = Ok r)
    by (intros; eapply H; right; eassumption).
  destruct r as [t |]; [apply IH; assumption |].
  destruct (bestkey_ok (countkeys es)) as [best ->]; [| simpl; apply IH; assumption].
  intros Hnil; apply (countkeys_nonempty es Hne); rewrite Hnil; reflexivity.
Qed.

Lemma entropy_of_one (e : entity) (etp : R) :
  calcetp (dict_values (countkeys [e])) = Ok etp -> etp = 0%R.
Proof.
  change (dict_values (countkeys [e])) with [1].
  rewrite calcetp_single by lia; congruence.
Qed.

(** With a positive entropy threshold, as in [main], [build] returns on
    every non-empty set whose attribute values the registered features
    can read: a set of one entry stops at the entropy test, so no
    [split] is asked to split fewer than 2 entries. *)
Lemma build_total (ord : set_order) (b : TreeBuilder) (n : nat) :
  (0 < minetp b)%R ->
  forall ents, (List.length ents < n)%nat -> ents <> [] ->
               (forall f, In f (dict_values (features b)) -> can_read f ents = true) ->
               exists r, build ord b ents = Ok r.
Proof.
  intros Hmin; induction n as [| n IH]; intros ents Hlen Hne Hread; [lia |].
  assert (Hbody : exists r, build_body ord b (fun sub => Some (build ord b sub)) ents
                            = Some (Ok r)).
  { unfold build_body.
    destruct (entetp_total ents Hne) as [etp Hetp]; unfold entetp in Hetp.
    rewrite Hetp.
    destruct (Rltb etp (minetp b)) eqn:Hcmp; [eauto |].
    destruct (len ents <? minkeys b); [eauto |].
    assert (Hlen2 : 2 <= len ents).
    { destruct ents as [| e1 [| e2 l]]; [congruence | | unfold len; simpl; lia].
      apply entropy_of_one in Hetp; subst etp.
      rewrite Rltb_true in Hcmp by assumption; discriminate. }
    destruct (choose_total ord b ents) as [st Hst].
    { intros f Hf; apply split_total; [assumption | apply Hread; assumption]. }
    rewrite Hst; destruct st as [[[[f arg] sp] w] |]; [| eauto].
    destruct (bestkey_ok (countkeys ents)) as [default ->].
    { intros Hnil; apply (countkeys_nonempty ents Hne); rewrite Hnil; reflexivity. }
    apply choose_chosen in Hst as [Hf _].
    destruct (split_parts ord f ents w arg sp Hf) as (_ & _ & Hsub).
    destruct (build_children_total ord b sp []) as [children ->]; [| eauto].
    intros bv sub Hin; destruct (Hsub bv sub Hin) as (H1 & H2 & H3).
    split; [assumption |].
    apply IH; [lia | assumption |].
    intros g Hg; apply (can_read_incl g sub ents H3), Hread; assumption. }
  destruct Hbody as [r Hr]; exists r; apply build_eq; assumption.
Qed.

(** ** The majority label *)

(** The number of entries of [ents] with the label [k]. *)
Definition count_label (k : string) (ents : list entity) : Z :=
  len (filter (fun e => String.eqb (key e) k) ents).

Lemma count_step_incr (d : dict string Z) (e : entity) :
  count_step d e = incr d (key e).
Proof.
  unfold count_step, incr; destruct (dict_get String.eqb d (key e)); reflexivity.
Qed.

Lemma countkeys_counts_from (ents : list entity) (d : dict string Z) (k : string) :
  lookup0 (fold_left count_step ents d) k = lookup0 d k + count_label k ents.
Proof.
  revert d; induction ents as [| e l IH]; intros d; simpl.
  - unfold count_label, len; simpl; lia.
  - rewrite IH, count_step_incr, lookup0_incr.
    unfold count_label, len; simpl.
    destruct (String.eqb (key e) k); simpl List.length; lia.
Qed.

Lemma countkeys_counts (ents : list entity) (k : string) :
  lookup0 (countkeys ents) k = count_label k ents.
Proof. unfold countkeys; rewrite countkeys_counts_from; reflexivity. Qed.

Lemma countkeys_wf (ents : list entity) : dict_wf String.eqb (countkeys ents).
Proof.
  unfold countkeys.
  assert (H : forall l d, dict_wf String.eqb d ->
                          dict_wf String.eqb (fold_left count_step l d)).
  { induction l as [| e l IH]; intros d Hd; simpl; [assumption |].
    apply IH; rewrite count_step_incr; apply dict_set_wf; assumption. }
  apply H; exact I.
Qed.

(** The label that [bestkey] takes from the label counts of a set is a
    label of the set, and no label has more entries. *)
Lemma bestkey_majority (ents : list entity) (k : string) :
  bestkey (countkeys ents) = Ok k ->
  0 < count_label k ents
  /\ forall k', count_label k' ents <= count_label k ents.
Proof.
  intros H; apply bestkey_max in H as (c & Hin & Hmax).
  pose proof (dict_in_get _ _ _ (countkeys_wf ents) Hin) as Hget.
  assert (Hc : count_label k ents = c)
    by (rewrite <- countkeys_counts; unfold lookup0; rewrite Hget; reflexivity).
  assert (Hpos : 0 < c).
  { pose proof (countkeys_pos ents) as Hall; rewrite Forall_forall in Hall.
    apply Hall; apply (in_map snd) in Hin; exact Hin. }
  rewrite Hc; split; [assumption |].
  intros k'; rewrite <- countkeys_counts; unfold lookup0.
  destruct (dict_get String.eqb (countkeys ents) k') as [c' |] eqn:E; [| lia].
  apply dict_get_in_str in E; apply (Hmax k' c' E).
Qed.

(** What [build] returns.  Whenever [build] returns, it returns
    null exactly when the entropy of the label counts is below the
    entropy threshold, or the number of entries is below the count
    threshold, or every registered feature signals [InvalidSplit];
    otherwise it returns a branch made from a registered feature and its
    split, whose default is the majority label of the set, and whose
    children follow the partitions in order: under each branch value the
    branch that the recursive [build] returned, or, when that call
    returned null, a leaf with the majority label of the partition.  The
    majority label is what [bestkey] takes from the label counts: a label
    of the set such that no label has more entries. *)
Lemma build_returns (ord : set_order) (b : TreeBuilder) (ents : list entity)
        (r : option tree) :
  build ord b ents = Ok r ->
  (exists etp,
     calcetp (dict_values (countkeys ents)) = Ok etp
     /\ (r = None <->
         ((etp < minetp b)%R \/ len ents < minkeys b
          \/ forall f, In f (dict_values (features b)) ->
                       split ord f ents = Raise InvalidSplit))
     /\ (forall t, r = Some t ->
           exists f arg w sp default children,
             t = TreeBranch f arg default children
             /\ In f (dict_values (features b))
             /\ split ord f ents = Ok (w, arg, sp)
             /\ bestkey (countkeys ents) = Ok default
             /\ Forall2 (child_of ord b) sp children))
  /\ (forall es best,
        bestkey (countkeys es) = Ok best ->
        0 < count_label best es
        /\ forall k', count_label k' es <= count_label best es).
Proof.
  intros Hb; split; [| apply bestkey_majority].
  destruct (build_inv ord b ents r Hb) as (etp & Hetp & Hr).
  exists etp; split; [assumption |].
  destruct r as [t |].
  - destruct Hr as (Hn1 & Hn2 & f & arg & w & sp & default & children
                    & -> & (Hf & l1 & l2 & Hl & _) & Hbest & Hch).
    assert (Hin : In f (dict_values (features b)))
      by (rewrite Hl, in_app_iff; simpl; auto).
    split.
    + split; [discriminate |].
      intros [H | [H | H]]; [contradiction | contradiction |].
      rewrite (H f Hin) in Hf; discriminate.
    + intros t [= <-]; exists f, arg, w, sp, default, children.
      repeat split; assumption.
  - split; [split; [intros _; assumption | reflexivity] | discriminate].
Qed.

Example build_returns_words :
  build insertion_order words_builder [e1; e2; e3] = Ok (Some (words_tree "A"))
  /\ (exists etp,
        calcetp (dict_values (countkeys [e1; e2; e3])) = Ok etp
        /\ (Some (words_tree "A") = None <->
            ((etp < minetp words_builder)%R
             \/ len [e1; e2; e3] < minkeys words_builder
             \/ forall f, In f (dict_values (features words_builder)) ->
                          split insertion_order f [e1; e2; e3] = Raise InvalidSplit))
        /\ (forall t, Some (words_tree "A") = Some t ->
              exists f arg w sp default children,
                t = TreeBranch f arg default children
                /\ In f (dict_values (features words_builder))
                /\ split insertion_order f [e1; e2; e3] = Ok (w, arg, sp)
                /\ bestkey (countkeys [e1; e2; e3]) = Ok default
                /\ Forall2 (child_of insertion_order words_builder) sp children))
  /\ (forall es best,
        bestkey (countkeys es) = Ok best ->
        0 < count_label best es
        /\ forall k', count_label k' es <= count_label best es).
Proof.
  split; [exact build_words_insertion |].
  apply (build_returns insertion_order words_builder [e1; e2; e3]
                       (Some (words_tree "A"))).
  exact build_words_insertion.
Defined.


Lemma score_lines_witness :
  (forall e, In e [e1; e2] -> exists k, test (TreeLeaf "A") e = Ok k)
  /\ exists ls totals,
       score (TreeLeaf "A") [e1; e2] = Ok (ls, totals)
       /\ (forall k, In k (map line_label ls)
                     <-> exists e, In e [e1; e2] /\ key e = k
                                   /\ test (TreeLeaf "A") e = Ok k)
       /\ Forall (fun ln =>
                    1 <= line_correct ln
                    /\ 1 <= line_resp ln
                    /\ 1 <= line_keys ln
                    /\ line_prec ln = (IZR (line_correct ln) / IZR (line_resp ln))%R
                    /\ line_recl ln = (IZR (line_correct ln) / IZR (line_keys ln))%R)
                 ls.
Proof.
  assert (H : forall e, In e [e1; e2] -> exists k, test (TreeLeaf "A") e = Ok k)
    by (intros e _; exists "A"; reflexivity).
  split; [exact H |].
  apply (score_lines (TreeLeaf "A") [e1; e2] H).
Defined.

(** ** Export and import *)

(** The registry as [addfeat] leaves it: every feature is filed under its
    own name, and no name twice. *)
Definition registry_ok (b : TreeBuilder) : Prop :=
  dict_wf String.eqb (features b)
  /\ forall n f, In (n, f) (features b) -> name f = n.









(** [import_tree] on a tuple, with the comprehension written as a loop. *)
Lemma import_branch (b : TreeBuilder) (nm : string) (arg : option value)
      (default : string) (children : list (bval * pydata)) :
  import_tree b (PTuple nm arg default children)
  = (ch <- foldM (fun acc (vb : bval * pydata) =>
                    t <- import_tree b (snd vb) ;;
                    Ok (dict_set py_eqb acc (fst vb) t)) children [] ;;
     f <- dict_item String.eqb (features b) nm ;;
     Ok (TreeBranch f arg default ch)).
Proof.
  simpl; generalize (@nil (bval * tree)).
  induction children as [| [v br] l IH]; intros acc; simpl; [reflexivity |].
  destruct (import_tree b br) as [t |]; simpl; [apply IH | reflexivity].
Qed.





(** ** Determinism *)

(** The feature keeps no set: only the Membership features do. *)
Definition set_free (f : feature) : bool :=
  match f with
  | MF _ | MF1 _ _ => false
  | DF _ | DF1 _ _ | QF _ => true
  end.

Definition no_membership (b : TreeBuilder) : bool :=
  forallb set_free (dict_values (features b)).

Lemma foldM_ext {A S : Type} (body1 body2 : S -> A -> result S) (l : list A) (s : S) :
  (forall s a, In a l -> body1 s a = body2 s a) ->
  foldM body1 l s = foldM body2 l s.
Proof.
  revert s; induction l as [| a l IH]; intros s H; simpl; [reflexivity |].
  rewrite (H s a) by (left; reflexivity).
  destruct (body2 s a); simpl; [| reflexivity].
  apply IH; intros; apply H; right; assumption.
Qed.

Section TwoRuns.
Variables (ord1 ord2 : set_order) (b : TreeBuilder).

Lemma MF_split_same (f : feature) (ents : list entity) :
  (forall es, iter ord1 es = iter ord2 es) ->
  MF_split ord1 f ents = MF_split ord2 f ents.
Proof.
  intros H; unfold MF_split.
  destruct (assert (2 <=? len ents)); [| reflexivity]; cbn [bind].
  destruct (MF_index f ents) as [d |]; [| reflexivity]; cbn [bind].
  destruct (len d <? 2); [reflexivity |].
  unfold MF_scan.
  rewrite (foldM_ext (MF_try ord1 ents) (MF_try ord2 ents))
    by (intros st [v es] _; unfold MF_try, set_entetp; rewrite H; reflexivity).
  destruct (foldM (MF_try ord2 ents) d None) as [[[[tok nes] m] |] |];
    try reflexivity; cbn [bind].
  destruct (dict_item String.eqb d tok) as [es |]; [| reflexivity]; cbn [bind].
  unfold set_list; rewrite H; reflexivity.
Qed.

Lemma split_same (f : feature) (ents : list entity) :
  (forall es, iter ord1 es = iter ord2 es) \/ set_free f = true ->
  split ord1 f ents = split ord2 f ents.
Proof.
  intros H; destruct f as [attr | attr index | attr | attr nmems | attr];
    try reflexivity;
    (destruct H as [H | H]; [| discriminate]);
    apply MF_split_same; assumption.
Qed.

Hypothesis Hsame : (forall es, iter ord1 es = iter ord2 es) \/ no_membership b = true.

Lemma choose_same (ents : list entity) : choose ord1 b ents = choose ord2 b ents.
Proof.
  unfold choose; apply foldM_ext; intros st f Hin.
  rewrite (split_same f ents); [reflexivity |].
  destruct Hsame as [H | H]; [left; assumption | right].
  unfold no_membership in H; rewrite forallb_forall in H; apply H; assumption.
Qed.

Lemma build_fuel_same (fuel : nat) (ents : list entity) :
  build_fuel ord1 b fuel ents = build_fuel ord2 b fuel ents.
Proof.
  revert ents; induction fuel as [| fuel IH]; intros ents; [reflexivity |].
  simpl; unfold build_body; rewrite choose_same.
  destruct (calcetp (dict_values (countkeys ents))); [| reflexivity].
  destruct (Rltb a (minetp b)); [reflexivity |].
  destruct (len ents <? minkeys b); [reflexivity |].
  destruct (choose ord2 b ents) as [[[[[f arg] sp] w] |] |]; try reflexivity.
  destruct (bestkey (countkeys ents)); [| reflexivity].
  rewrite (build_children_ext (build_fuel ord1 b fuel) (build_fuel ord2 b fuel));
    [reflexivity | intros; apply IH].
Qed.

Lemma build_same (ents : list entity) : build ord1 b ents = build ord2 b ents.
Proof. unfold build; rewrite build_fuel_same; reflexivity. Qed.
End TwoRuns.

(** ** The cut chosen by [QuantitativeFeature.split] *)

Definition point (n : nat) (v : Z) (label : string) : entity :=
  mkEntity n label [("value", VInt v)].

Definition five : list entity :=
  [point 1 1 "A"; point 2 2 "A"; point 3 2 "A"; point 4 5 "B"; point 5 9 "B"].





Definition five_sorted : list (entity * value) :=
  [(point 1 1 "A", VInt 1); (point 2 2 "A", VInt 2); (point 3 2 "A", VInt 2);
   (point 4 5 "B", VInt 5); (point 5 9 "B", VInt 9)].








(** * The computed numbers *)

(** ** Exact arithmetic gives the definitions of the first part *)

Lemma fsum_terms {X : Type} (g : X -> result R) (l : list X) (acc : R) :
  foldM (fun acc a => t <- g a ;; Ok (acc + t)%R) l acc
  = (terms <- mapM g l ;; Ok (fold_left Rplus terms acc)).
Proof.
  revert acc; induction l as [| a l IH]; intros acc; simpl; [reflexivity |].
  destruct (g a) as [t | x]; simpl; [| reflexivity].
  rewrite IH; destruct (mapM g l); reflexivity.
Qed.

Lemma sum_div_exact (terms : list R) (n : Z) :
  Computed.sum_div exact terms n = float_div (fold_left Rplus terms 0%R) n.
Proof. destruct terms; reflexivity. Qed.

Lemma calcetp_exact (values : list Z) :
  Computed.calcetp exact values = calcetp values.
Proof.
  unfold Computed.calcetp, calcetp, fsum; rewrite fsum_terms.
  change (fun v : Z => q <- Computed.int_div exact (zsum values) v ;;
                       l <- flog2 exact q ;; imul exact v l)
    with (fun v : Z => q <- int_div (zsum values) v ;;
                       l <- py_log2 q ;; Ok (IZR v * l)%R).
  destruct (mapM _ values) as [terms |]; [| reflexivity].
  cbn [bind]; apply sum_div_exact.
Qed.

Lemma entetp_exact (ents : list entity) :
  Computed.entetp exact ents = entetp ents.
Proof. apply calcetp_exact. Qed.

Lemma mapM_ext {X Y : Type} (g h : X -> result Y) (l : list X) :
  (forall a, g a = h a) -> mapM g l = mapM h l.
Proof.
  intros H; induction l as [| a l IH]; simpl; [reflexivity |].
  rewrite H, IH; reflexivity.
Qed.

Lemma DF_split_exact (f : feature) (ents : list entity) :
  Computed.DF_split exact f ents = DF_split f ents.
Proof.
  unfold Computed.DF_split, DF_split.
  destruct (assert (2 <=? len ents)); [| reflexivity]; cbn [bind].
  destruct (DF_group f ents) as [d |]; [| reflexivity]; cbn [bind].
  destruct (len d <? 2); [reflexivity |].
  unfold fsum; rewrite fsum_terms.
  rewrite (mapM_ext (fun es => h <- Computed.entetp exact es ;;
                               imul exact (len es) h)
                    (fun es => h <- entetp es ;; Ok (IZR (len es) * h)%R))
    by (intros es; rewrite entetp_exact; reflexivity).
  destruct (mapM _ (dict_values d)) as [terms |]; [| reflexivity].
  cbn [bind]; rewrite sum_div_exact; reflexivity.
Qed.

Lemma MF_try_exact (ord : set_order) (ents : list entity)
      (st : option ((string * list entity) * R)) (ves : string * list entity) :
  Computed.MF_try exact ord ents st ves = MF_try ord ents st ves.
Proof.
  unfold Computed.MF_try, MF_try, set_entetp; destruct ves as [v es].
  destruct (outside ents es) as [| e nes]; [reflexivity |].
  rewrite !entetp_exact.
  destruct (entetp (iter ord es)); [| reflexivity]; cbn [bind imul exact].
  destruct (entetp (e :: nes)); reflexivity.
Qed.

Lemma MF_split_exact (ord : set_order) (f : feature) (ents : list entity) :
  Computed.MF_split exact ord f ents = MF_split ord f ents.
Proof.
  unfold Computed.MF_split, MF_split, Computed.MF_scan, MF_scan.
  destruct (assert (2 <=? len ents)); [| reflexivity]; cbn [bind].
  destruct (MF_index f ents) as [d |]; [| reflexivity]; cbn [bind].
  destruct (len d <? 2); [reflexivity |].
  rewrite (foldM_ext (Computed.MF_try exact ord ents) (MF_try ord ents))
    by (intros; apply MF_try_exact).
  reflexivity.
Qed.

Lemma QF_avgetp_exact (es : list entity) (i : nat) :
  Computed.QF_avgetp exact es i = QF_avgetp es i.
Proof.
  unfold Computed.QF_avgetp, QF_avgetp; rewrite !entetp_exact.
  destruct (entetp (firstn i es)); [| reflexivity]; cbn [bind imul exact].
  destruct (entetp (skipn i es)); reflexivity.
Qed.

Lemma QF_try_exact (es : list entity) (vs : list value)
      (st : value * option (nat * R)) (i : nat) :
  Computed.QF_try exact es vs st i = QF_try es vs st i.
Proof.
  unfold Computed.QF_try, QF_try; destruct st as [v0 m].
  destruct (value_eqb v0 (nth i vs v0)); [reflexivity |].
  rewrite QF_avgetp_exact; reflexivity.
Qed.

Lemma QF_split_exact (attr : string) (ents : list entity) :
  Computed.QF_split exact attr ents = QF_split attr ents.
Proof.
  unfold Computed.QF_split, QF_split, Computed.QF_scan, QF_scan.
  destruct (assert (2 <=? len ents)); [| reflexivity]; cbn [bind].
  destruct (QF_collect attr ents) as [pairs undefs].
  destruct pairs as [| [e0 v0] rest]; [reflexivity |].
  destruct (sort_pairs ((e0, v0) :: rest)) as [sorted |]; [| reflexivity].
  cbn [bind].
  rewrite (foldM_ext (Computed.QF_try exact (map fst sorted) (map snd sorted))
                     (QF_try (map fst sorted) (map snd sorted)))
    by (intros; apply QF_try_exact).
  reflexivity.
Qed.

Lemma split_exact (ord : set_order) (f : feature) (ents : list entity) :
  Computed.split exact ord f ents = split ord f ents.
Proof.
  destruct f; simpl;
    first [apply DF_split_exact | apply MF_split_exact | apply QF_split_exact].
Qed.

(** The builder of the first part, as a builder over exact arithmetic. *)
Definition exact_builder (b : TreeBuilder) : Computed.TreeBuilder exact :=
  @Computed.mkTreeBuilder exact (features b) (minkeys b) (minetp b).

Lemma choose_exact (ord : set_order) (b : TreeBuilder) (ents : list entity) :
  Computed.choose exact ord (exact_builder b) ents = choose ord b ents.
Proof.
  unfold Computed.choose, choose; apply foldM_ext; intros st f _.
  rewrite split_exact; reflexivity.
Qed.

Lemma build_fuel_exact (ord : set_order) (b : TreeBuilder) (fuel : nat)
      (ents : list entity) :
  Computed.build_fuel exact ord (exact_builder b) fuel ents
  = build_fuel ord b fuel ents.
Proof.
  revert ents; induction fuel as [| fuel IH]; intros ents; [reflexivity |].
  simpl; unfold Computed.build_body, build_body.
  rewrite calcetp_exact, choose_exact.
  destruct (calcetp (dict_values (countkeys ents))) as [etp |]; [| reflexivity].
  change (flt exact etp (Computed.minetp (exact_builder b)))
    with (Rltb etp (minetp b)).
  destruct (Rltb etp (minetp b)); [reflexivity |].
  change (Computed.minkeys (exact_builder b)) with (minkeys b).
  destruct (len ents <? minkeys b); [reflexivity |].
  destruct (choose ord b ents) as [[[[[f arg] sp] w] |] |]; try reflexivity.
  destruct (bestkey (countkeys ents)); [| reflexivity].
  rewrite (build_children_ext
             (Computed.build_fuel exact ord (exact_builder b) fuel)
             (build_fuel ord b fuel)); [reflexivity | intros; apply IH].
Qed.

Lemma build_exact (ord : set_order) (b : TreeBuilder) (ents : list entity) :
  Computed.build exact ord (exact_builder b) ents = build ord b ents.
Proof. unfold Computed.build, build; rewrite build_fuel_exact; reflexivity. Qed.

(** ** What the proofs use of the comparisons *)

(** [<] is a strict order, and two numbers that are [==] stand alike
    below a third.  Both hold of the real numbers and of the doubles
    (where a NaN is neither below nor equal to anything). *)
Record ordered (A : arith) : Prop := mkOrdered {
  flt_irrefl : forall a, flt A a a = false;
  flt_trans : forall a b c,
      flt A a b = true -> flt A b c = true -> flt A a c = true;
  feq_flt : forall a b c,
      feq A a b = true -> flt A b c = true -> flt A a c = true
}.

Lemma exact_ordered : ordered exact.
Proof.
  constructor; simpl.
  - intros a; apply Rltb_false; lra.
  - intros a b c H1 H2; apply Rltb_spec in H1, H2; apply Rltb_true; lra.
  - intros a b c H1 H2; unfold Reqb in H1.
    destruct (Req_dec_T a b) as [-> |]; [assumption | discriminate].
Qed.

Ltac compare_cases :=
  repeat match goal with
         | H : context [Z.compare ?x ?y] |- _ => destruct (Z.compare_spec x y)
         | |- context [Z.compare ?x ?y] => destruct (Z.compare_spec x y)
         | H : context [Pos.compare ?x ?y] |- _ => destruct (Pos.compare_spec x y)
         | |- context [Pos.compare ?x ?y] => destruct (Pos.compare_spec x y)
         end.

Lemma SFltb_irrefl (a : SpecFloat.spec_float) : SpecFloat.SFltb a a = false.
Proof.
  unfold SpecFloat.SFltb, SpecFloat.SFcompare.
  destruct a as [s | s | | s m e]; try destruct s; try reflexivity;
    change (Pos.compare_cont Eq m m) with (Pos.compare m m);
    rewrite Z.compare_refl, Pos.compare_refl; reflexivity.
Qed.

Lemma SFltb_trans (a b c : SpecFloat.spec_float) :
  SpecFloat.SFltb a b = true -> SpecFloat.SFltb b c = true ->
  SpecFloat.SFltb a c = true.
Proof.
  unfold SpecFloat.SFltb, SpecFloat.SFcompare.
  destruct a as [sa | sa | | sa ma ea], b as [sb | sb | | sb mb eb],
      c as [sc | sc | | sc mc ec];
    try destruct sa; try destruct sb; try destruct sc;
    try discriminate; try reflexivity;
    repeat match goal with
           | |- context [Pos.compare_cont Eq ?x ?y] =>
               change (Pos.compare_cont Eq x y) with (Pos.compare x y)
           end;
    compare_cases; simpl; intros; subst;
    try discriminate; try reflexivity; try lia.
Qed.

Lemma SFeqb_ltb (a b c : SpecFloat.spec_float) :
  SpecFloat.SFeqb a b = true -> SpecFloat.SFltb b c = true ->
  SpecFloat.SFltb a c = true.
Proof.
  unfold SpecFloat.SFeqb, SpecFloat.SFltb, SpecFloat.SFcompare.
  destruct a as [sa | sa | | sa ma ea], b as [sb | sb | | sb mb eb],
      c as [sc | sc | | sc mc ec];
    try destruct sa; try destruct sb; try destruct sc;
    try discriminate; try reflexivity;
    repeat match goal with
           | |- context [Pos.compare_cont Eq ?x ?y] =>
               change (Pos.compare_cont Eq x y) with (Pos.compare x y)
           end;
    compare_cases; simpl; intros; subst;
    try discriminate; try reflexivity; try lia.
Qed.

Lemma binary64_ordered
      (log2f : SpecFloat.spec_float -> result SpecFloat.spec_float)
      (sumf : list SpecFloat.spec_float -> SpecFloat.spec_float) :
  ordered (binary64 log2f sumf).
Proof.
  constructor; simpl;
    [apply SFltb_irrefl | apply SFltb_trans | apply SFeqb_ltb].
Qed.

(** ** The cut chosen by [QuantitativeFeature.split] *)

Section ComputedScan.
Variable A : arith.
Hypothesis Hord : ordered A.
Variables (es : list entity) (vs : list value).

(** The state of the scan when the positions below [a] have been seen:
    the kept cut is the first one among those of least weighted entropy. *)
Definition scanned_with (a : nat) (st : value * option (nat * num A)) : Prop :=
  fst st = vnth vs (a - 1)
  /\ match snd st with
     | None => forall j, (1 <= j < a)%nat -> ~ is_cut vs j
     | Some (i, w) =>
         (1 <= i < a)%nat /\ is_cut vs i /\ Computed.QF_avgetp A es i = Ok w
         /\ forall j, (1 <= j < a)%nat -> is_cut vs j ->
                      exists wj, Computed.QF_avgetp A es j = Ok wj
                                 /\ flt A wj w = false
                                 /\ ((j < i)%nat -> feq A wj w = false)
     end.

Lemma not_below (w w' wj : num A) :
  flt A w' w = true -> flt A wj w = false ->
  flt A wj w' = false /\ feq A wj w' = false.
Proof.
  intros Hlt Hj; split.
  - destruct (flt A wj w') eqn:E; [| reflexivity].
    rewrite (flt_trans A Hord wj w' w E Hlt) in Hj; discriminate.
  - destruct (feq A wj w') eqn:E; [| reflexivity].
    rewrite (feq_flt A Hord wj w' w E Hlt) in Hj; discriminate.
Qed.

Lemma scanned_with_step (a : nat) (st st' : value * option (nat * num A)) :
  (1 <= a < List.length vs)%nat ->
  scanned_with a st -> Computed.QF_try A es vs st a = Ok st' ->
  scanned_with (S a) st'.
Proof.
  intros Ha [Hv Hm]; destruct st as [v0 m]; simpl in Hv, Hm.
  unfold Computed.QF_try.
  rewrite (nth_indep vs v0 (VInt 0)) by lia; fold (vnth vs a).
  unfold scanned_with; replace (S a - 1)%nat with a by lia.
  assert (Hlt : forall j, (1 <= j < S a)%nat -> (1 <= j < a)%nat \/ j = a) by lia.
  destruct (value_eqb v0 (vnth vs a)) eqn:E.
  - intros [= <-]; apply value_eqb_eq in E; split; simpl; [assumption |].
    assert (Hnot : ~ is_cut vs a).
    { unfold is_cut; rewrite <- Hv, E.
      assert (H : value_eqb (vnth vs a) (vnth vs a) = true)
        by (apply value_eqb_eq; reflexivity).
      congruence. }
    destruct m as [[i w] |].
    + destruct Hm as (Hi & Hcut & Hw & Hmin); repeat split; try assumption; try lia.
      intros j Hj Hc; destruct (Hlt j Hj) as [Hj' | ->];
        [apply Hmin; assumption | contradiction].
    + intros j Hj Hc; destruct (Hlt j Hj) as [Hj' | ->];
        [apply (Hm j); assumption | contradiction].
  - intros H; apply bind_ok in H as (w' & Hw' & [= <-]); split; simpl; [reflexivity |].
    assert (Hcut : is_cut vs a) by (unfold is_cut; rewrite <- Hv; exact E).
    destruct m as [[i w] |]; simpl.
    + destruct Hm as (Hi & Hci & Hw & Hmin).
      destruct (flt A w' w) eqn:Hcmp.
      * repeat split; try assumption; try lia.
        intros j Hj Hc; destruct (Hlt j Hj) as [Hj' | ->].
        -- destruct (Hmin j Hj' Hc) as (wj & Hwj & Hnb & _); exists wj.
           destruct (not_below w w' wj Hcmp Hnb) as [H1 H2]; auto.
        -- exists w'; repeat split;
             [assumption | apply (flt_irrefl A Hord) | lia].
      * repeat split; try assumption; try lia.
        intros j Hj Hc; destruct (Hlt j Hj) as [Hj' | ->];
          [apply Hmin; assumption |].
        exists w'; repeat split; [assumption | assumption | lia].
    + repeat split; try assumption; try lia.
      intros j Hj Hc; destruct (Hlt j Hj) as [Hj' | ->].
      * exfalso; apply (Hm j); assumption.
      * exists w'; repeat split;
          [assumption | apply (flt_irrefl A Hord) | lia].
Qed.

Lemma scanned_with_loop (k a : nat) (st st' : value * option (nat * num A)) :
  (1 <= a)%nat -> (a + k <= List.length vs)%nat ->
  scanned_with a st ->
  foldM (Computed.QF_try A es vs) (seq a k) st = Ok st' ->
  scanned_with (a + k) st'.
Proof.
  revert a st; induction k as [| k IH]; intros a st Ha Hk Hst; simpl.
  - intros [= <-]; rewrite Nat.add_0_r; assumption.
  - intros H; apply bind_ok in H as (st1 & H1 & H2).
    replace (a + S k)%nat with (S a + k)%nat by lia.
    apply (IH (S a) st1); [lia | lia | | assumption].
    apply (scanned_with_step a st); [lia | assumption | assumption].
Qed.

(** The scan raises nothing of its own: it goes through when the
    weighted entropy of every cut is computed. *)
Lemma scan_with_total (k a : nat) (st : value * option (nat * num A)) :
  (forall j, (1 <= j < List.length vs)%nat -> is_cut vs j ->
             exists wj, Computed.QF_avgetp A es j = Ok wj) ->
  (1 <= a)%nat -> (a + k <= List.length vs)%nat ->
  fst st = vnth vs (a - 1) ->
  exists st', foldM (Computed.QF_try A es vs) (seq a k) st = Ok st'.
Proof.
  intros Hw; revert a st; induction k as [| k IH]; intros a st Ha Hk Hv; simpl;
    [eauto |].
  assert (Hstep : exists st1, Computed.QF_try A es vs st a = Ok st1
                              /\ fst st1 = vnth vs a).
  { unfold Computed.QF_try; destruct st as [v0 m]; simpl in Hv.
    rewrite (nth_indep vs v0 (VInt 0)) by lia; fold (vnth vs a).
    destruct (value_eqb v0 (vnth vs a)) eqn:E.
    - apply value_eqb_eq in E; eexists; split; [reflexivity | exact E].
    - destruct (Hw a) as [w ->];
        [lia | unfold is_cut; rewrite <- Hv; exact E |].
      simpl; eexists; split; reflexivity. }
  destruct Hstep as (st1 & -> & Hv1); simpl; apply IH; [lia | lia |].
  replace (S a - 1)%nat with a by lia; assumption.
Qed.
End ComputedScan.

(** What [QuantitativeFeature.split] does on a set of at least 2 entries
    whose values can be ordered. *)
Lemma QF_split_with_cases (A : arith) (attr : string) (ents : list entity)
      (sorted : list (entity * value)) :
  ordered A -> 2 <= len ents -> sort_pairs (defined attr ents) = Ok sorted ->
  (forall j, (1 <= j < List.length sorted)%nat -> is_cut (map snd sorted) j ->
             exists wj, Computed.QF_avgetp A (map fst sorted) j = Ok wj) ->
  (Computed.QF_split A attr ents = Raise InvalidSplit
   /\ forall j, (1 <= j < List.length sorted)%nat -> ~ is_cut (map snd sorted) j)
  \/ exists i w,
       Computed.QF_split A attr ents
       = Ok (w, Some (vnth (map snd sorted) i),
             [(BStr "lt", firstn i (map fst sorted));
              (BStr "ge", skipn i (map fst sorted))]
             ++ match undefined attr ents with
                | [] => []
                | _ :: _ => [(BStr "un", undefined attr ents)]
                end)
       /\ (1 <= i < List.length sorted)%nat
       /\ is_cut (map snd sorted) i
       /\ Computed.QF_avgetp A (map fst sorted) i = Ok w
       /\ forall j, (1 <= j < List.length sorted)%nat ->
                    is_cut (map snd sorted) j ->
                    exists wj, Computed.QF_avgetp A (map fst sorted) j = Ok wj
                               /\ flt A wj w = false
                               /\ ((j < i)%nat -> feq A wj w = false).
Proof.
  intros Hord Hlen Hsort Hw; unfold Computed.QF_split.
  rewrite assert_len_long by assumption; cbn [bind].
  rewrite QF_collect_eq.
  destruct (defined attr ents) as [| [e0 v0] rest] eqn:Hdef.
  - injection Hsort as <-; left; split; [reflexivity |].
    simpl; intros j Hj; lia.
  - rewrite <- Hdef in *; rewrite Hsort; cbn [bind].
    pose proof (sort_pairs_inv _ _ Hsort) as (Hperm & _ & _).
    assert (Hn : (1 <= List.length sorted)%nat).
    { rewrite (Permutation_length Hperm), Hdef; simpl; lia. }
    assert (Hv0 : nth 0 (map snd sorted) v0 = vnth (map snd sorted) (1 - 1))
      by (apply nth_indep; rewrite length_map; lia).
    destruct (scan_with_total A (map fst sorted) (map snd sorted)
                              (List.length (map snd sorted) - 1) 1
                              (nth 0 (map snd sorted) v0, None)) as [[v0' m] Hscan];
      [rewrite length_map; exact Hw | lia | rewrite length_map; lia | exact Hv0 |].
    unfold Computed.QF_scan; rewrite Hscan; cbn [bind].
    assert (Hinv : scanned_with A (map fst sorted) (map snd sorted)
                                (List.length (map snd sorted)) (v0', m)).
    { replace (List.length (map snd sorted))
        with (1 + (List.length (map snd sorted) - 1))%nat at 1
        by (rewrite length_map; lia).
      apply (scanned_with_loop A Hord _ _ _ 1 (nth 0 (map snd sorted) v0, None));
        [lia | rewrite length_map; lia | | exact Hscan].
      split; [exact Hv0 | simpl; intros j Hj; lia]. }
    destruct Hinv as [_ Hm]; simpl in Hm; rewrite length_map in Hm.
    destruct m as [[i wi] |].
    + right; destruct Hm as (Hi & Hcut & Hwi & Hmin).
      exists i, wi; repeat split; try assumption; try lia.
      replace (nth i (map snd sorted) (nth 0 (map snd sorted) v0))
        with (vnth (map snd sorted) i)
        by (apply nth_indep; rewrite length_map; lia).
      destruct (undefined attr ents); reflexivity.
    + left; split; [reflexivity | exact Hm].
Qed.

(** An exception of [QuantitativeFeature.split], on such a set, is
    [InvalidSplit] or comes from the weighted entropy of a cut. *)
Lemma QF_split_with_returns (A : arith) (attr : string) (ents : list entity)
      (sorted : list (entity * value)) (r : Computed.split_result A) :
  2 <= len ents -> sort_pairs (defined attr ents) = Ok sorted ->
  Computed.QF_split A attr ents = Ok r ->
  forall j, (1 <= j < List.length sorted)%nat -> is_cut (map snd sorted) j ->
            exists wj, Computed.QF_avgetp A (map fst sorted) j = Ok wj.
Proof.
  intros Hlen Hsort; unfold Computed.QF_split.
  rewrite assert_len_long by assumption; cbn [bind].
  rewrite QF_collect_eq.
  destruct (defined attr ents) as [| [e0 v0] rest] eqn:Hdef; [discriminate |].
  rewrite <- Hdef in *; rewrite Hsort; cbn [bind].
  pose proof (sort_pairs_inv _ _ Hsort) as (Hperm & _ & _).
  assert (Hn : (1 <= List.length sorted)%nat).
  { rewrite (Permutation_length Hperm), Hdef; simpl; lia. }
  intros H; apply bind_ok in H as ([v0' m] & Hscan & _).
  unfold Computed.QF_scan in Hscan; rewrite length_map in Hscan.
  assert (Hgen : forall k a st st',
             (1 <= a)%nat -> (a + k <= List.length sorted)%nat ->
             fst st = vnth (map snd sorted) (a - 1) ->
             foldM (Computed.QF_try A (map fst sorted) (map snd sorted))
                   (seq a k) st = Ok st' ->
             forall j, (a <= j < a + k)%nat -> is_cut (map snd sorted) j ->
                       exists wj, Computed.QF_avgetp A (map fst sorted) j = Ok wj).
  { induction k as [| k IH]; intros a st st' Ha Hk Hv Hf j Hj Hc; [lia |].
    simpl in Hf; apply bind_ok in Hf as (st1 & H1 & H2).
    assert (Hst1 : fst st1 = vnth (map snd sorted) a
                   /\ (is_cut (map snd sorted) a ->
                       exists wj, Computed.QF_avgetp A (map fst sorted) a = Ok wj)).
    { revert H1; unfold Computed.QF_try; destruct st as [v1 m1]; simpl in Hv.
      rewrite (nth_indep (map snd sorted) v1 (VInt 0)) by (rewrite length_map; lia).
      fold (vnth (map snd sorted) a).
      destruct (value_eqb v1 (vnth (map snd sorted) a)) eqn:E.
      - intros [= <-]; apply value_eqb_eq in E; split; [exact E |].
        unfold is_cut; rewrite <- Hv, E; intros Hcut.
        assert (Hr : value_eqb (vnth (map snd sorted) a) (vnth (map snd sorted) a)
                     = true) by (apply value_eqb_eq; reflexivity).
        congruence.
      - intros H1; apply bind_ok in H1 as (w & Hw & [= <-]); split; eauto. }
    destruct Hst1 as [Hv1 Hcut1].
    destruct (Nat.eq_dec j a) as [-> | Hne]; [apply Hcut1; assumption |].
    apply (IH (S a) st1 st'); try lia; try assumption.
    replace (S a - 1)%nat with a by lia; assumption. }
  intros j Hj Hc.
  apply (Hgen (List.length sorted - 1)%nat 1%nat
              (nth 0 (map snd sorted) v0, None) (v0', m));
    try lia; try assumption.
  apply nth_indep; rewrite length_map; lia.
Qed.

(** ** The feature chosen by [build] *)

Section ComputedChoice.
Variable A : arith.
Hypothesis Hord : ordered A.
Variables (ord : set_order) (ents : list entity).

(** The feature [g] is not below the weighted entropy [w]: it cannot
    split, or its weighted entropy is not less than [w]. *)
Definition not_below_with (w : num A) (g : feature) : Prop :=
  Computed.split A ord g ents = Raise InvalidSplit
  \/ exists w' arg' sp',
       Computed.split A ord g ents = Ok (w', arg', sp')
       /\ flt A w' w = false.

(** The feature [g] is above the weighted entropy [w]: it cannot split,
    or its weighted entropy is neither less than [w] nor equal to it. *)
Definition above_with (w : num A) (g : feature) : Prop :=
  Computed.split A ord g ents = Raise InvalidSplit
  \/ exists w' arg' sp',
       Computed.split A ord g ents = Ok (w', arg', sp')
       /\ flt A w' w = false /\ feq A w' w = false.

(** The state of the loop of [build] after the features [done]. *)
Definition chosen_with (done : list feature)
           (st : option ((feature * option value * partitions) * num A))
  : Prop :=
  match st with
  | None => forall g, In g done -> Computed.split A ord g ents = Raise InvalidSplit
  | Some ((f, arg, sp), w) =>
      Computed.split A ord f ents = Ok (w, arg, sp)
      /\ exists l1 l2, done = l1 ++ f :: l2
                       /\ (forall g, In g l1 -> above_with w g)
                       /\ (forall g, In g l2 -> not_below_with w g)
  end.

Definition choose_with_step
           (st : option ((feature * option value * partitions) * num A))
           (feat : feature)
  : result (option ((feature * option value * partitions) * num A)) :=
  match Computed.split A ord feat ents with
  | Raise InvalidSplit => Ok st
  | Raise x => Raise x
  | Ok (etp, arg, sp) => Ok (Computed.keep_min st (feat, arg, sp) etp)
  end.

Lemma chosen_with_step (done : list feature) (g : feature)
      (st st' : option ((feature * option value * partitions) * num A)) :
  chosen_with done st -> choose_with_step st g = Ok st' ->
  chosen_with (done ++ [g]) st'.
Proof.
  unfold choose_with_step; intros Hst Hstep.
  destruct (Computed.split A ord g ents) as [[[w' arg'] sp'] | x] eqn:Hg.
  - injection Hstep as <-.
    destruct st as [[[[f arg] sp] w] |]; simpl.
    + destruct Hst as (Hf & l1 & l2 & -> & H1 & H2).
      destruct (flt A w' w) eqn:Hcmp.
      * split; [assumption |].
        exists (l1 ++ f :: l2), []; repeat split; [| intros ? []].
        intros h Hh; apply in_app_iff in Hh as [Hh | [<- | Hh]].
        -- destruct (H1 h Hh) as [Hinv | (w1 & a1 & s1 & Hs & Hlt & _)];
             [left; assumption | right; exists w1, a1, s1].
           destruct (not_below A Hord w w' w1 Hcmp Hlt); auto.
        -- right; exists w, arg, sp.
           destruct (not_below A Hord w w' w Hcmp (flt_irrefl A Hord w)); auto.
        -- destruct (H2 h Hh) as [Hinv | (w1 & a1 & s1 & Hs & Hlt)];
             [left; assumption | right; exists w1, a1, s1].
           destruct (not_below A Hord w w' w1 Hcmp Hlt); auto.
      * split; [assumption |].
        exists l1, (l2 ++ [g]); repeat split;
          [rewrite <- app_assoc; reflexivity | assumption |].
        intros h Hh; apply in_app_iff in Hh as [Hh | [<- | []]];
          [apply H2; assumption |].
        right; exists w', arg', sp'; split; assumption.
    + split; [assumption |].
      exists done, []; repeat split; [| intros ? []].
      intros h Hh; left; apply Hst; assumption.
  - destruct x; try discriminate; injection Hstep as <-.
    destruct st as [[[[f arg] sp] w] |]; simpl.
    + destruct Hst as (Hf & l1 & l2 & -> & H1 & H2); split; [assumption |].
      exists l1, (l2 ++ [g]); repeat split;
        [rewrite <- app_assoc; reflexivity | assumption |].
      intros h Hh; apply in_app_iff in Hh as [Hh | [<- | []]];
        [apply H2; assumption | left; assumption].
    + intros h Hh; apply in_app_iff in Hh as [Hh | [<- | []]];
        [apply Hst; assumption | assumption].
Qed.

Lemma chosen_with_loop (l : list feature)
      (st : option ((feature * option value * partitions) * num A)) :
  foldM choose_with_step l None = Ok st -> chosen_with l st.
Proof.
  revert st; induction l as [| g l IH] using rev_ind; intros st.
  - intros [= <-]; intros g [].
  - rewrite foldM_app; intros H; apply bind_ok in H as (st0 & H0 & H1).
    simpl in H1; apply bind_ok in H1 as (st1 & H1 & [= <-]).
    apply (chosen_with_step l g st0); [apply IH; assumption | assumption].
Qed.

Lemma choose_chosen_with (b : Computed.TreeBuilder A)
      (st : option ((feature * option value * partitions) * num A)) :
  Computed.choose A ord b ents = Ok st ->
  chosen_with (dict_values (Computed.features b)) st.
Proof. apply chosen_with_loop. Qed.
End ComputedChoice.

(** The branch that [build] returns holds what the loop over the
    features has chosen. *)
Lemma build_with_chose (A : arith) (ord : set_order)
      (b : Computed.TreeBuilder A) (ents : list entity)
      (f : feature) (arg : option value) (default : string)
      (children : list (bval * tree)) :
  Computed.build A ord b ents = Ok (Some (TreeBranch f arg default children)) ->
  exists sp w, Computed.choose A ord b ents = Ok (Some ((f, arg, sp), w)).
Proof.
  unfold Computed.build; cbn [Computed.build_fuel]; unfold Computed.build_body.
  destruct (Computed.calcetp A (dict_values (countkeys ents))) as [etp |];
    [| discriminate].
  destruct (flt A etp (Computed.minetp b)); [discriminate |].
  destruct (len ents <? Computed.minkeys b); [discriminate |].
  destruct (Computed.choose A ord b ents) as [[[[[f' arg'] sp] w] |] |];
    try discriminate.
  destruct (bestkey (countkeys ents)); [| discriminate].
  destruct (build_children _ sp []) as [[ch |] |]; try discriminate.
  intros [= -> -> _ _]; eauto.
Qed.

(** ** Two runs of [build] *)

Definition no_membership_with {A : arith} (b : Computed.TreeBuilder A) : bool :=
  forallb set_free (dict_values (Computed.features b)).

Section ComputedTwoRuns.
Variable A : arith.
Variables (ord1 ord2 : set_order) (b : Computed.TreeBuilder A).

Lemma MF_split_with_same (f : feature) (ents : list entity) :
  (forall es, iter ord1 es = iter ord2 es) ->
  Computed.MF_split A ord1 f ents = Computed.MF_split A ord2 f ents.
Proof.
  intros H; unfold Computed.MF_split.
  destruct (assert (2 <=? len ents)); [| reflexivity]; cbn [bind].
  destruct (MF_index f ents) as [d |]; [| reflexivity]; cbn [bind].
  destruct (len d <? 2); [reflexivity |].
  unfold Computed.MF_scan.
  rewrite (foldM_ext (Computed.MF_try A ord1 ents) (Computed.MF_try A ord2 ents))
    by (intros st [v es] _; unfold Computed.MF_try; rewrite H; reflexivity).
  destruct (foldM (Computed.MF_try A ord2 ents) d None) as [[[[tok nes] m] |] |];
    try reflexivity; cbn [bind].
  destruct (dict_item String.eqb d tok) as [es |]; [| reflexivity]; cbn [bind].
  rewrite H; reflexivity.
Qed.

Lemma split_with_same (f : feature) (ents : list entity) :
  (forall es, iter ord1 es = iter ord2 es) \/ set_free f = true ->
  Computed.split A ord1 f ents = Computed.split A ord2 f ents.
Proof.
  intros H; destruct f as [attr | attr index | attr | attr nmems | attr];
    try reflexivity;
    (destruct H as [H | H]; [| discriminate]);
    apply MF_split_with_same; assumption.
Qed.

Hypothesis Hsame :
  (forall es, iter ord1 es = iter ord2 es) \/ no_membership_with b = true.

Lemma choose_with_same (ents : list entity) :
  Computed.choose A ord1 b ents = Computed.choose A ord2 b ents.
Proof.
  unfold Computed.choose; apply foldM_ext; intros st f Hin.
  rewrite (split_with_same f ents); [reflexivity |].
  destruct Hsame as [H | H]; [left; assumption | right].
  unfold no_membership_with in H; rewrite forallb_forall in H; apply H; assumption.
Qed.

Lemma build_fuel_with_same (fuel : nat) (ents : list entity) :
  Computed.build_fuel A ord1 b fuel ents = Computed.build_fuel A ord2 b fuel ents.
Proof.
  revert ents; induction fuel as [| fuel IH]; intros ents; [reflexivity |].
  simpl; unfold Computed.build_body; rewrite choose_with_same.
  destruct (Computed.calcetp A (dict_values (countkeys ents))); [| reflexivity].
  destruct (flt A a (Computed.minetp b)); [reflexivity |].
  destruct (len ents <? Computed.minkeys b); [reflexivity |].
  destruct (Computed.choose A ord2 b ents) as [[[[[f arg] sp] w] |] |];
    try reflexivity.
  destruct (bestkey (countkeys ents)); [| reflexivity].
  rewrite (build_children_ext (Computed.build_fuel A ord1 b fuel)
                              (Computed.build_fuel A ord2 b fuel));
    [reflexivity | intros; apply IH].
Qed.

Lemma build_with_same (ents : list entity) :
  Computed.build A ord1 b ents = Computed.build A ord2 b ents.
Proof. unfold Computed.build; rewrite build_fuel_with_same; reflexivity. Qed.
End ComputedTwoRuns.

(** ** Entropy *)

(** The entropy as the specification words it, in the arithmetic [A]:
    the sum of [c * log2 (n / c)] over the counts, divided by [n]. *)
Definition entropy_with (A : arith) (counts : list Z) (n : Z) : result (num A) :=
  terms <- mapM (fun c => q <- itruediv A n c ;; l <- flog2 A q ;; imul A c l)
             counts ;;
  fdivi A (ftotal A terms) n.

Lemma mapM_ext_in {X Y : Type} (g h : X -> result Y) (l : list X) :
  (forall a, In a l -> g a = h a) -> mapM g l = mapM h l.
Proof.
  induction l as [| a l IH]; intros H; simpl; [reflexivity |].
  rewrite (H a) by (left; reflexivity).
  rewrite IH by (intros; apply H; right; assumption); reflexivity.
Qed.

Lemma mapM_length {X Y : Type} (g : X -> result Y) (l : list X) (r : list Y) :
  mapM g l = Ok r -> List.length r = List.length l.
Proof.
  revert r; induction l as [| a l IH]; intros r; simpl.
  - intros [= <-]; reflexivity.
  - destruct (g a); simpl; [| discriminate].
    destruct (mapM g l) as [r' |]; simpl; [| discriminate].
    intros [= <-]; simpl; rewrite (IH r' eq_refl); reflexivity.
Qed.


Lemma calcetp_with_formula (A : arith) (counts : list Z) :
  counts <> [] -> Forall (fun c => 0 < c) counts ->
  Computed.calcetp A counts = entropy_with A counts (zsum counts).
Proof.
  intros Hne Hpos; unfold Computed.calcetp, entropy_with.
  pose proof (zsum_pos counts Hpos Hne) as Hn.
  rewrite (mapM_ext_in
             (fun v => q <- Computed.int_div A (zsum counts) v ;;
                       l <- flog2 A q ;; imul A v l)
             (fun c => q <- itruediv A (zsum counts) c ;;
                       l <- flog2 A q ;; imul A c l)).
  - destruct (mapM _ counts) as [terms |] eqn:Hterms; [| reflexivity].
    cbn [bind]; apply mapM_length in Hterms.
    destruct terms as [| t terms];
      [destruct counts; [congruence | discriminate] |].
    unfold Computed.sum_div, Computed.float_div.
    destruct (Z.eqb_spec (zsum counts) 0); [lia | reflexivity].
  - intros c Hc; unfold Computed.int_div.
    rewrite Forall_forall in Hpos; specialize (Hpos c Hc).
    destruct (Z.eqb_spec c 0); [lia | reflexivity].
Qed.

Lemma calcetp_with_single (A : arith) (n : Z) (one zero : num A) :
  0 < n ->
  itruediv A n n = Ok one -> flog2 A one = Ok zero ->
  imul A n zero = Ok zero -> ftotal A [zero] = zero ->
  fdivi A zero n = Ok zero ->
  Computed.calcetp A [n] = Ok zero.
Proof.
  intros Hn H1 H2 H3 H4 H5.
  rewrite calcetp_with_formula by (first [discriminate | repeat constructor; assumption]).
  unfold entropy_with; replace (zsum [n]) with n by (unfold zsum; simpl; lia).
  cbn [mapM]; rewrite H1; cbn [bind]; rewrite H2; cbn [bind].
  rewrite H3; cbn [bind]; rewrite H4; exact H5.
Qed.




(** *** Integers as doubles *)

Lemma digits_shifted (p : positive) (k : positive) :
  SpecFloat.digits2_pos (Pos.iter xO p k) = (SpecFloat.digits2_pos p + k)%positive.
Proof.
  induction k as [| k IH] using Pos.peano_ind.
  - simpl; rewrite Pos.add_1_r; reflexivity.
  - rewrite Pos.iter_succ; simpl; rewrite IH, Pos.add_succ_r; reflexivity.
Qed.

Lemma digits_lower (p : positive) :
  2 ^ (Zpos (SpecFloat.digits2_pos p) - 1) <= Zpos p.
Proof.
  induction p as [p IH | p IH |]; simpl SpecFloat.digits2_pos;
    [| | simpl; lia];
    rewrite Pos2Z.inj_succ;
    replace (Z.succ (Zpos (SpecFloat.digits2_pos p)) - 1)
      with (Z.succ (Zpos (SpecFloat.digits2_pos p) - 1)) by lia;
    rewrite Z.pow_succ_r by lia; lia.
Qed.

Lemma digits_small (p : positive) :
  Zpos p < 2 ^ 53 -> Zpos (SpecFloat.digits2_pos p) <= 53.
Proof.
  intros Hp; pose proof (digits_lower p) as Hl.
  destruct (Z.le_gt_cases (Zpos (SpecFloat.digits2_pos p)) 53) as [H | H];
    [assumption | exfalso].
  assert (2 ^ 53 <= 2 ^ (Zpos (SpecFloat.digits2_pos p) - 1))
    by (apply Z.pow_le_mono_r; lia).
  lia.
Qed.

Lemma fexp_digits (d : Z) :
  1 <= d <= 53 -> SpecFloat.fexp Binary64.prec Binary64.emax d = d - 53.
Proof.
  intros Hd; unfold SpecFloat.fexp, SpecFloat.emin, Binary64.prec, Binary64.emax.
  apply Z.max_l; lia.
Qed.

(** An integer below [2 ** 53] is a double. *)
Lemma to_float_small (p : positive) :
  Zpos p < 2 ^ 53 ->
  exists m e, Binary64.to_float (Zpos p) = Ok (SpecFloat.S754_finite false m e).
Proof.
  intros Hp; pose proof (digits_small p Hp) as Hd.
  assert (Hd1 : 1 <= Zpos (SpecFloat.digits2_pos p)) by lia.
  unfold Binary64.to_float, SpecFloat.binary_normalize, SpecFloat.binary_round.
  rewrite Z.add_0_r, fexp_digits by lia.
  unfold SpecFloat.shl_align; rewrite Z.sub_0_r.
  assert (Haux : forall mz ez,
             Zpos (SpecFloat.digits2_pos mz) + ez = Zpos (SpecFloat.digits2_pos p) ->
             ez = Zpos (SpecFloat.digits2_pos p) - 53 ->
             SpecFloat.binary_round_aux Binary64.prec Binary64.emax false
                                        (Zpos mz) ez SpecFloat.loc_Exact
             = SpecFloat.S754_finite false mz ez).
  { intros mz ez Hsum Hez; unfold SpecFloat.binary_round_aux, SpecFloat.shr_fexp.
    cbn [SpecFloat.Zdigits2 SpecFloat.shr_record_of_loc].
    rewrite Hsum, fexp_digits by lia.
    replace (Zpos (SpecFloat.digits2_pos p) - 53 - ez) with 0 by lia.
    cbn [SpecFloat.shr SpecFloat.shr_m SpecFloat.loc_of_shr_record
         SpecFloat.round_nearest_even SpecFloat.Zdigits2
         SpecFloat.shr_record_of_loc].
    rewrite Hsum, fexp_digits by lia.
    replace (Zpos (SpecFloat.digits2_pos p) - 53 - ez) with 0 by lia.
    cbn [SpecFloat.shr SpecFloat.shr_m].
    replace (ez <=? Binary64.emax - Binary64.prec) with true; [reflexivity |].
    symmetry; apply Z.leb_le; unfold Binary64.emax, Binary64.prec; lia. }
  destruct (Zpos (SpecFloat.digits2_pos p) - 53) as [| q | q] eqn:Hk; [| lia |].
  - exists p, 0; rewrite Haux by lia; reflexivity.
  - exists (Pos.iter xO p q), (Zneg q).
    rewrite Haux; [reflexivity | | reflexivity].
    rewrite digits_shifted, Pos2Z.inj_add; lia.
Qed.

(** The quotient of a positive integer by itself is 1.0. *)
Lemma truediv_same (p : positive) :
  Binary64.int_truediv (Zpos p) (Zpos p) = Ok Binary64.one.
Proof.
  unfold Binary64.int_truediv, Binary64.of_int, SpecFloat.SFdiv.
  unfold SpecFloat.SFdiv_core_binary.
  replace (SpecFloat.Zdigits2 (Zpos p) + 0 - (SpecFloat.Zdigits2 (Zpos p) + 0))
    with 0 by lia.
  change (Z.min (SpecFloat.fexp Binary64.prec Binary64.emax 0) (0 - 0)) with (-53).
  change (0 - 0 - -53) with 53.
  cbv iota beta zeta.
  rewrite Z.shiftl_mul_pow2 by lia.
  assert (Hk : 0 < 2 ^ 53) by lia.
  remember (2 ^ 53) as k eqn:Ek.
  pose proof (Z.div_eucl_eq (Zpos p * k) (Zpos p) ltac:(lia)) as Heq.
  pose proof (Z.mod_pos_bound (Zpos p * k) (Zpos p) ltac:(lia)) as Hb.
  unfold Z.modulo in Hb.
  destruct (Z.div_eucl (Zpos p * k) (Zpos p)) as [q r].
  assert (Hq : q = k) by nia.
  assert (Hr : r = 0) by nia.
  subst q r k.
  replace (SpecFloat.new_location (Zpos p) 0) with SpecFloat.loc_Exact
    by (unfold SpecFloat.new_location; destruct (Z.even (Zpos p)); reflexivity).
  vm_compute; reflexivity.
Qed.

(** On doubles the entropy of a single count below [2 ** 53] is 0.0,
    with any [math.log2] that is 0.0 at 1.0 and any [sum] that returns a
    single zero as it is. *)
Lemma binary64_single_count
      (log2f : SpecFloat.spec_float -> result SpecFloat.spec_float)
      (sumf : list SpecFloat.spec_float -> SpecFloat.spec_float) (n : Z) :
  0 < n < 2 ^ 53 ->
  log2f Binary64.one = Ok Binary64.zero ->
  sumf [Binary64.zero] = Binary64.zero ->
  Computed.calcetp (binary64 log2f sumf) [n] = Ok Binary64.zero.
Proof.
  intros Hn Hlog Hsum; destruct n as [| p | p]; try lia.
  destruct (to_float_small p (proj2 Hn)) as (m & e & Hp).
  apply (calcetp_with_single (binary64 log2f sumf) (Zpos p)
                             Binary64.one Binary64.zero);
    [lia | apply truediv_same | exact Hlog | | exact Hsum |].
  - change (imul (binary64 log2f sumf)) with Binary64.int_mul.
    unfold Binary64.int_mul; rewrite Hp; reflexivity.
  - change (fdivi (binary64 log2f sumf)) with Binary64.div_int.
    unfold Binary64.div_int; rewrite Hp; reflexivity.
Qed.






(** On doubles, whatever [math.log2] and [sum] are: when the split of
    the five entries returns, it returns a cut between two adjacent
    distinct values such that no cut has a weighted entropy below the
    returned one. *)
Lemma five_split_on_doubles
      (log2f : SpecFloat.spec_float -> result SpecFloat.spec_float)
      (sumf : list SpecFloat.spec_float -> SpecFloat.spec_float)
      (r : Computed.split_result (binary64 log2f sumf)) :
  Computed.QF_split (binary64 log2f sumf) "value" five = Ok r ->
  exists i w,
    r = (w, Some (vnth (map snd five_sorted) i),
         [(BStr "lt", firstn i (map fst five_sorted));
          (BStr "ge", skipn i (map fst five_sorted))])
    /\ is_cut (map snd five_sorted) i
    /\ forall k, (1 <= k < List.length five_sorted)%nat ->
                 is_cut (map snd five_sorted) k ->
                 exists wk,
                   Computed.QF_avgetp (binary64 log2f sumf) (map fst five_sorted) k
                   = Ok wk
                   /\ SpecFloat.SFltb wk w = false.
Proof.
  intros Hr.
  assert (H1 : 2 <= len five) by (unfold len; simpl; lia).
  assert (H2 : sort_pairs (defined "value" five) = Ok five_sorted) by reflexivity.
  destruct (QF_split_with_cases (binary64 log2f sumf) "value" five five_sorted
              (binary64_ordered log2f sumf) H1 H2
              (QF_split_with_returns _ _ _ _ r H1 H2 Hr))
    as [[Hinv _] | (i & w & Hs & _ & Hcut & _ & Hmin)];
    [rewrite Hr in Hinv; discriminate |].
  exists i, w; rewrite Hr in Hs; injection Hs as ->.
  split; [reflexivity | split; [exact Hcut |]].
  intros k Hk Hc; destruct (Hmin k Hk Hc) as (wk & Hwk & Hlt & _); eauto.
Qed.

(** ** A tie between two features *)

(** A builder with two Discrete features, no entropy threshold and a
    count threshold of 2. *)
Definition tie_builder : TreeBuilder :=
  addfeat (addfeat (mkTreeBuilder [] 2 0%R) (DF "type")) (DF1 "words" 0).

Definition tie_tree : tree :=
  TreeBranch (DF "type") None "A"
             [(BStr "line", TreeLeaf "A"); (BStr "block", TreeLeaf "C")].

Lemma split_type_tie :
  split insertion_order (DF "type") [e1; e3]
  = Ok (0%R, None, [(BStr "line", [e1]); (BStr "block", [e3])]).
Proof.
  unfold split, DF_split; simpl; unfold fsum; simpl.
  rewrite !entetp_one; simpl.
  do 3 f_equal; lra.
Qed.

Lemma split_words_tie :
  split insertion_order (DF1 "words" 0) [e1; e3]
  = Ok (0%R, None, [(BStr "x", [e1]); (BStr "z", [e3])]).
Proof.
  unfold split, DF_split; simpl; unfold fsum; simpl.
  rewrite !entetp_one; simpl.
  do 3 f_equal; lra.
Qed.

Lemma build_tie :
  build insertion_order tie_builder [e1; e3] = Ok (Some tie_tree).
Proof.
  apply build_eq; unfold build_body.
  destruct (entetp_total [e1; e3]) as [etp Hetp]; [discriminate |].
  unfold entetp in Hetp.
  change (minetp tie_builder) with 0%R; change (minkeys tie_builder) with 2.
  rewrite Hetp, (etp_not_below_zero _ etp Hetp).
  change (len [e1; e3] <? 2) with false; cbv iota.
  unfold choose.
  change (dict_values (features tie_builder)) with [DF "type"; DF1 "words" 0].
  cbn [foldM]; rewrite split_type_tie; cbn [bind keep_min].
  rewrite split_words_tie; cbn [bind keep_min].
  rewrite (Rltb_false 0 0) by lra.
  change (bestkey (countkeys [e1; e3])) with (@Ok string "A").
  cbn [build_children]; unfold build_child.
  assert (Hleaf : forall e, build insertion_order tie_builder [e] = Ok None).
  { intros e; apply build_eq; unfold build_body.
    change (dict_values (countkeys [e])) with [1].
    rewrite calcetp_single by lia.
    change (minetp tie_builder) with 0%R; rewrite Rltb_false by lra.
    reflexivity. }
  rewrite !Hleaf; reflexivity.
Qed.

(** C9 as stated fails: the two runs below are on the same entries and
    the same registry, and differ only in the order in which the set
    [{e1, e2}] kept by [MembershipFeature.split] is listed by
    [list(d[arg])]; the leaf under [True] gets label A in one run and
    label B in the other. *)
Lemma build_depends_on_set_order :
  build insertion_order words_builder [e1; e2; e3] = Ok (Some (words_tree "A"))
  /\ build reverse_order words_builder [e1; e2; e3] = Ok (Some (words_tree "B"))
  /\ ~ (forall (ord1 ord2 : set_order) (b : TreeBuilder) (ents : list entity),
          build ord1 b ents = build ord2 b ents)
  /\ ~ (forall (A : arith) (ord1 ord2 : set_order) (b : Computed.TreeBuilder A)
               (ents : list entity),
          Computed.build A ord1 b ents = Computed.build A ord2 b ents).
Proof.
  split; [exact build_words_insertion | split; [exact build_words_reverse |]].
  split.
  - intros H; specialize (H insertion_order reverse_order words_builder [e1; e2; e3]).
    rewrite build_words_insertion, build_words_reverse in H; discriminate.
  - intros H; specialize (H exact insertion_order reverse_order
                            (exact_builder words_builder) [e1; e2; e3]).
    rewrite !build_exact, build_words_insertion, build_words_reverse in H.
    discriminate.
Qed.

(** C9 (determinism), amended.  Whatever the arithmetic, two runs of
    [build] on the same entries and the same registry give the same
    result when they list every set in the same order, and in any case
    when no Membership feature is registered.  The feature of the
    returned branch is the first one, in the order of the registry, among
    those of least weighted entropy: every feature before it cannot split
    or has a weighted entropy that is neither less than its own nor equal
    to it, and every feature after it cannot split or has a weighted
    entropy that is not less than its own. *)
Theorem build_deterministic (A : arith) (ord1 ord2 : set_order)
        (b : Computed.TreeBuilder A) (ents : list entity) :
  ordered A ->
  (forall es, iter ord1 es = iter ord2 es) \/ no_membership_with b = true ->
  Computed.build A ord1 b ents = Computed.build A ord2 b ents
  /\ forall f arg default children,
       Computed.build A ord1 b ents
       = Ok (Some (TreeBranch f arg default children)) ->
       exists w sp l1 l2,
         dict_values (Computed.features b) = l1 ++ f :: l2
         /\ Computed.split A ord1 f ents = Ok (w, arg, sp)
         /\ (forall g, In g l1 -> above_with A ord1 ents w g)
         /\ (forall g, In g l2 -> not_below_with A ord1 ents w g).
Proof.
  intros Hord Hsame; split; [apply build_with_same; assumption |].
  intros f arg default children Hb.
  destruct (build_with_chose A ord1 b ents f arg default children Hb)
    as (sp & w & Hc).
  apply (choose_chosen_with A Hord) in Hc as (Hf & l1 & l2 & Hl & H1 & H2).
  exists w, sp, l1, l2; auto.
Qed.

Lemma build_deterministic_witness :
  ordered exact
  /\ ((forall es, iter insertion_order es = iter reverse_order es)
      \/ no_membership_with (exact_builder tie_builder) = true)
  /\ Computed.build exact insertion_order (exact_builder tie_builder) [e1; e3]
     = Ok (Some tie_tree)
  /\ Computed.split exact insertion_order (DF "type") [e1; e3]
     = Ok (0%R, None, [(BStr "line", [e1]); (BStr "block", [e3])])
  /\ Computed.split exact insertion_order (DF1 "words" 0) [e1; e3]
     = Ok (0%R, None, [(BStr "x", [e1]); (BStr "z", [e3])])
  /\ Computed.build exact insertion_order (exact_builder tie_builder) [e1; e3]
     = Computed.build exact reverse_order (exact_builder tie_builder) [e1; e3]
  /\ exists w sp l1 l2,
       dict_values (Computed.features (exact_builder tie_builder))
       = l1 ++ DF "type" :: l2
       /\ Computed.split exact insertion_order (DF "type") [e1; e3] = Ok (w, None, sp)
       /\ (forall g, In g l1 -> above_with exact insertion_order [e1; e3] w g)
       /\ (forall g, In g l2 -> not_below_with exact insertion_order [e1; e3] w g).
Proof.
  assert (Hb : Computed.build exact insertion_order (exact_builder tie_builder)
                              [e1; e3] = Ok (Some tie_tree))
    by (rewrite build_exact; exact build_tie).
  assert (Hfree : (forall es, iter insertion_order es = iter reverse_order es)
                  \/ no_membership_with (exact_builder tie_builder) = true)
    by (right; reflexivity).
  split; [exact exact_ordered | split; [exact Hfree | split; [exact Hb |]]].
  split; [rewrite split_exact; exact split_type_tie |].
  split; [rewrite split_exact; exact split_words_tie |].
  destruct (build_deterministic exact insertion_order reverse_order
              (exact_builder tie_builder) [e1; e3] exact_ordered Hfree)
    as [Hsame Hfirst].
  split; [exact Hsame |].
  exact (Hfirst (DF "type") None "A"
                [(BStr "line", TreeLeaf "A"); (BStr "block", TreeLeaf "C")] Hb).
Defined.

(** ** [build] on a single entry *)

(** Every [split] begins with [assert 2 <= len(ents)]. *)
Lemma split_with_single (A : arith) (ord : set_order) (f : feature) (e : entity) :
  Computed.split A ord f [e] = Raise AssertionError.
Proof. destruct f; reflexivity. Qed.

(** A set of one entry that passes both stopping tests reaches the loop
    over the features, and the first feature fails its assertion. *)
Lemma build_with_single (A : arith) (ord : set_order)
      (b : Computed.TreeBuilder A) (e : entity) (etp : num A)
      (f : feature) (l : list feature) :
  Computed.calcetp A [1] = Ok etp ->
  flt A etp (Computed.minetp b) = false ->
  Computed.minkeys b <= 1 ->
  dict_values (Computed.features b) = f :: l ->
  Computed.build A ord b [e] = Raise AssertionError.
Proof.
  intros Hetp Hlt Hk Hf.
  unfold Computed.build; cbn [List.length Computed.build_fuel].
  unfold Computed.build_body.
  change (dict_values (countkeys [e])) with [1].
  rewrite Hetp, Hlt.
  replace (len [e] <? Computed.minkeys b) with false
    by (symmetry; apply Z.ltb_ge; unfold len; simpl; lia).
  unfold Computed.choose; rewrite Hf; cbn [foldM].
  rewrite split_with_single; reflexivity.
Qed.

(** C1, where the code fails.  With no entropy threshold and a count
    threshold of 1, [build] on a set of one entry passes both stopping
    tests (the entropy is 0, which is not below 0, and one entry is not
    fewer than 1), asks the Discrete feature to split the set, and the
    assertion [2 <= len(ents)] of [split] fails: [build] raises
    [AssertionError] instead of returning null or a branch, in exact
    arithmetic and on doubles alike.  [build] of [learn.py] returns null
    on the same set: it tests [len(ents) < 2] before any split. *)
Lemma build_can_raise :
  build insertion_order type_builder [e1] = Raise AssertionError
  /\ calcetp (dict_values (countkeys [e1])) = Ok 0%R
  /\ ~ (0 < minetp type_builder)%R
  /\ ~ len [e1] < minkeys type_builder
  /\ split insertion_order (DF "type") [e1] = Raise AssertionError
  /\ (forall log2f sumf,
         log2f Binary64.one = Ok Binary64.zero ->
         sumf [Binary64.zero] = Binary64.zero ->
         Computed.build (binary64 log2f sumf) insertion_order
                        (@Computed.mkTreeBuilder (binary64 log2f sumf)
                           [("DF:type", DF "type")] 1 Binary64.zero)
                        [e1]
         = Raise AssertionError)
  /\ Learn.build (Learn.mkTreeBuilder [Learn.DF "type"] 1 0%R) [e1] = Ok None.
Proof.
  split; [exact build_type_single |].
  split; [change (dict_values (countkeys [e1])) with [1];
          apply calcetp_single; lia |].
  split; [change (minetp type_builder) with 0%R; lra |].
  split; [intros H; vm_compute in H; discriminate |].
  split; [reflexivity |].
  split.
  - intros log2f sumf Hlog Hsum.
    apply (build_with_single (binary64 log2f sumf) insertion_order _ e1
                             Binary64.zero (DF "type") []);
      [apply binary64_single_count; [lia | assumption | assumption]
       | reflexivity | cbn; lia | reflexivity].
  - unfold Learn.build; cbn [List.length Learn.build_fuel].
    unfold Learn.build_body.
    change (calcetp_learn (countkeys [e1])) with (calcetp [1]).
    rewrite calcetp_single by lia; reflexivity.
Qed.

(** * Further properties of the code *)

(** ** Label counts and the majority label *)

(** The labels of a list in the order of their first occurrence. *)
Definition first_seen_step (acc : list string) (k : string) : list string :=
  if existsb (String.eqb k) acc then acc else acc ++ [k].

Definition first_seen (ks : list string) : list string :=
  fold_left first_seen_step ks [].

Lemma incr_keys (d : dict string Z) (k : string) :
  dict_keys (incr d k) = first_seen_step (dict_keys d) k.
Proof.
  unfold incr, first_seen_step.
  destruct (dict_get String.eqb d k) as [c |] eqn:E.
  - rewrite (dict_set_keys_present String.eqb d k _ c E).
    apply dict_get_in_str, (in_map fst) in E; simpl in E.
    assert (H : existsb (String.eqb k) (dict_keys d) = true)
      by (apply existsb_exists; exists k; split; [exact E | apply String.eqb_refl]).
    rewrite H; reflexivity.
  - rewrite dict_set_absent by assumption.
    assert (H : existsb (String.eqb k) (dict_keys d) = false).
    { destruct (existsb (String.eqb k) (dict_keys d)) eqn:Hex; [| reflexivity].
      apply existsb_exists in Hex as (x & Hx & Hk).
      apply String.eqb_eq in Hk; subst x.
      apply dict_keys_get in Hx; congruence. }
    rewrite H; unfold dict_keys; rewrite map_app; reflexivity.
Qed.

Lemma countkeys_keys_from (ents : list entity) (d : dict string Z) :
  dict_keys (fold_left count_step ents d)
  = fold_left first_seen_step (map key ents) (dict_keys d).
Proof.
  revert d; induction ents as [| e l IH]; intros d; simpl; [reflexivity |].
  rewrite IH, count_step_incr, incr_keys; reflexivity.
Qed.

Lemma lookup0_get (d : dict string Z) (k : string) :
  Forall (fun c => 0 < c) (dict_values d) ->
  dict_get String.eqb d k
  = if lookup0 d k =? 0 then None else Some (lookup0 d k).
Proof.
  intros Hpos; unfold lookup0.
  destruct (dict_get String.eqb d k) as [c |] eqn:E; [| reflexivity].
  apply dict_get_in_str, (in_map snd) in E; simpl in E.
  rewrite Forall_forall in Hpos; specialize (Hpos c E).
  destruct (Z.eqb_spec c 0); [lia | reflexivity].
Qed.

(** X1 (countkeys).  The dictionary of [countkeys] holds, for every label,
    the number of entries with that label, and nothing for a label that no
    entry has; its keys are the labels in the order of their first
    occurrence, and its counts add up to the number of entries. *)
Theorem countkeys_counts_labels (ents : list entity) :
  (forall k, dict_get String.eqb (countkeys ents) k
             = if count_label k ents =? 0 then None
               else Some (count_label k ents))
  /\ dict_keys (countkeys ents) = first_seen (map key ents)
  /\ zsum (dict_values (countkeys ents)) = len ents.
Proof.
  split; [| split].
  - intros k; rewrite <- countkeys_counts.
    apply lookup0_get, countkeys_pos.
  - apply (countkeys_keys_from ents []).
  - apply (countkeys_inv ents []); constructor.
Qed.

Lemma first_seen_snoc (l : list string) (x : string) :
  first_seen (l ++ [x]) = first_seen_step (first_seen l) x.
Proof. unfold first_seen; rewrite fold_left_app; reflexivity. Qed.

Lemma first_seen_step_cases (acc : list string) (x : string) :
  (In x acc /\ first_seen_step acc x = acc)
  \/ (~ In x acc /\ first_seen_step acc x = acc ++ [x]).
Proof.
  unfold first_seen_step; destruct (existsb (String.eqb x) acc) eqn:E.
  - left; split; [| reflexivity].
    apply existsb_exists in E as (y & Hy & Hxy).
    apply String.eqb_eq in Hxy; subst y; assumption.
  - right; split; [| reflexivity].
    intros Hin; assert (existsb (String.eqb x) acc = true); [| congruence].
    apply existsb_exists; exists x; split; [assumption | apply String.eqb_refl].
Qed.

Lemma first_seen_all (l : list string) : incl l (first_seen l).
Proof.
  induction l as [| x l IH] using rev_ind; [intros ? [] |].
  rewrite first_seen_snoc; intros y Hy; apply in_app_iff in Hy.
  destruct (first_seen_step_cases (first_seen l) x) as [[Hin ->] | [_ ->]].
  - destruct Hy as [Hy | [<- | []]]; [apply IH; assumption | assumption].
  - apply in_app_iff; destruct Hy as [Hy | Hy]; [left; apply IH; assumption | right; assumption].
Qed.

(** A label at some place of the first-occurrence order occurs in the list
    after labels that all stand before it in that order. *)
Lemma first_seen_place (l : list string) (ks1 ks2 : list string) (k : string) :
  first_seen l = ks1 ++ k :: ks2 ->
  exists l1 l2, l = l1 ++ k :: l2 /\ incl l1 ks1.
Proof.
  revert ks1 ks2; induction l as [| x l IH] using rev_ind; intros ks1 ks2 H.
  - destruct ks1; discriminate.
  - rewrite first_seen_snoc in H.
    destruct (first_seen_step_cases (first_seen l) x) as [[_ E] | [_ E]];
      rewrite E in H; clear E.
    + destruct (IH _ _ H) as (l1 & l2 & -> & Hincl).
      exists l1, (l2 ++ [x]); split; [rewrite <- app_assoc; reflexivity | assumption].
    + destruct ks2 as [| y ks2 _] using rev_ind.
      * apply app_inj_tail in H as [H1 H2]; subst x.
        exists l, []; split; [reflexivity |].
        rewrite <- H1; apply first_seen_all.
      * change (ks1 ++ k :: ks2 ++ [y]) with (ks1 ++ (k :: ks2) ++ [y]) in H.
        rewrite app_assoc in H.
        apply app_inj_tail in H as [H1 H2].
        destruct (IH _ _ H1) as (l1 & l2 & -> & Hincl).
        exists l1, (l2 ++ [x]); split; [rewrite <- app_assoc; reflexivity | assumption].
Qed.

(** [bestkey] returns the first key of the dictionary whose count is the
    greatest. *)
Lemma bestkey_first_max (d : dict string Z) (k : string) :
  bestkey d = Ok k ->
  exists d1 c d2, d = d1 ++ (k, c) :: d2
    /\ (forall k' c', In (k', c') d1 -> c' < c)
    /\ (forall k' c', In (k', c') d2 -> c' <= c).
Proof.
  unfold bestkey.
  set (step := fun (st : option string * Z) (kv : string * Z) =>
                 let '(maxkey, maxv) := st in
                 let '(k, v) := kv in
                 match maxkey with
                 | None => (Some k, v)
                 | Some _ => if maxv <? v then (Some k, v) else st
                 end).
  assert (H : forall l done st,
             (match fst st with
              | None => done = []
              | Some k0 =>
                  exists d1 d2, done = d1 ++ (k0, snd st) :: d2
                    /\ (forall k' c', In (k', c') d1 -> c' < snd st)
                    /\ (forall k' c', In (k', c') d2 -> c' <= snd st)
              end) ->
             match fst (fold_left step l st) with
             | None => done ++ l = []
             | Some k0 =>
                 exists d1 d2,
                   done ++ l = d1 ++ (k0, snd (fold_left step l st)) :: d2
                   /\ (forall k' c', In (k', c') d1 -> c' < snd (fold_left step l st))
                   /\ (forall k' c', In (k', c') d2 -> c' <= snd (fold_left step l st))
             end).
  { induction l as [| [k1 v1] l IH]; intros done st Hst; simpl.
    - rewrite app_nil_r; assumption.
    - replace (done ++ (k1, v1) :: l) with ((done ++ [(k1, v1)]) ++ l)
        by (rewrite <- app_assoc; reflexivity).
      apply IH; destruct st as [[k0 |] v0]; simpl in *.
      + destruct Hst as (d1 & d2 & -> & Hlt & Hle).
        destruct (Z.ltb_spec v0 v1); simpl.
        * exists (d1 ++ (k0, v0) :: d2), []; split; [reflexivity |]; split.
          -- intros k' c' Hin; apply in_app_iff in Hin as [Hin | [Heq | Hin]].
             ++ specialize (Hlt _ _ Hin); lia.
             ++ injection Heq as <- <-; lia.
             ++ specialize (Hle _ _ Hin); lia.
          -- intros ? ? [].
        * exists d1, (d2 ++ [(k1, v1)]); split;
            [rewrite <- app_assoc; reflexivity |]; split; [assumption |].
          intros k' c' Hin; apply in_app_iff in Hin as [Hin | [Heq | []]].
          -- apply (Hle _ _ Hin).
          -- injection Heq as <- <-; lia.
      + subst done; exists [], []; split; [reflexivity |].
        split; intros ? ? []. }
  specialize (H d [] (None, 0) eq_refl); simpl in H.
  destruct (fold_left step d (None, 0)) as [[k0 |] v0]; simpl in *; [| discriminate].
  intros Hk; injection Hk as <-.
  destruct H as (d1 & d2 & H1 & H2 & H3); exists d1, v0, d2; auto.
Qed.

Lemma bestkey_first_entry (ents : list entity) :
  ents <> [] ->
  exists l1 e l2,
    ents = l1 ++ e :: l2
    /\ bestkey (countkeys ents) = Ok (key e)
    /\ (forall e', In e' l1 ->
          count_label (key e') ents < count_label (key e) ents)
    /\ (forall k', count_label k' ents <= count_label (key e) ents).
Proof.
  intros Hne0.
  destruct (bestkey_ok (countkeys ents)) as [k Hk].
  { intros H.
    pose proof (countkeys_nonempty ents Hne0) as Hne.
    rewrite H in Hne; apply Hne; reflexivity. }
  destruct (bestkey_first_max _ _ Hk) as (d1 & c & d2 & Hd & Hlt & _).
  pose proof (countkeys_keys_from ents []) as Hkeys.
  fold (countkeys ents) in Hkeys; rewrite Hd in Hkeys.
  unfold dict_keys in Hkeys; rewrite map_app in Hkeys; simpl in Hkeys.
  symmetry in Hkeys; apply first_seen_place in Hkeys as (ks1 & ks2 & Hmap & Hincl).
  apply map_eq_app in Hmap as (l1 & r & Hents & Hl1 & Hr).
  apply map_eq_cons in Hr as (e & l2 & -> & He & Hl2).
  exists l1, e, l2; split; [assumption |].
  rewrite He; split; [assumption |].
  pose proof (countkeys_wf ents) as Hwf.
  assert (Hc : count_label k ents = c).
  { rewrite <- countkeys_counts; unfold lookup0.
    rewrite (dict_in_get (countkeys ents) k c Hwf); [reflexivity |].
    rewrite Hd; apply in_or_app; right; left; reflexivity. }
  split; [| apply (bestkey_majority ents k Hk)].
  intros e' He'; rewrite Hc.
  assert (Hin : In (key e') (map fst d1))
    by (apply Hincl; rewrite <- Hl1; apply in_map; assumption).
  apply in_map_iff in Hin as ([k' c'] & Hfst & Hin); simpl in Hfst; subst k'.
  rewrite <- countkeys_counts; unfold lookup0.
  rewrite (dict_in_get (countkeys ents) (key e') c' Hwf);
    [apply (Hlt _ _ Hin) | rewrite Hd; apply in_or_app; left; assumption].
Qed.

(** X2 (bestkey after countkeys).  Of an empty set, [bestkey] fails its
    assertion.  Otherwise the label it returns is the label of the first
    entry whose label is a most frequent one: every entry before it has a
    label with strictly fewer entries, and no label has more. *)
Theorem bestkey_first_most_frequent (ents : list entity) :
  match ents with
  | [] => bestkey (countkeys ents) = Raise AssertionError
  | _ :: _ =>
      exists l1 e l2,
        ents = l1 ++ e :: l2
        /\ bestkey (countkeys ents) = Ok (key e)
        /\ (forall e', In e' l1 ->
              count_label (key e') ents < count_label (key e) ents)
        /\ (forall k', count_label k' ents <= count_label (key e) ents)
  end.
Proof.
  destruct ents as [| e0 l0]; [reflexivity |].
  apply bestkey_first_entry; discriminate.
Qed.

(** ** The sign of the entropy *)

Lemma log2_zero (x : R) : (1 <= x)%R -> log2 x = 0%R -> x = 1%R.
Proof.
  intros Hx H; destruct Hx as [Hx | <-]; [| reflexivity].
  apply log2_pos in Hx; lra.
Qed.

(** An entropy of zero leaves one class. *)
Lemma entropy_spec_zero (counts : list Z) :
  counts <> [] -> Forall (fun c => 0 < c) counts ->
  entropy_spec counts = 0%R -> List.length counts = 1%nat.
Proof.
  intros Hne Hpos H0; unfold entropy_spec in H0.
  pose proof (zsum_pos counts Hpos Hne) as Hn.
  set (n := zsum counts) in *.
  assert (Hs : rsum (map (fun c => (IZR c * log2 (IZR n / IZR c))%R) counts) = 0%R).
  { apply IZR_lt in Hn.
    apply (Rmult_eq_compat_r (IZR n)) in H0.
    unfold Rdiv in H0; rewrite Rmult_assoc, Rinv_l, Rmult_1_r, Rmult_0_l in H0;
      [assumption | lra]. }
  assert (Hall : forall l, (forall c, In c l -> 0 < c <= n) ->
                   rsum (map (fun c => (IZR c * log2 (IZR n / IZR c))%R) l) = 0%R ->
                   forall c, In c l -> c = n).
  { induction l as [| c l IH]; intros Hl Hsum c0 Hc0; [destruct Hc0 |].
    assert (Hge : forall c, 0 < c <= n -> (0 <= IZR c * log2 (IZR n / IZR c))%R).
    { intros c1 [Hc1 Hc2]; apply Rmult_le_pos; [left; apply IZR_lt; assumption |].
      apply log2_nonneg; apply IZR_lt in Hc1; apply IZR_le in Hc2.
      apply (Rmult_le_reg_r (IZR c1)); [assumption |].
      unfold Rdiv; rewrite Rmult_assoc, Rinv_l by lra; lra. }
    assert (Hrest : (0 <= rsum (map (fun c => (IZR c * log2 (IZR n / IZR c))%R) l))%R).
    { clear IH Hsum Hc0.
      induction l as [| c1 l IH]; [unfold rsum; simpl; lra |].
      unfold rsum in *; simpl.
      apply Rplus_le_le_0_compat;
        [apply Hge, Hl; right; left; reflexivity |].
      apply IH; intros c2 [<- | Hc2]; apply Hl; [left | right; right]; auto. }
    pose proof (Hge c (Hl c (or_introl eq_refl))) as Hc.
    unfold rsum in Hsum, Hrest; simpl in Hsum; fold (rsum (map (fun c => (IZR c * log2 (IZR n / IZR c))%R) l)) in *.
    destruct Hc0 as [<- | Hc0].
    - assert (Hz : (IZR c * log2 (IZR n / IZR c))%R = 0%R)
        by (unfold rsum in *; lra).
      destruct (Hl c (or_introl eq_refl)) as [Hc1 Hc2].
      apply IZR_lt in Hc1 as Hc1'; apply IZR_le in Hc2 as Hc2'.
      apply Rmult_integral in Hz as [Hz | Hz]; [lra |].
      apply log2_zero in Hz.
      + apply eq_IZR.
        apply (Rmult_eq_compat_r (IZR c)) in Hz.
        unfold Rdiv in Hz; rewrite Rmult_assoc, Rinv_l, Rmult_1_r, Rmult_1_l in Hz; lra.
      + apply (Rmult_le_reg_r (IZR c)); [assumption |].
        unfold Rdiv; rewrite Rmult_assoc, Rinv_l by lra; lra.
    - apply IH; [intros; apply Hl; right; assumption | unfold rsum in *; lra | assumption]. }
  assert (Hbound : forall c, In c counts -> 0 < c <= n).
  { intros c Hc; split; [rewrite Forall_forall in Hpos; apply Hpos; assumption |].
    apply zsum_ge; assumption. }
  specialize (Hall counts Hbound Hs).
  destruct counts as [| c1 [| c2 l]]; [congruence | reflexivity |].
  exfalso.
  pose proof (Hall c1 (or_introl eq_refl)) as H1.
  pose proof (Hall c2 (or_intror (or_introl eq_refl))) as H2.
  subst n; rewrite !zsum_cons in *.
  assert (0 <= zsum l).
  { inversion Hpos as [| ? ? _ Hp1]; inversion Hp1 as [| ? ? _ Hp2]; subst.
    destruct l; [unfold zsum; simpl; lia |].
    apply Z.lt_le_incl, zsum_pos; [assumption | discriminate]. }
  lia.
Qed.

Lemma countkeys_one_label (k : string) (ents : list entity) (c : Z) :
  (forall e, In e ents -> key e = k) ->
  fold_left count_step ents [(k, c)] = [(k, c + len ents)].
Proof.
  revert c; induction ents as [| e l IH]; intros c H; simpl.
  - unfold len; simpl; rewrite Z.add_0_r; reflexivity.
  - rewrite count_step_incr, (H e (or_introl eq_refl)).
    unfold incr; cbn [dict_get dict_set]; rewrite String.eqb_refl.
    rewrite IH by (intros; apply H; right; assumption).
    unfold len; cbn [List.length]; do 2 f_equal; lia.
Qed.

Lemma countkeys_same_label (ents : list entity) :
  ents <> [] ->
  (forall e e', In e ents -> In e' ents -> key e = key e') ->
  dict_values (countkeys ents) = [len ents].
Proof.
  destruct ents as [| e l]; [congruence |]; intros _ H.
  unfold countkeys; simpl fold_left.
  rewrite count_step_incr; unfold incr; simpl.
  rewrite (countkeys_one_label (key e) l 1).
  - unfold dict_values, len; cbn [map snd List.length]; f_equal; lia.
  - intros e' He'; symmetry; apply H; [left; reflexivity | right; assumption].
Qed.

Lemma label_counted (ents : list entity) (e : entity) :
  In e ents -> In (key e) (dict_keys (countkeys ents)).
Proof.
  intros He.
  assert (Hpos : 0 < count_label (key e) ents).
  { unfold count_label, len.
    assert (In e (filter (fun e0 => String.eqb (key e0) (key e)) ents))
      by (apply filter_In; split; [assumption | apply String.eqb_refl]).
    destruct (filter _ ents); [contradiction | simpl; lia]. }
  rewrite <- countkeys_counts in Hpos; unfold lookup0 in Hpos.
  destruct (dict_get String.eqb (countkeys ents) (key e)) as [c |] eqn:E; [| lia].
  apply dict_get_in_str, (in_map fst) in E; exact E.
Qed.

(** X3 (entetp).  In exact arithmetic the entropy of a non-empty set is
    returned, is not negative, and is 0 exactly when all entries have the
    same label.  Whatever the arithmetic, the entropy of a set whose
    entries all have the same label is the one of the single count
    [len(ents)]; on doubles it is 0.0 for fewer than [2 ** 53] entries,
    with any [math.log2] that is 0.0 at 1.0 and any [sum] that returns a
    single zero as it is. *)
Theorem entetp_bounds (ents : list entity) :
  ents <> [] ->
  (exists h, entetp ents = Ok h
     /\ (0 <= h)%R
     /\ (h = 0%R <-> forall e e', In e ents -> In e' ents -> key e = key e'))
  /\ (forall A : arith,
        (forall e e', In e ents -> In e' ents -> key e = key e') ->
        Computed.entetp A ents = Computed.calcetp A [len ents])
  /\ (forall log2f sumf,
        (forall e e', In e ents -> In e' ents -> key e = key e') ->
        len ents < 2 ^ 53 ->
        log2f Binary64.one = Ok Binary64.zero ->
        sumf [Binary64.zero] = Binary64.zero ->
        Computed.entetp (binary64 log2f sumf) ents = Ok Binary64.zero).
Proof.
  intros Hne.
  assert (Hl : 0 < len ents) by (unfold len; destruct ents; [congruence | simpl; lia]).
  split; [| split].
  - exists (entropy_spec (dict_values (countkeys ents))).
    pose proof (countkeys_nonempty ents Hne) as Hv.
    pose proof (countkeys_pos ents) as Hpos.
    split; [apply entetp_ok; assumption |]; split.
    + apply entropy_spec_nonneg; assumption.
    + split.
      * intros H0 e e' He He'.
        apply entropy_spec_zero in H0; [| assumption | assumption].
        unfold dict_values in H0; rewrite length_map in H0.
        apply label_counted in He, He'.
        unfold dict_keys in He, He'.
        destruct (countkeys ents) as [| [k c] [| ? ?]]; try discriminate.
        simpl in He, He'; destruct He as [<- | []], He' as [<- | []]; reflexivity.
      * intros Hsame; rewrite (countkeys_same_label ents Hne Hsame).
        pose proof (calcetp_single _ Hl) as Hs.
        rewrite calcetp_ok in Hs; [| discriminate | repeat constructor; assumption].
        injection Hs as Hs; exact Hs.
  - intros A Hsame; unfold Computed.entetp.
    rewrite (countkeys_same_label ents Hne Hsame); reflexivity.
  - intros log2f sumf Hsame Hlt Hlog Hsum; unfold Computed.entetp.
    rewrite (countkeys_same_label ents Hne Hsame).
    apply binary64_single_count; [lia | assumption | assumption].
Qed.

(** Two entries of label A. *)
Definition two_of_A : list entity := [e1; entry 4 "A" "block" "y"].

Lemma entetp_bounds_witness :
  (exists h, entetp two_of_A = Ok h
     /\ (0 <= h)%R
     /\ (h = 0%R <-> forall e e', In e two_of_A -> In e' two_of_A ->
                                  key e = key e'))
  /\ (forall A : arith,
        (forall e e', In e two_of_A -> In e' two_of_A -> key e = key e') ->
        Computed.entetp A two_of_A = Computed.calcetp A [len two_of_A])
  /\ (forall log2f sumf,
        (forall e e', In e two_of_A -> In e' two_of_A -> key e = key e') ->
        len two_of_A < 2 ^ 53 ->
        log2f Binary64.one = Ok Binary64.zero ->
        sumf [Binary64.zero] = Binary64.zero ->
        Computed.entetp (binary64 log2f sumf) two_of_A = Ok Binary64.zero).
Proof. apply (entetp_bounds two_of_A); discriminate. Defined.

(** ** What a split does with the entries *)


Lemma in_parts (parts : partitions) (e : entity) :
  In e (List.concat (dict_values parts))
  <-> exists bv sub, In (bv, sub) parts /\ In e sub.
Proof.
  rewrite in_concat; unfold dict_values; split.
  - intros (sub & Hsub & He); apply in_map_iff in Hsub as ([bv s] & <- & Hin).
    exists bv, s; auto.
  - intros (bv & sub & Hin & He); exists sub; split; [| assumption].
    apply in_map_iff; exists (bv, sub); auto.
Qed.




(** ** The groups of a Discrete feature *)

(** The branch values of a list in the order of their first occurrence,
    under the equality a dictionary uses. *)
Definition first_branch_step (acc : list bval) (k : bval) : list bval :=
  if existsb (fun k' => py_eqb k' k) acc then acc else acc ++ [k].

Definition first_branches (ks : list bval) : list bval :=
  fold_left first_branch_step ks [].

(** The grouping said without a dictionary: under each branch value, in
    the order of first occurrence, the entries with that value, in the
    order of the list. *)
Definition groups_of (kf : entity -> bval) (ents : list entity) : partitions :=
  map (fun k => (k, filter (fun e => py_eqb k (kf e)) ents))
      (first_branches (map kf ents)).

Lemma py_eqb_attr_refl (v : option value) : py_eqb (of_attr v) (of_attr v) = true.
Proof.
  destruct v as [[s | z] |]; simpl;
    [apply String.eqb_refl | apply Z.eqb_refl | reflexivity].
Qed.

Lemma of_attr_inj (a b : option value) : of_attr a = of_attr b -> a = b.
Proof.
  destruct a as [[s | x] |], b as [[t | y] |]; simpl; congruence.
Qed.

Lemma groups_get_none (F : bval -> list entity) (ks : list bval) (k0 : bval) :
  existsb (fun k' => py_eqb k' k0) ks = false ->
  dict_get py_eqb (map (fun k => (k, F k)) ks) k0 = None.
Proof.
  induction ks as [| k ks IH]; simpl; [reflexivity |].
  destruct (py_eqb k k0); simpl; [discriminate | exact IH].
Qed.

Lemma groups_get_some (F : bval -> list entity) (ks : list bval) (k0 : bval) :
  existsb (fun k' => py_eqb k' k0) ks = true ->
  (forall k, In k ks -> py_eqb k k0 = true -> k = k0) ->
  dict_get py_eqb (map (fun k => (k, F k)) ks) k0 = Some (F k0).
Proof.
  induction ks as [| k ks IH]; simpl; [discriminate |].
  intros Hex Heq; destruct (py_eqb k k0) eqn:E.
  - rewrite (Heq k (or_introl eq_refl) E); reflexivity.
  - apply IH; [exact Hex | intros; apply Heq; auto].
Qed.

Lemma groups_set (F : bval -> list entity) (ks : list bval) (k0 : bval)
      (X : list entity) :
  existsb (fun k' => py_eqb k' k0) ks = true ->
  (forall k, In k ks -> py_eqb k k0 = true -> k = k0) ->
  keys_distinct py_eqb ks ->
  dict_set py_eqb (map (fun k => (k, F k)) ks) k0 X
  = map (fun k => (k, if py_eqb k k0 then X else F k)) ks.
Proof.
  induction ks as [| k ks IH]; simpl; [discriminate |].
  intros Hex Heq [Hd1 Hd2]; destruct (py_eqb k k0) eqn:E.
  - f_equal; apply map_ext_in; intros k' Hk'.
    destruct (py_eqb k' k0) eqn:E'; [| reflexivity].
    pose proof (Heq k (or_introl eq_refl) E) as H1.
    pose proof (Heq k' (or_intror Hk') E') as H2.
    specialize (Hd1 k' Hk'); congruence.
  - f_equal; apply IH; [exact Hex | intros; apply Heq; auto | assumption].
Qed.

Lemma first_branches_snoc (ks : list bval) (k : bval) :
  first_branches (ks ++ [k]) = first_branch_step (first_branches ks) k.
Proof. unfold first_branches; rewrite fold_left_app; reflexivity. Qed.

Lemma groups_of_keys (kf : entity -> bval) (l : list entity) :
  dict_keys (groups_of kf l) = first_branches (map kf l).
Proof.
  unfold groups_of, dict_keys; rewrite map_map; simpl; apply map_id.
Qed.

Lemma filter_snoc {A : Type} (p : A -> bool) (l : list A) (a : A) :
  filter p (l ++ [a]) = filter p l ++ (if p a then [a] else []).
Proof. rewrite filter_app; simpl; destruct (p a); reflexivity. Qed.

Lemma filter_none {A : Type} (p : A -> bool) (l : list A) :
  (forall a, In a l -> p a = false) -> filter p l = [].
Proof.
  induction l as [| a l IH]; intros H; simpl; [reflexivity |].
  rewrite (H a (or_introl eq_refl)); apply IH; intros; apply H; right; assumption.
Qed.

(** The grouping loop computes the groups. *)
Lemma DF_group_groups (f : feature) (g : entity -> option value)
      (ents : list entity) :
  (forall e, In e ents -> discrete_get f e = Ok (g e)) ->
  DF_group f ents = Ok (groups_of (fun e => of_attr (g e)) ents).
Proof.
  set (kf := fun e => of_attr (g e)).
  induction ents as [| e l IH] using rev_ind; intros Hget; [reflexivity |].
  assert (Hl : DF_group f l = Ok (groups_of kf l))
    by (apply IH; intros; apply Hget; rewrite in_app_iff; auto).
  clear IH.
  pose proof (DF_group_grouped _ _ _ Hl) as [Hwf Hmem Hperm].
  unfold DF_group in *; rewrite foldM_app, Hl; cbn [bind foldM].
  unfold DF_step; rewrite (Hget e) by (rewrite in_app_iff; simpl; auto).
  cbn [bind]; fold (kf e).
  assert (Hkeys : forall k, In k (first_branches (map kf l)) ->
                            py_eqb k (kf e) = true -> k = kf e).
  { intros k Hk Heq.
    assert (Hin : In (k, filter (fun e0 => py_eqb k (kf e0)) l) (groups_of kf l))
      by (unfold groups_of; apply in_map_iff; exists k; auto).
    destruct (Hmem _ _ Hin) as [Hne Hall].
    destruct (filter (fun e0 => py_eqb k (kf e0)) l) as [| e0 es] eqn:E;
      [congruence |].
    destruct (Hall e0 (or_introl eq_refl)) as (v & _ & <-).
    apply of_attr_eqb; assumption. }
  assert (Hdist : keys_distinct py_eqb (first_branches (map kf l))).
  { rewrite <- groups_of_keys; apply dict_wf_distinct; assumption. }
  unfold groups_of; rewrite (map_app kf l [e]); cbn [map].
  rewrite first_branches_snoc; unfold first_branch_step.
  destruct (existsb (fun k' => py_eqb k' (kf e)) (first_branches (map kf l)))
    eqn:Hex.
  - rewrite (groups_get_some _ _ _ Hex Hkeys), (groups_set _ _ _ _ Hex Hkeys Hdist).
    cbn [bind]; f_equal.
    apply map_ext_in; intros k Hk; cbv beta; f_equal; rewrite filter_snoc.
    destruct (py_eqb k (kf e)) eqn:E; [| rewrite app_nil_r; reflexivity].
    rewrite (Hkeys k Hk E); reflexivity.
  - rewrite (groups_get_none _ _ _ Hex).
    rewrite dict_set_absent by (apply groups_get_none; assumption).
    cbn [bind]; f_equal; rewrite map_app; cbn [map]; f_equal.
    + apply map_ext_in; intros k Hk; cbv beta; f_equal; rewrite filter_snoc.
      assert (E : py_eqb k (kf e) = false).
      { destruct (py_eqb k (kf e)) eqn:E; [| reflexivity].
        assert (existsb (fun k' => py_eqb k' (kf e)) (first_branches (map kf l))
                = true); [| congruence].
        apply existsb_exists; exists k; auto. }
      rewrite E, app_nil_r; reflexivity.
    + do 2 f_equal; rewrite filter_snoc.
      assert (Hr : py_eqb (kf e) (kf e) = true) by apply py_eqb_attr_refl.
      rewrite Hr.
      replace (filter (fun e0 => py_eqb (kf e) (kf e0)) l) with (@nil entity);
        [reflexivity |].
      symmetry; apply filter_none.
      intros e0 He0; destruct (py_eqb (kf e) (kf e0)) eqn:E; [| reflexivity].
      exfalso.
      apply of_attr_eqb in E.
      assert (Hin0 : In e0 (List.concat (dict_values (groups_of kf l))))
        by (apply (Permutation_in _ (Permutation_sym Hperm)); assumption).
      apply in_parts in Hin0 as (bv & sub & Hin & Hsub).
      destruct (Hmem _ _ Hin) as [_ Hall].
      destruct (Hall e0 Hsub) as (v & Hv & Hbv).
      rewrite (Hget e0) in Hv by (rewrite in_app_iff; auto).
      injection Hv as <-.
      assert (existsb (fun k' => py_eqb k' (kf e)) (first_branches (map kf l))
              = true); [| congruence].
      apply existsb_exists; exists bv; split.
      * rewrite <- groups_of_keys; apply (in_map fst) in Hin; exact Hin.
      * assert (Hb : bv = kf e) by (unfold kf in *; congruence).
        rewrite Hb; apply py_eqb_attr_refl.
Qed.

Lemma first_branches_incl (ks : list bval) : incl (first_branches ks) ks.
Proof.
  induction ks as [| k ks IH] using rev_ind; [intros ? [] |].
  rewrite first_branches_snoc; unfold first_branch_step.
  destruct (existsb _ (first_branches ks)).
  - intros x Hx; apply in_app_iff; left; apply IH; assumption.
  - intros x Hx; apply in_app_iff in Hx as [Hx | Hx];
      apply in_app_iff; [left; apply IH | right]; assumption.
Qed.

Lemma first_branches_all (ks : list bval) (k : bval) :
  In k ks -> exists k', In k' (first_branches ks) /\ (k' = k \/ py_eqb k' k = true).
Proof.
  induction ks as [| k0 ks IH] using rev_ind; [intros [] |].
  rewrite first_branches_snoc; unfold first_branch_step; intros Hin.
  apply in_app_iff in Hin as [Hin | [<- | []]].
  - destruct (IH Hin) as (k' & Hk' & H); exists k'; split; [| assumption].
    destruct (existsb _ (first_branches ks)); [| apply in_app_iff; left]; assumption.
  - destruct (existsb (fun k' => py_eqb k' k0) (first_branches ks)) eqn:E.
    + apply existsb_exists in E as (k' & Hk' & H); exists k'; auto.
    + exists k0; split; [apply in_app_iff; right; left; reflexivity | left; reflexivity].
Qed.

(** X5 (DiscreteFeature.split).  On a set of at least 2 entries whose
    values the feature can read, [split] signals [InvalidSplit] exactly
    when all entries have the same value; otherwise its partitions are,
    for each value in the order of first occurrence, the entries with that
    value in the order of the list, and the argument is null. *)
Theorem DF_split_groups (f : feature) (g : entity -> option value)
        (ents : list entity) :
  2 <= len ents ->
  (forall e, In e ents -> discrete_get f e = Ok (g e)) ->
  (DF_split f ents = Raise InvalidSplit
   <-> forall e e', In e ents -> In e' ents -> g e = g e')
  /\ (DF_split f ents = Raise InvalidSplit
      \/ exists w, DF_split f ents
                   = Ok (w, None, groups_of (fun e => of_attr (g e)) ents)).
Proof.
  intros Hlen Hget.
  set (kf := fun e => of_attr (g e)).
  pose proof (DF_group_groups f g ents Hget) as Hgroup; fold kf in Hgroup.
  pose proof (DF_group_grouped _ _ _ Hgroup) as [Hwf Hmem _].
  assert (Hcases : (len (groups_of kf ents) < 2
                    /\ DF_split f ents = Raise InvalidSplit)
                   \/ (2 <= len (groups_of kf ents)
                       /\ exists w, DF_split f ents
                                    = Ok (w, None, groups_of kf ents))).
  { unfold DF_split; rewrite assert_len_long, Hgroup by assumption; cbn [bind].
    destruct (Z.ltb_spec (len (groups_of kf ents)) 2) as [Hshort | Hlong];
      [left; split; [assumption | reflexivity] | right; split; [assumption |]].
    destruct (fsum_total (fun es => h <- entetp es ;; Ok (IZR (len es) * h)%R)
                         (dict_values (groups_of kf ents))) as [s ->].
    { intros es Hin; unfold dict_values in Hin; apply in_map_iff in Hin.
      destruct Hin as ([k es'] & <- & Hin); simpl.
      destruct (Hmem k es' Hin) as [Hne _].
      destruct (entetp_total es' Hne) as [h ->]; simpl; eauto. }
    cbn [bind]; unfold float_div.
    destruct (Z.eqb_spec (len ents) 0); [lia |]; cbn [bind]; eauto. }
  assert (Hlenk : len (groups_of kf ents)
                  = Z.of_nat (List.length (first_branches (map kf ents))))
    by (unfold len, groups_of; rewrite length_map; reflexivity).
  assert (Hsame : len (groups_of kf ents) < 2
                  <-> forall e e', In e ents -> In e' ents -> g e = g e').
  { rewrite Hlenk; split.
    - intros Hshort e e' He He'.
      assert (Hrep : forall e0, In e0 ents ->
                exists k, In k (first_branches (map kf ents)) /\ k = kf e0).
      { intros e0 He0.
        destruct (first_branches_all (map kf ents) (kf e0) (in_map kf _ _ He0))
          as (k & Hk & [-> | Heq]); [eauto |].
        exists k; split; [assumption |].
        apply first_branches_incl, in_map_iff in Hk as Hk'.
        destruct Hk' as (e1 & <- & _); apply of_attr_eqb; assumption. }
      destruct (Hrep e He) as (k & Hk & Hke), (Hrep e' He') as (k' & Hk' & Hke').
      apply of_attr_inj; fold (kf e) (kf e'); rewrite <- Hke, <- Hke'.
      destruct (first_branches (map kf ents)) as [| k1 [| k2 rest]];
        [destruct Hk | | simpl in Hshort; lia].
      destruct Hk as [<- | []], Hk' as [<- | []]; reflexivity.
    - intros Hall.
      pose proof (first_branches_incl (map kf ents)) as Hincl.
      rewrite <- groups_of_keys in Hincl.
      apply dict_wf_distinct in Hwf; rewrite groups_of_keys in Hwf, Hincl.
      destruct (first_branches (map kf ents)) as [| k1 [| k2 rest]];
        [simpl; lia | simpl; lia | exfalso].
      destruct Hwf as [Hd _].
      assert (H1 : In k1 (map kf ents)) by (apply Hincl; left; reflexivity).
      assert (H2 : In k2 (map kf ents)) by (apply Hincl; right; left; reflexivity).
      apply in_map_iff in H1 as (x1 & <- & Hx1), H2 as (x2 & <- & Hx2).
      specialize (Hd (kf x2) (or_introl eq_refl)).
      unfold kf in Hd; rewrite (Hall x1 x2 Hx1 Hx2), py_eqb_attr_refl in Hd.
      discriminate. }
  split.
  - rewrite <- Hsame; split.
    + intros Hr; destruct Hcases as [[Hshort _] | [_ [w Hw]]]; [assumption |].
      rewrite Hw in Hr; discriminate.
    + intros Hshort; destruct Hcases as [[_ Hr] | [Hlong _]]; [assumption | lia].
  - destruct Hcases as [[_ Hr] | [_ Hw]]; [left | right]; assumption.
Qed.

Lemma DF_split_groups_witness :
  (DF_split (DF "type") [e1; e2; e3] = Raise InvalidSplit
   <-> forall e e', In e [e1; e2; e3] -> In e' [e1; e2; e3] ->
                    Feature_get "type" e = Feature_get "type" e')
  /\ (DF_split (DF "type") [e1; e2; e3] = Raise InvalidSplit
      \/ exists w, DF_split (DF "type") [e1; e2; e3]
                   = Ok (w, None, [(BStr "line", [e1]); (BStr "block", [e2; e3])])).
Proof.
  apply (DF_split_groups (DF "type") (Feature_get "type") [e1; e2; e3]).
  - unfold len; simpl; lia.
  - intros e _; reflexivity.
Defined.

(** ** The choice of a Membership feature *)

Lemma MF_scan_none (ord : set_order) (ents : list entity)
      (d' : dict string (list entity))
      (st st' : option ((string * list entity) * R)) :
  foldM (MF_try ord ents) d' st = Ok st' ->
  (st' = None <-> st = None /\ forall v es, In (v, es) d' -> outside ents es = []).
Proof.
  revert st; induction d' as [| [v es] d' IH]; intros st; cbn [foldM].
  - intros [= <-]; split; [intros ->; split; [reflexivity | intros ? ? []] | tauto].
  - intros H; apply bind_ok in H as (st1 & H1 & H2).
    rewrite (IH _ H2); clear IH H2; unfold MF_try in H1.
    destruct (outside ents es) as [| e0 nes0] eqn:E.
    + injection H1 as <-; split; intros [Hst Hall]; (split; [assumption |]).
      * intros v' es' [[= <- <-] | Hin]; [assumption | apply (Hall v' es' Hin)].
      * intros v' es' Hin; apply (Hall v' es'); right; assumption.
    + apply bind_ok in H1 as (h1 & _ & H1).
      apply bind_ok in H1 as (h2 & _ & H1).
      apply bind_ok in H1 as (a & _ & [= <-]).
      split; intros [Hst Hall].
      * destruct (keep_min_cases st (v, e0 :: nes0) a) as [Hk | [Hk Hn]];
          rewrite Hk in Hst; [discriminate | contradiction].
      * specialize (Hall v es (or_introl eq_refl)); congruence.
Qed.

(** X6 (MembershipFeature.split).  On a set of at least 2 entries whose
    tokens the feature can read, [split] signals [InvalidSplit] exactly
    when the entries hold at most one token between them, or every token
    that occurs is held by every entry; in particular a single token that
    some entries lack does not make a split. *)
Theorem MF_split_invalid (ord : set_order) (f : feature) (ents : list entity) :
  2 <= len ents ->
  (forall e, In e ents -> exists tokens, member_get f e = Ok tokens) ->
  (MF_split ord f ents = Raise InvalidSplit
   <-> (forall v v' e e', holds_token f ents v e -> holds_token f ents v' e' ->
                          v = v')
       \/ (forall v e e', holds_token f ents v e -> In e' ents ->
                          holds_token f ents v e'))
  /\ (MF_split ord f ents = Raise InvalidSplit
      \/ exists w a parts, MF_split ord f ents = Ok (w, Some (VStr a), parts)).
Proof.
  intros Hlen Hget.
  destruct (MF_index_ok f ents Hget) as [d Hd].
  destruct (MF_index_indexed _ _ _ Hd) as [[Hwf Hsets Habs] _].
  assert (Hents : ents <> []) by (intros ->; unfold len in Hlen; simpl in Hlen; lia).
  destruct (MF_scan_total ord ents d None Hents) as [st Hst];
    [intros v es Hin; apply (Hsets v es Hin) |].
  pose proof (MF_scan_none ord ents d None st Hst) as Hnone.
  assert (Hkey : forall v e, holds_token f ents v e -> exists es, In (v, es) d).
  { intros v e Hh; destruct (dict_get String.eqb d v) as [es |] eqn:E.
    - exists es; apply dict_get_in_str; assumption.
    - exfalso; apply (Habs v e E Hh). }
  assert (Hone : len d < 2
                 <-> forall v v' e e', holds_token f ents v e ->
                                       holds_token f ents v' e' -> v = v').
  { split.
    - intros Hshort v v' e e' Hv Hv'.
      destruct (Hkey _ _ Hv) as [es Hes], (Hkey _ _ Hv') as [es' Hes'].
      destruct d as [| p1 [| p2 rest]];
        [destruct Hes | | unfold len in Hshort; simpl in Hshort; lia].
      destruct Hes as [-> | []], Hes' as [[= -> _] | []]; reflexivity.
    - intros Hall; destruct d as [| [v1 es1] [| [v2 es2] rest]];
        [unfold len; simpl; lia | unfold len; simpl; lia | exfalso].
      destruct (Hsets v1 es1 (or_introl eq_refl)) as (Hn1 & _ & H1).
      destruct (Hsets v2 es2 (or_intror (or_introl eq_refl))) as (Hn2 & _ & H2).
      destruct es1 as [| x1 ?]; [congruence |].
      destruct es2 as [| x2 ?]; [congruence |].
      pose proof (Hall v1 v2 x1 x2 (proj1 (H1 x1) (or_introl eq_refl))
                       (proj1 (H2 x2) (or_introl eq_refl))) as Heq.
      destruct Hwf as [Hd1 _].
      specialize (Hd1 v2 (or_introl eq_refl)).
      rewrite Heq, String.eqb_refl in Hd1; discriminate. }
  assert (Hevery : (forall v es, In (v, es) d -> outside ents es = [])
                   <-> forall v e e', holds_token f ents v e -> In e' ents ->
                                      holds_token f ents v e').
  { split.
    - intros Hall v e e' Hv He'.
      destruct (Hkey _ _ Hv) as [es Hes].
      destruct (Hsets v es Hes) as (_ & _ & Hiff); apply Hiff.
      destruct (mem e' es) eqn:E; [apply mem_In; assumption |].
      assert (Hout : In e' (outside ents es))
        by (apply outside_In; split; [assumption | apply mem_false; assumption]).
      rewrite (Hall v es Hes) in Hout; destruct Hout.
    - intros Hall v es Hin.
      destruct (Hsets v es Hin) as (Hne & _ & Hiff).
      destruct es as [| x es0] eqn:Ees; [congruence |]; rewrite <- Ees in *.
      assert (Hx : holds_token f ents v x) by (apply Hiff; rewrite Ees; left; reflexivity).
      apply filter_none; intros e' He'.
      apply negb_false_iff, mem_In, Hiff, (Hall v x e' Hx He'). }
  assert (Hsplit : MF_split ord f ents
                   = if len d <? 2 then Raise InvalidSplit
                     else match st with
                          | None => Raise InvalidSplit
                          | Some ((a, nes), m) =>
                              es <- dict_item String.eqb d a ;;
                              Ok (m, Some (VStr a),
                                  [(BBool true, set_list ord es); (BBool false, nes)])
                          end).
  { unfold MF_split; rewrite assert_len_long, Hd by assumption; cbn [bind].
    destruct (len d <? 2); [reflexivity |].
    unfold MF_scan; rewrite Hst; reflexivity. }
  assert (Hitem : forall a nes m, st = Some ((a, nes), m) ->
                    exists es, dict_item String.eqb d a = Ok es).
  { intros a nes m ->.
    destruct (MF_scan_kept ord ents d d None (Some (a, nes, m)) (incl_refl _) I Hst)
      as [(es & Hin & _) _].
    exists es; unfold dict_item; rewrite (dict_in_get _ _ _ Hwf Hin); reflexivity. }
  rewrite Hsplit, <- Hone, <- Hevery; clear Hsplit.
  destruct (Z.ltb_spec (len d) 2) as [Hshort | Hlong].
  - split; [split; auto | left; reflexivity].
  - destruct st as [[[a nes] m] |].
    + destruct (Hitem a nes m eq_refl) as [es ->]; cbn [bind].
      split; [| right; eauto].
      split; [discriminate |].
      intros [Hs | Hall]; [lia |].
      assert (Some (a, nes, m) = None); [| discriminate].
      apply Hnone; auto.
    + split; [split; [| reflexivity] | left; reflexivity].
      intros _; right; apply Hnone; reflexivity.
Qed.

Lemma MF_split_invalid_witness :
  let ents := [e3; mkEntity 4 "D" []] in
  (MF_split insertion_order (MF "words") ents = Raise InvalidSplit
   <-> (forall v v' e e', holds_token (MF "words") ents v e ->
                          holds_token (MF "words") ents v' e' -> v = v')
       \/ (forall v e e', holds_token (MF "words") ents v e -> In e' ents ->
                          holds_token (MF "words") ents v e'))
  /\ (MF_split insertion_order (MF "words") ents = Raise InvalidSplit
      \/ exists w a parts,
           MF_split insertion_order (MF "words") ents = Ok (w, Some (VStr a), parts)).
Proof.
  apply (MF_split_invalid insertion_order (MF "words") [e3; mkEntity 4 "D" []]).
  - unfold len; simpl; lia.
  - intros e [<- | [<- | []]]; eexists; reflexivity.
Defined.

(** ** The token chosen by [MembershipFeature.split] *)


Section ComputedMembership.
Variable A : arith.
Hypothesis Hord : ordered A.
Variables (ord : set_order) (ents : list entity).




End ComputedMembership.




(** ** The names of the features *)

Fixpoint no_colon (s : string) : Prop :=
  match s with
  | EmptyString => True
  | String c s' => c <> ":"%char /\ no_colon s'
  end.

Lemma digits_no_colon (d : Decimal.uint) : no_colon (NilEmpty.string_of_uint d).
Proof. induction d; simpl; try exact I; split; try assumption; discriminate. Qed.

Lemma to_uint_nonnil (n : nat) : Nat.to_uint n <> Decimal.Nil.
Proof.
  rewrite <- (DecimalNat.Unsigned.of_to n) at 1.
  rewrite DecimalNat.Unsigned.to_of; apply DecimalFacts.unorm_nonnil.
Qed.

Lemma decimal_no_colon (n : nat) : no_colon (decimal n).
Proof.
  unfold decimal, NilZero.string_of_uint.
  destruct (Nat.to_uint n) eqn:E; try (rewrite <- E; apply digits_no_colon).
  simpl; split; [discriminate | exact I].
Qed.

Lemma decimal_inj (i j : nat) : decimal i = decimal j -> i = j.
Proof.
  unfold decimal; intros H.
  apply DecimalNat.Unsigned.to_uint_inj.
  pose proof (NilZero.usu _ (to_uint_nonnil i)) as Hi.
  pose proof (NilZero.usu _ (to_uint_nonnil j)) as Hj.
  rewrite H in Hi; congruence.
Qed.

Lemma decimal_head (n : nat) :
  exists c s, decimal n = String c s /\ c <> ":"%char.
Proof.
  pose proof (decimal_no_colon n) as H.
  destruct (decimal n) as [| c s] eqn:E.
  - exfalso; unfold decimal, NilZero.string_of_uint in E.
    pose proof (to_uint_nonnil n) as Hn.
    destruct (Nat.to_uint n); try discriminate; congruence.
  - exists c, s; split; [reflexivity | apply H].
Qed.

(** The first colon ends the number. *)
Lemma colon_split (s s' a a' : string) :
  no_colon s -> no_colon s' ->
  (s ++ String ":" a)%string = (s' ++ String ":" a')%string -> s = s' /\ a = a'.
Proof.
  revert s'; induction s as [| c s IH]; intros [| c' s'] Hs Hs'; simpl.
  - intros [= ->]; auto.
  - intros [= Hc _]; destruct Hs' as [Hc' _]; congruence.
  - intros [= Hc _]; destruct Hs as [Hc' _]; congruence.
  - intros [= <- H]; destruct Hs as [_ Hs], Hs' as [_ Hs'].
    destruct (IH s' Hs Hs' H) as [-> ->]; auto.
Qed.

Lemma append_assoc3 (s t u : string) : ((s ++ t) ++ u = s ++ (t ++ u))%string.
Proof. induction s as [| c s IH]; simpl; [reflexivity | rewrite IH; reflexivity]. Qed.

Lemma numbered_inj (i j : nat) (a a' : string) :
  ((decimal i ++ ":") ++ a)%string = ((decimal j ++ ":") ++ a')%string ->
  i = j /\ a = a'.
Proof.
  rewrite !append_assoc3; simpl; intros H.
  apply colon_split in H as [H1 H2]; try apply decimal_no_colon.
  split; [apply decimal_inj; assumption | assumption].
Qed.

Lemma numbered_not_plain (i : nat) (a a' : string) :
  String ":" a <> ((decimal i ++ ":") ++ a')%string.
Proof.
  destruct (decimal_head i) as (c & s & -> & Hc); simpl; congruence.
Qed.


Lemma name_injective (f g : feature) : name f = name g -> f = g.
Proof.
  destruct f as [a | a i | a | a i | a], g as [b | b j | b | b j | b];
    simpl; intros H; try discriminate;
    try (injection H as H; subst; reflexivity);
    injection H as H.
  - exfalso; apply (numbered_not_plain _ _ _ H).
  - exfalso; symmetry in H; apply (numbered_not_plain _ _ _ H).
  - apply numbered_inj in H as [-> ->]; reflexivity.
  - exfalso; apply (numbered_not_plain _ _ _ H).
  - exfalso; symmetry in H; apply (numbered_not_plain _ _ _ H).
  - apply numbered_inj in H as [-> ->]; reflexivity.
Qed.

Lemma addfeat_fold_snoc (feats : list feature) (f : feature) (b : TreeBuilder) :
  fold_left addfeat (feats ++ [f]) b = addfeat (fold_left addfeat feats b) f.
Proof. rewrite fold_left_app; reflexivity. Qed.

Lemma addfeat_thresholds (feats : list feature) (b : TreeBuilder) :
  minkeys (fold_left addfeat feats b) = minkeys b
  /\ minetp (fold_left addfeat feats b) = minetp b.
Proof.
  revert b; induction feats as [| f feats IH]; intros b; simpl; [auto |].
  destruct (IH (addfeat b f)) as [-> ->]; auto.
Qed.

Lemma registered_again (feats : list feature) (f : feature) :
  In f feats ->
  dict_set String.eqb (map (fun f => (name f, f)) feats) (name f) f
  = map (fun f => (name f, f)) feats.
Proof.
  induction feats as [| g l IH]; [intros [] |]; intros Hf; cbn [map dict_set].
  destruct (String.eqb_spec (name g) (name f)) as [E | Hne].
  - apply name_injective in E; subst g; reflexivity.
  - f_equal; apply IH; destruct Hf as [-> | Hf]; [congruence | assumption].
Qed.

(** X9 (addfeat).  Features that differ never share a registry key: after
    registering a list of distinct features in an empty builder, the
    registry holds exactly these features, each under its own name, in the
    order of registration, and the thresholds are untouched.  Registering
    a feature again changes nothing. *)
Theorem addfeat_registers (feats : list feature) (mk : Z) (me : R) :
  NoDup feats ->
  features (fold_left addfeat feats (mkTreeBuilder [] mk me))
  = map (fun f => (name f, f)) feats
  /\ minkeys (fold_left addfeat feats (mkTreeBuilder [] mk me)) = mk
  /\ minetp (fold_left addfeat feats (mkTreeBuilder [] mk me)) = me
  /\ forall f, In f feats ->
       addfeat (fold_left addfeat feats (mkTreeBuilder [] mk me)) f
       = fold_left addfeat feats (mkTreeBuilder [] mk me).
Proof.
  intros Hnd.
  assert (Hfeats : features (fold_left addfeat feats (mkTreeBuilder [] mk me))
                   = map (fun f => (name f, f)) feats).
  { induction feats as [| f l IH] using rev_ind; [reflexivity |].
    apply NoDup_remove in Hnd as [Hnd Hf]; rewrite List.app_nil_r in Hnd, Hf.
    rewrite addfeat_fold_snoc; cbn [addfeat features].
    rewrite (IH Hnd), map_app; cbn [map].
    apply dict_set_absent, dict_get_none.
    intros k' Hk'; unfold dict_keys in Hk'; rewrite map_map in Hk'; simpl in Hk'.
    apply in_map_iff in Hk' as (g & <- & Hg).
    destruct (String.eqb_spec (name g) (name f)) as [E | _]; [| reflexivity].
    apply name_injective in E; subst g; contradiction. }
  destruct (addfeat_thresholds feats (mkTreeBuilder [] mk me)) as [Hk He].
  repeat split; try assumption.
  intros f Hf; unfold addfeat at 1.
  rewrite Hfeats, (registered_again feats f Hf), <- Hfeats.
  destruct (fold_left addfeat feats (mkTreeBuilder [] mk me)); reflexivity.
Qed.

Lemma addfeat_registers_witness :
  features (main_builder 10)
  = map (fun f => (name f, f))
        [DF "type"; DF1 "parentTypes" 0; MF1 "parentTypes" 1; MF "parentTypes";
         DF1 "leftTypes" 0; MF1 "leftTypes" 1; MF "leftTypes"; DF "codeLike";
         DF "empty"; DF1 "posTags" 0; MF1 "posTags" 1; MF "posTags"]
  /\ minkeys (main_builder 10) = 10
  /\ minetp (main_builder 10) = (1 / 10)%R
  /\ forall f,
       In f [DF "type"; DF1 "parentTypes" 0; MF1 "parentTypes" 1; MF "parentTypes";
             DF1 "leftTypes" 0; MF1 "leftTypes" 1; MF "leftTypes"; DF "codeLike";
             DF "empty"; DF1 "posTags" 0; MF1 "posTags" 1; MF "posTags"] ->
       addfeat (main_builder 10) f = main_builder 10.
Proof.
  apply (addfeat_registers
           [DF "type"; DF1 "parentTypes" 0; MF1 "parentTypes" 1; MF "parentTypes";
            DF1 "leftTypes" 0; MF1 "leftTypes" 1; MF "leftTypes"; DF "codeLike";
            DF "empty"; DF1 "posTags" 0; MF1 "posTags" 1; MF "posTags"]
           10 (1 / 10)%R).
  repeat constructor; simpl; intuition discriminate.
Defined.

(** X8 (Feature names).  The name under which a feature is registered
    tells the feature: two features with the same name are of the same
    class, read the same attribute and have the same index or number of
    members. *)
Theorem name_inj (f g : feature) : name f = name g -> f = g.
Proof. apply name_injective. Qed.

Lemma name_inj_witness : MF1 "posTags" 1 = MF1 "posTags" 1.
Proof. apply (name_inj (MF1 "posTags" 1) (MF1 "posTags" 1)); reflexivity. Defined.

(** ** Reading a persisted tree *)

(** Induction on persisted trees that reaches the children of a tuple. *)
Section DataInduction.
Variable P : pydata -> Prop.
Hypothesis Hscalar : forall k, P (PScalar k).
Hypothesis Htuple : forall nm arg default children,
    Forall (fun vb : bval * pydata => P (snd vb)) children ->
    P (PTuple nm arg default children).

Fixpoint pydata_induction (d : pydata) : P d :=
  match d with
  | PScalar k => Hscalar k
  | PTuple nm arg default children =>
      Htuple nm arg default children
        ((fix go (l : list (bval * pydata)) : Forall (fun vb => P (snd vb)) l :=
            match l with
            | [] => Forall_nil _
            | vb :: l' => Forall_cons vb (pydata_induction (snd vb)) (go l')
            end) children)
  end.
End DataInduction.

(** The feature names that occur in a persisted tree. *)
Fixpoint names_of (data : pydata) : list string :=
  match data with
  | PScalar _ => []
  | PTuple nm _ _ children =>
      nm :: flat_map (fun vb : bval * pydata => names_of (snd vb)) children
  end.

(** No branch value occurs twice among the children of a tuple. *)
Fixpoint data_wf (data : pydata) : Prop :=
  match data with
  | PScalar _ => True
  | PTuple _ _ _ children =>
      keys_distinct py_eqb (map fst children)
      /\ (fix all (l : list (bval * pydata)) : Prop :=
            match l with
            | [] => True
            | vb :: l' => data_wf (snd vb) /\ all l'
            end) children
  end.

Lemma data_wf_tuple (nm : string) (arg : option value) (default : string)
      (children : list (bval * pydata)) :
  data_wf (PTuple nm arg default children)
  <-> keys_distinct py_eqb (map fst children)
      /\ Forall (fun vb => data_wf (snd vb)) children.
Proof.
  cbn [data_wf]; split; intros [H1 H2]; (split; [assumption |]).
  - induction children as [| vb l IH]; constructor; [apply H2 |].
    apply IH; [destruct H1 as [_ H1]; exact H1 | apply H2].
  - induction H2 as [| vb l Hvb Hl IH]; [exact I |].
    split; [assumption | apply IH; destruct H1 as [_ H1]; exact H1].
Qed.

Definition import_child (b : TreeBuilder) (acc : dict bval tree)
           (vb : bval * pydata) : result (dict bval tree) :=
  t <- import_tree b (snd vb) ;; Ok (dict_set py_eqb acc (fst vb) t).

Lemma import_children_total (b : TreeBuilder) (l : list (bval * pydata))
      (acc : dict bval tree) :
  Forall (fun vb => exists t, import_tree b (snd vb) = Ok t) l ->
  exists ch, foldM (import_child b) l acc = Ok ch.
Proof.
  intros H; revert acc; induction H as [| vb l [t Ht] _ IH]; intros acc;
    cbn [foldM]; [eauto |].
  unfold import_child at 1; rewrite Ht; cbn [bind]; apply IH.
Qed.

Lemma import_children_cases (b : TreeBuilder) (l : list (bval * pydata))
      (acc : dict bval tree) (r : result (dict bval tree)) :
  foldM (import_child b) l acc = r ->
  match r with
  | Ok _ => Forall (fun vb => exists t, import_tree b (snd vb) = Ok t) l
  | Raise x => exists vb, In vb l /\ import_tree b (snd vb) = Raise x
  end.
Proof.
  revert acc; induction l as [| vb l IH]; intros acc; cbn [foldM].
  - intros <-; constructor.
  - unfold import_child at 1.
    destruct (import_tree b (snd vb)) as [t |] eqn:E; cbn [bind].
    + intros H; specialize (IH _ H); destruct r as [ch | x].
      * constructor; [eauto | assumption].
      * destruct IH as (vb' & Hin & Hr); exists vb'; split; [right |]; assumption.
    + intros <-; exists vb; split; [left; reflexivity | assumption].
Qed.

Lemma import_tuple (b : TreeBuilder) (nm : string) (arg : option value)
      (default : string) (children : list (bval * pydata)) :
  import_tree b (PTuple nm arg default children)
  = (ch <- foldM (import_child b) children [] ;;
     f <- dict_item String.eqb (features b) nm ;;
     Ok (TreeBranch f arg default ch)).
Proof. apply import_branch. Qed.

Lemma import_tree_cases (b : TreeBuilder) (data : pydata) :
  ((exists t, import_tree b data = Ok t)
   <-> forall nm, In nm (names_of data) ->
                  dict_get String.eqb (features b) nm <> None)
  /\ (forall x, import_tree b data = Raise x -> x = KeyError).
Proof.
  induction data as [k | nm arg default children IH] using pydata_induction.
  - split; [split; [intros _ nm [] | intros _; eexists; reflexivity] | discriminate].
  - rewrite import_tuple; cbn [names_of].
    assert (Hch : Forall (fun vb => exists t, import_tree b (snd vb) = Ok t) children
                  <-> forall nm', In nm' (flat_map (fun vb => names_of (snd vb)) children) ->
                                  dict_get String.eqb (features b) nm' <> None).
    { rewrite Forall_forall; split.
      - intros Hall nm' Hin; apply in_flat_map in Hin as (vb & Hvb & Hnm).
        rewrite Forall_forall in IH.
        apply (proj1 (proj1 (IH vb Hvb)) (Hall vb Hvb)); assumption.
      - intros Hall vb Hvb; rewrite Forall_forall in IH.
        apply (proj1 (IH vb Hvb)); intros nm' Hnm; apply Hall.
        apply in_flat_map; exists vb; auto. }
    destruct (foldM (import_child b) children []) as [ch | x] eqn:E;
      apply import_children_cases in E; cbn [bind].
    + unfold dict_item.
      destruct (dict_get String.eqb (features b) nm) as [f |] eqn:Ef; cbn [bind].
      * split; [| discriminate].
        split; [| eauto].
        intros _ nm' [<- | Hin]; [congruence | apply Hch; assumption].
      * split; [| intros x [= <-]; reflexivity].
        split; [intros [t Ht]; discriminate |].
        intros H; exfalso; apply (H nm); [left; reflexivity | assumption].
    + destruct E as (vb & Hvb & Hr); rewrite Forall_forall in IH.
      destruct (IH vb Hvb) as [Hiff Hkind].
      split.
      * split; [intros [t Ht]; discriminate |].
        intros H; exfalso.
        assert (Hok : exists t, import_tree b (snd vb) = Ok t).
        { apply Hiff; intros nm' Hnm; apply H; right.
          apply in_flat_map; exists vb; auto. }
        destruct Hok as [t Ht]; congruence.
      * intros x0 [= <-]; apply Hkind; assumption.
Qed.

Lemma registered_or_not {V : Type} (d : dict string V) (l : list string) :
  (forall nm, In nm l -> dict_get String.eqb d nm <> None)
  \/ (exists nm, In nm l /\ dict_get String.eqb d nm = None).
Proof.
  induction l as [| nm l [IH | (nm' & Hin & Hnone)]].
  - left; intros ? [].
  - destruct (dict_get String.eqb d nm) eqn:E.
    + left; intros nm' [<- | Hin]; [congruence | apply IH; assumption].
    + right; exists nm; split; [left; reflexivity | assumption].
  - right; exists nm'; split; [right |]; assumption.
Qed.

(** X10 (import_tree, failures).  On data of the shape that
    [export_tree] writes (a 4-tuple with a list of pairs of a branch
    value and a subtree, or a bare label), reading a persisted tree
    succeeds exactly when every feature name in it is registered in the
    builder, and raises [KeyError] otherwise. *)
Theorem import_tree_unregistered (b : TreeBuilder) (data : pydata) :
  ((exists t, import_tree b data = Ok t)
   <-> forall nm, In nm (names_of data) ->
                  dict_get String.eqb (features b) nm <> None)
  /\ ((exists nm, In nm (names_of data)
                  /\ dict_get String.eqb (features b) nm = None)
      <-> import_tree b data = Raise KeyError)
  /\ (forall x, import_tree b data = Raise x -> x = KeyError).
Proof.
  destruct (import_tree_cases b data) as [Hiff Hkind].
  split; [assumption | split; [| assumption]].
  split.
  - intros (nm & Hin & Hnone).
    destruct (import_tree b data) as [t | x] eqn:E.
    + exfalso; apply (proj1 Hiff (ex_intro _ t eq_refl) nm Hin Hnone).
    + rewrite (Hkind x eq_refl); reflexivity.
  - intros Hr.
    destruct (registered_or_not (features b) (names_of data)) as [Hall | Hex];
      [| assumption].
    destruct (proj2 Hiff Hall) as [t Ht]; congruence.
Qed.

Lemma import_children_export (b : TreeBuilder) (l : list (bval * pydata))
      (acc ch : dict bval tree) :
  keys_distinct py_eqb (dict_keys acc ++ map fst l) ->
  Forall (fun vb => forall t, import_tree b (snd vb) = Ok t ->
                              export_tree t = snd vb) l ->
  foldM (import_child b) l acc = Ok ch ->
  exists l', ch = acc ++ l'
             /\ map (fun vb : bval * tree => (fst vb, export_tree (snd vb))) l' = l.
Proof.
  revert acc; induction l as [| [v d] l IH]; intros acc Hk Hall; cbn [foldM].
  - intros [= <-]; exists []; rewrite List.app_nil_r; auto.
  - intros H; apply bind_ok in H as (acc1 & H1 & H2).
    unfold import_child in H1; cbn [fst snd] in H1.
    apply bind_ok in H1 as (t & Ht & [= <-]).
    inversion Hall as [| ? ? Hd Hl]; subst; cbn [snd] in Hd.
    destruct (keys_distinct_app _ _ _ Hk) as [_ Hfresh].
    rewrite dict_set_absent in H2.
    + destruct (IH (acc ++ [(v, t)])) with (3 := H2) as (l' & -> & Hl'); [| assumption |].
      * unfold dict_keys in *; rewrite map_app, <- app_assoc; exact Hk.
      * exists ((v, t) :: l'); split; [rewrite <- app_assoc; reflexivity |].
        cbn [map fst snd]; rewrite (Hd t Ht), Hl'; reflexivity.
    + apply dict_get_none; intros k' Hk'; apply Hfresh;
        [assumption | left; reflexivity].
Qed.

(** X11 (import_tree, then export_tree).  With a registry filled by
    [addfeat], data of the shape that [export_tree] writes, in which no
    tuple lists a branch value twice, is read without loss: exporting the
    tree that [import_tree] returns gives the data back. *)
Theorem export_of_import (b : TreeBuilder) (data : pydata) (t : tree) :
  registry_ok b -> data_wf data ->
  import_tree b data = Ok t -> export_tree t = data.
Proof.
  intros Hreg; revert t.
  induction data as [k | nm arg default children IH] using pydata_induction;
    intros t Hwf.
  - intros [= <-]; reflexivity.
  - apply data_wf_tuple in Hwf as [Hk Hch].
    rewrite import_tuple; intros H.
    apply bind_ok in H as (ch & Hchildren & H).
    apply bind_ok in H as (f & Hf & [= <-]).
    apply import_children_export in Hchildren as (l' & -> & Hl').
    + cbn [export_tree app]; rewrite Hl'; f_equal.
      unfold dict_item in Hf.
      destruct (dict_get String.eqb (features b) nm) as [g |] eqn:E;
        [| discriminate].
      injection Hf as ->; apply dict_get_in_str in E.
      destruct Hreg as [_ Hnames]; apply (Hnames nm f E).
    + exact Hk.
    + rewrite Forall_forall in IH, Hch |- *; intros vb Hin t Ht.
      apply IH; [assumption | apply Hch; assumption | assumption].
Qed.

Lemma export_of_import_witness :
  export_tree (words_tree "A")
  = PTuple "MF:words" (Some (VStr "x")) "A"
           [(BBool true, PScalar "A"); (BBool false, PScalar "C")].
Proof.
  apply (export_of_import words_builder
           (PTuple "MF:words" (Some (VStr "x")) "A"
                   [(BBool true, PScalar "A"); (BBool false, PScalar "C")])
           (words_tree "A")).
  - split; [simpl; split; [intros ? [] | exact I] |].
    simpl; intros n f [[= <- <-] | []]; reflexivity.
  - simpl; repeat split; intros k' Hk';
      repeat (destruct Hk' as [<- | Hk']; [reflexivity |]); destruct Hk'.
  - reflexivity.
Defined.

(** ** The numbers of the scoring loop *)

(** The tree answers [k] on the entry. *)
Definition answers (t : tree) (k : string) (e : entity) : bool :=
  match test t e with
  | Ok k' => String.eqb k' k
  | Raise _ => false
  end.

(** The entry has the label [k] and the tree answers [k] on it. *)
Definition hits (t : tree) (k : string) (e : entity) : bool :=
  String.eqb (key e) k && answers t k e.

(** The tree answers the label of the entry. *)
Definition hit (t : tree) (e : entity) : bool := answers t (key e) e.

Lemma zsum_incr (d : dict string Z) (k : string) :
  zsum (dict_values (incr d k)) = zsum (dict_values d) + 1.
Proof.
  unfold incr; destruct (dict_get String.eqb d k) as [c |] eqn:E.
  - destruct (dict_set_present String.eqb d k (c + 1) c E)
      as (d1 & k0 & d2 & -> & -> & _).
    unfold dict_values; rewrite !map_app; cbn [map snd].
    rewrite !zsum_app, !zsum_cons; lia.
  - rewrite dict_set_absent by assumption.
    unfold dict_values; rewrite map_app; cbn [map snd].
    rewrite zsum_app, zsum_cons; change (zsum []) with 0; lia.
Qed.

Record counted (t : tree) (l : list entity) (c : counters) : Prop := {
  counted_keys : forall k, lookup0 (keys c) k = count_label k l;
  counted_resp : forall k, lookup0 (resp c) k = len (filter (answers t k) l);
  counted_correct : forall k, lookup0 (correct c) k = len (filter (hits t k) l);
  counted_all : zsum (dict_values (keys c)) = len l;
  counted_right : zsum (dict_values (correct c)) = len (filter (hit t) l)
}.

Lemma len_filter_snoc {A : Type} (p : A -> bool) (l : list A) (a : A) :
  len (filter p (l ++ [a])) = len (filter p l) + (if p a then 1 else 0).
Proof.
  rewrite filter_snoc; unfold len; rewrite length_app.
  destruct (p a); simpl; lia.
Qed.

Lemma counted_step (t : tree) (l : list entity) (c c' : counters) (e : entity) :
  counted t l c -> tally_step t c e = Ok c' -> counted t (l ++ [e]) c'.
Proof.
  intros [Hk Hr Hc Ha Hg]; unfold tally_step; intros Hstep.
  apply bind_ok in Hstep as (k & Htest & Hc').
  assert (Hans : forall k0, answers t k0 e = String.eqb k k0)
    by (intros k0; unfold answers; rewrite Htest; reflexivity).
  assert (Hlen : len (l ++ [e]) = len l + 1)
    by (unfold len; rewrite length_app; simpl; lia).
  assert (Hcount : forall k0, count_label k0 (l ++ [e])
                              = count_label k0 l
                                + (if String.eqb (key e) k0 then 1 else 0))
    by (intros k0; unfold count_label;
        apply (len_filter_snoc (fun e0 => String.eqb (key e0) k0))).
  assert (Hkeys' : forall k0, lookup0 (incr (keys c) (key e)) k0
                              = count_label k0 (l ++ [e]))
    by (intros k0; rewrite lookup0_incr, Hcount, Hk; reflexivity).
  assert (Hresp' : forall k0, lookup0 (incr (resp c) k) k0
                              = len (filter (answers t k0) (l ++ [e])))
    by (intros k0; rewrite lookup0_incr, len_filter_snoc, Hr, Hans; reflexivity).
  assert (Hall' : zsum (dict_values (incr (keys c) (key e))) = len (l ++ [e]))
    by (rewrite zsum_incr, Ha, Hlen; reflexivity).
  destruct (String.eqb_spec (key e) k) as [Hhit | Hmiss]; injection Hc' as <-;
    constructor; cbn [keys resp correct]; try assumption.
  - intros k0; rewrite lookup0_incr, len_filter_snoc, Hc; unfold hits.
    rewrite Hans, Hhit; destruct (String.eqb k k0); reflexivity.
  - rewrite zsum_incr, len_filter_snoc, Hg; unfold hit.
    rewrite Hans, Hhit, String.eqb_refl; reflexivity.
  - intros k0; rewrite len_filter_snoc, Hc; unfold hits; rewrite Hans.
    destruct (String.eqb_spec (key e) k0) as [<- | _]; [| simpl; lia].
    destruct (String.eqb_spec k (key e)); [congruence | simpl; lia].
  - rewrite len_filter_snoc, Hg; unfold hit; rewrite Hans.
    destruct (String.eqb_spec k (key e)); [congruence | lia].
Qed.

Lemma counted_tally (t : tree) (l : list entity) (c : counters) :
  tally t l = Ok c -> counted t l c.
Proof.
  revert c; induction l as [| e l IH] using rev_ind; intros c.
  - intros [= <-]; constructor; intros; reflexivity.
  - unfold tally; rewrite foldM_app; intros H.
    apply bind_ok in H as (c0 & H0 & H1); simpl in H1.
    apply bind_ok in H1 as (c1 & H1 & [= <-]).
    apply (counted_step t l c0); [apply IH; exact H0 | exact H1].
Qed.

Lemma mapM_inv {A B : Type} (f : A -> result B) (l : list A) (bs : list B) :
  mapM f l = Ok bs -> Forall2 (fun a b => f a = Ok b) l bs.
Proof.
  revert bs; induction l as [| a l IH]; intros bs; simpl.
  - intros [= <-]; constructor.
  - intros H; apply bind_ok in H as (b & Hb & H).
    apply bind_ok in H as (bs' & Hbs & [= <-]).
    constructor; [assumption | apply IH; assumption].
Qed.

Lemma dict_item_lookup0 (d : dict string Z) (k : string) (v : Z) :
  dict_item String.eqb d k = Ok v -> lookup0 d k = v.
Proof.
  unfold dict_item, lookup0; destruct (dict_get String.eqb d k);
    [intros [= <-]; reflexivity | discriminate].
Qed.

(** X12 (the counts that [main] prints).  When the scoring ends, each
    line shows, for its label, the number of entries of that label that the
    tree answered with it, the number of entries that the tree answered
    with it, and the number of entries of that label; the last line shows
    the number of entries that the tree answered with their own label and
    the number of all entries. *)
Theorem score_counts (t : tree) (ents : list entity) (ls : list line)
        (totals : Z * Z) :
  score t ents = Ok (ls, totals) ->
  Forall (fun ln =>
            line_correct ln = len (filter (hits t (line_label ln)) ents)
            /\ line_resp ln = len (filter (answers t (line_label ln)) ents)
            /\ line_keys ln = count_label (line_label ln) ents) ls
  /\ totals = (len (filter (hit t) ents), len ents).
Proof.
  unfold score; intros H.
  apply bind_ok in H as (c & Hc & H).
  apply bind_ok in H as (ls' & Hls & [= <- <-]).
  pose proof (counted_tally _ _ _ Hc) as [Hk Hr Hcor Ha Hg].
  pose proof (tallied_tally _ _ _ Hc) as [Hwf _ _ _ _].
  split; [| rewrite Ha, Hg; reflexivity].
  apply mapM_inv in Hls.
  assert (Hin : forall kv, In kv (correct c) ->
                           lookup0 (correct c) (fst kv) = snd kv).
  { intros [k v] Hin; unfold lookup0; cbn [fst snd].
    rewrite (dict_in_get _ _ _ Hwf Hin); reflexivity. }
  revert Hls Hin; generalize (correct c) at 1 2; intros l0 Hls.
  induction Hls as [| [k v] ln d ls' Hln _ IH]; intros Hin; constructor.
  - specialize (Hin (k, v) (or_introl eq_refl)); cbn [fst snd] in Hin.
    unfold report_line in Hln.
    apply bind_ok in Hln as (rk & Hrk & Hln).
    apply bind_ok in Hln as (p & _ & Hln).
    apply bind_ok in Hln as (kk & Hkk & Hln).
    apply bind_ok in Hln as (r & _ & Hln).
    apply bind_ok in Hln as (f & _ & [= <-]); cbn.
    apply dict_item_lookup0 in Hrk, Hkk.
    rewrite <- Hcor, <- Hr, <- Hk; auto.
  - apply IH; intros kv Hkv; apply Hin; right; assumption.
Qed.

Lemma score_total (t : tree) (ents : list entity) :
  (forall e, In e ents -> exists k, test t e = Ok k) ->
  exists ls totals, score t ents = Ok (ls, totals).
Proof.
  intros Htest; destruct (tally_ok t ents Htest) as [c Hc].
  pose proof (tallied_tally _ _ _ Hc) as Hinv.
  destruct (mapM_ok (report_line c) line_of (correct c)) as (ls & Hls & _).
  { intros kv Hin; apply (report_line_ok t ents); assumption. }
  exists ls; eexists; unfold score; rewrite Hc; simpl; rewrite Hls; reflexivity.
Qed.

Lemma score_counts_witness :
  exists ls totals,
    score (TreeLeaf "A") [e1; e2; e3] = Ok (ls, totals)
    /\ Forall (fun ln =>
                 line_correct ln
                 = len (filter (hits (TreeLeaf "A") (line_label ln)) [e1; e2; e3])
                 /\ line_resp ln
                    = len (filter (answers (TreeLeaf "A") (line_label ln))
                                  [e1; e2; e3])
                 /\ line_keys ln = count_label (line_label ln) [e1; e2; e3]) ls
    /\ totals = (1, 3).
Proof.
  destruct (score_total (TreeLeaf "A") [e1; e2; e3]) as (ls & totals & Hs);
    [intros e _; exists "A"; reflexivity |].
  exists ls, totals; split; [exact Hs |].
  exact (score_counts (TreeLeaf "A") [e1; e2; e3] ls totals Hs).
Defined.

Lemma filter_len_le {A : Type} (p : A -> bool) (l : list A) :
  0 <= len (filter p l) <= len l.
Proof.
  unfold len; pose proof (filter_length_le p l); lia.
Qed.

(** X13 (the ratios that [main] prints).  On every line the number of
    right answers is at least 1 and at most the number of answers and the
    number of entries of the label; the precision and the recall are the
    quotients of the first by the two others, which are greater than 0
    and at most 1.  On the last line the first number is at most the
    second. *)
Theorem score_ratios (t : tree) (ents : list entity) (ls : list line)
        (totals : Z * Z) :
  score t ents = Ok (ls, totals) ->
  Forall (fun ln =>
            1 <= line_correct ln <= line_resp ln
            /\ line_correct ln <= line_keys ln
            /\ line_prec ln = (IZR (line_correct ln) / IZR (line_resp ln))%R
            /\ line_recl ln = (IZR (line_correct ln) / IZR (line_keys ln))%R
            /\ (0 < line_prec ln <= 1)%R /\ (0 < line_recl ln <= 1)%R) ls
  /\ 0 <= fst totals <= snd totals.
Proof.
  intros Hs; unfold score in Hs.
  apply bind_ok in Hs as (c & Hc & Hs).
  apply bind_ok in Hs as (ls' & Hls & [= <- <-]).
  pose proof (tallied_tally _ _ _ Hc) as Hinv.
  pose proof (counted_tally _ _ _ Hc) as [_ _ _ Ha Hg].
  split; [| cbn [fst snd]; rewrite Ha, Hg; apply filter_len_le].
  apply mapM_inv in Hls.
  assert (Hin : forall kv, In kv (correct c) -> In kv (correct c)) by auto.
  revert Hls Hin; generalize (correct c) at 1 2; intros l0 Hls.
  induction Hls as [| kv ln d ls' Hln _ IH]; intros Hin; constructor.
  - destruct (report_line_ok t ents c kv Hinv (Hin kv (or_introl eq_refl)))
      as (ln' & Hln' & Hline).
    rewrite Hln in Hln'; injection Hln' as <-.
    destruct Hline as (_ & _ & H1 & H2 & H3 & Hp & Hr & Hf).
    assert (Hc1 : (1 <= IZR (line_correct ln))%R) by (apply IZR_le; assumption).
    assert (Hc2 : (IZR (line_correct ln) <= IZR (line_resp ln))%R)
      by (apply IZR_le; assumption).
    assert (Hc3 : (IZR (line_correct ln) <= IZR (line_keys ln))%R)
      by (apply IZR_le; assumption).
    assert (Hratio : forall a b, (1 <= a)%R -> (a <= b)%R -> (0 < a / b <= 1)%R).
    { intros a b Ha1 Hab; split.
      - apply Rdiv_lt_0_compat; lra.
      - apply (Rmult_le_reg_r b); [lra |].
        unfold Rdiv; rewrite Rmult_assoc, Rinv_l by lra; lra. }
    pose proof (Hratio _ _ Hc1 Hc2) as Hpb; rewrite <- Hp in Hpb.
    pose proof (Hratio _ _ Hc1 Hc3) as Hrb; rewrite <- Hr in Hrb.
    repeat split; first [assumption | apply Hpb | apply Hrb].
  - apply IH; intros kv' Hkv'; apply Hin; right; assumption.
Qed.

Lemma score_ratios_witness :
  exists ls totals,
    score (TreeLeaf "A") [e1; e2; e3] = Ok (ls, totals)
    /\ Forall (fun ln =>
                 1 <= line_correct ln <= line_resp ln
                 /\ line_correct ln <= line_keys ln
                 /\ line_prec ln = (IZR (line_correct ln) / IZR (line_resp ln))%R
                 /\ line_recl ln = (IZR (line_correct ln) / IZR (line_keys ln))%R
                 /\ (0 < line_prec ln <= 1)%R /\ (0 < line_recl ln <= 1)%R) ls
    /\ 0 <= fst totals <= snd totals.
Proof.
  destruct (score_total (TreeLeaf "A") [e1; e2; e3]) as (ls & totals & Hs);
    [intros e _; exists "A"; reflexivity |].
  exists ls, totals; split; [exact Hs |].
  exact (score_ratios (TreeLeaf "A") [e1; e2; e3] ls totals Hs).
Defined.

(** ** The tree on the entries it was built from *)






(** ** The shape of a built tree *)














(** ** The two branches of [main] *)


Lemma main_builder_thresholds (mk : Z) :
  minkeys (main_builder mk) = mk /\ minetp (main_builder mk) = (1 / 10)%R.
Proof. split; reflexivity. Qed.

(** [build] stops before any split on a set that is too small or has one
    label only. *)
Lemma build_stops (ord : set_order) (b : TreeBuilder) (ents : list entity) :
  ents <> [] ->
  len ents < minkeys b
  \/ ((0 < minetp b)%R
      /\ forall e e', In e ents -> In e' ents -> key e = key e') ->
  build ord b ents = Ok None.
Proof.
  intros Hne Hstop; apply build_eq; unfold build_body.
  destruct (entetp_total ents Hne) as [etp Hetp]; unfold entetp in Hetp.
  rewrite Hetp.
  destruct (Rltb etp (minetp b)) eqn:Hcmp; [reflexivity |].
  destruct Hstop as [Hlen | [Hmin Hsame]].
  - destruct (Z.ltb_spec (len ents) (minkeys b)); [reflexivity | lia].
  - exfalso.
    rewrite (countkeys_same_label ents Hne Hsame), calcetp_single in Hetp
      by (unfold len; destruct ents; [congruence | simpl; lia]).
    injection Hetp as <-.
    rewrite Rltb_true in Hcmp by assumption; discriminate.
Qed.

(** X16 (training).  The training branch of [main] fails with
    [ZeroDivisionError] on an empty input, and with [AttributeError], when
    it comes to print the tree, on an input of fewer entries than
    [minkeys] or of entries that all have one label, because [build]
    returns null there; when it prints a tree, this is the export of the
    tree that [build] returned. *)
Theorem train_outcomes (ord : set_order) (mk : Z) (ents : list entity) :
  (ents = [] -> train ord mk ents = Raise ZeroDivisionError)
  /\ (ents <> [] ->
      len ents < mk \/ (forall e e', In e ents -> In e' ents -> key e = key e') ->
      train ord mk ents = Raise AttributeError)
  /\ (forall data, train ord mk ents = Ok data ->
        exists t, build ord (main_builder mk) ents = Ok (Some t)
                  /\ data = export_tree t).
Proof.
  split; [| split].
  - intros ->; reflexivity.
  - intros Hne Hstop; unfold train.
    rewrite (build_stops ord (main_builder mk) ents Hne); [reflexivity |].
    destruct (main_builder_thresholds mk) as [-> ->].
    destruct Hstop as [Hlen | Hsame]; [left; assumption | right; split; [lra | assumption]].
  - unfold train; intros data H.
    apply bind_ok in H as ([t |] & Hb & H); [| discriminate].
    injection H as <-; eauto.
Qed.

Lemma train_outcomes_witness :
  ([e1; e2; e3] = [] ->
   train insertion_order 10 [e1; e2; e3] = Raise ZeroDivisionError)
  /\ ([e1; e2; e3] <> [] ->
      len [e1; e2; e3] < 10
      \/ (forall e e', In e [e1; e2; e3] -> In e' [e1; e2; e3] -> key e = key e') ->
      train insertion_order 10 [e1; e2; e3] = Raise AttributeError)
  /\ (forall data, train insertion_order 10 [e1; e2; e3] = Ok data ->
        exists t, build insertion_order (main_builder 10) [e1; e2; e3]
                  = Ok (Some t)
                  /\ data = export_tree t).
Proof. exact (train_outcomes insertion_order 10 [e1; e2; e3]). Defined.







(** X24 (build with a positive entropy threshold).  With an entropy
    threshold above 0, as the default 0.10 of [main], [build] raises
    nothing on a non-empty set whose attribute values the registered
    features can read: it returns a tree or null.  A set of one entry
    stops at the entropy test, so that no feature is asked to split it. *)
Theorem build_never_raises (ord : set_order) (b : TreeBuilder)
        (ents : list entity) :
  (0 < minetp b)%R -> ents <> [] ->
  (forall f, In f (dict_values (features b)) -> can_read f ents = true) ->
  (exists r, build ord b ents = Ok r)
  /\ (len ents = 1 -> build ord b ents = Ok None).
Proof.
  intros Hmin Hne Hread; split.
  - apply (build_total ord b (S (List.length ents)) Hmin ents
             (Nat.lt_succ_diag_r _) Hne Hread).
  - intros Hone; apply build_stops; [assumption |].
    right; split; [assumption |].
    destruct ents as [| e0 [| e1 l]]; try (unfold len in Hone; simpl in Hone; lia).
    intros e e' [<- | []] [<- | []]; reflexivity.
Qed.

Lemma build_never_raises_witness :
  (0 < minetp (main_builder 2))%R
  /\ [e1; e2] <> []
  /\ (exists r, build insertion_order (main_builder 2) [e1; e2] = Ok r)
  /\ (len [e1; e2] = 1 ->
      build insertion_order (main_builder 2) [e1; e2] = Ok None).
Proof.
  assert (Hmin : (0 < minetp (main_builder 2))%R)
    by (change (minetp (main_builder 2)) with (1 / 10)%R; lra).
  split; [exact Hmin | split; [discriminate |]].
  apply (build_never_raises insertion_order (main_builder 2) [e1; e2] Hmin);
    [discriminate |].
  intros f Hin; cbn in Hin.
  repeat (destruct Hin as [<- | Hin]; [reflexivity |]); destruct Hin.
Defined.

(** * Properties of [learn.py] *)

(** ** The splits of the two programs *)

(** The feature of [learncomm.py] that reads the same attribute. *)
Definition same_feature (f : Learn.feature) : feature :=
  match f with
  | Learn.DF n => DF n
  | Learn.QF n => QF n
  end.

(** The result of a split of [learncomm.py] without its branch values. *)
Definition subsets (r : result split_result) : result Learn.split_result :=
  match r with
  | Ok (w, arg, parts) => Ok (w, arg, dict_values parts)
  | Raise x => Raise x
  end.

Lemma learn_group (n : string) (ents : list entity) (d : dict bval (list entity)) :
  foldM (DF_step (DF n)) ents d = Ok (fold_left (Learn.DF_step n) ents d).
Proof.
  revert d; induction ents as [| e l IH]; intros d; cbn [foldM fold_left];
    [reflexivity |].
  unfold DF_step at 1; cbn [discrete_get bind]; unfold Feature_get.
  replace (match dict_get py_eqb d (of_attr (getitem e n)) with
           | Some es => Ok (dict_set py_eqb d (of_attr (getitem e n)) (es ++ [e]))
           | None => Ok (dict_set py_eqb d (of_attr (getitem e n)) [e])
           end) with (@Ok (dict bval (list entity)) (Learn.DF_step n d e))
    by (unfold Learn.DF_step; destruct (dict_get py_eqb d (of_attr (getitem e n)));
        reflexivity).
  cbn [bind]; apply IH.
Qed.

Lemma learn_DF_split (n : string) (ents : list entity) :
  Learn.DF_split n ents = subsets (DF_split (DF n) ents).
Proof.
  unfold Learn.DF_split, DF_split, DF_group.
  destruct (assert (2 <=? len ents)); cbn [bind subsets]; [| reflexivity].
  rewrite learn_group; cbn [bind].
  destruct (len (fold_left (Learn.DF_step n) ents []) <? 2); [reflexivity |].
  change Learn.entetp with entetp.
  destruct (fsum _ _) as [s |]; cbn [bind subsets]; [| reflexivity].
  destruct (float_div s (len ents)); reflexivity.
Qed.

Lemma learn_all_defined (n : string) (ents : list entity) :
  Learn.all_defined (Learn.QF_pairs n ents)
  = match undefined n ents with
    | [] => Some (defined n ents)
    | _ :: _ => None
    end.
Proof.
  unfold Learn.QF_pairs, defined, undefined, Feature_get.
  induction ents as [| e l IH]; [reflexivity |]; cbn [map Learn.all_defined filter flat_map].
  destruct (getitem e n) as [v |]; [| reflexivity].
  rewrite IH; destruct (filter _ l); reflexivity.
Qed.

Lemma learn_QF_try (es : list entity) (vs : list value) :
  Learn.QF_try es vs (Z.of_nat (List.length es)) = QF_try es vs.
Proof. reflexivity. Qed.

(** On entries that all have a value, the Quantitative split is the one
    of [learncomm.py]. *)
Lemma learn_QF_split (n : string) (ents : list entity) :
  undefined n ents = [] ->
  Learn.QF_split n ents = subsets (QF_split n ents).
Proof.
  intros Hun; unfold Learn.QF_split, QF_split, Learn.sort_keys.
  destruct (Z.leb_spec 2 (len ents)) as [Hlen | Hlen]; unfold assert;
    cbn [bind subsets]; [| reflexivity].
  rewrite learn_all_defined, QF_collect_eq, Hun.
  pose proof (defined_undefined_length n ents) as Hl; rewrite Hun in Hl.
  cbn [List.length] in Hl; rewrite Nat.add_0_r in Hl.
  destruct (defined n ents) as [| [e0 v0] rest] eqn:Hdef;
    [unfold len in Hlen; rewrite <- Hl in Hlen; simpl in Hlen; lia |].
  rewrite <- Hdef in *.
  destruct (sort_pairs (defined n ents)) as [sorted |] eqn:Hsort;
    cbn [bind subsets]; [| reflexivity].
  pose proof (sort_pairs_inv _ _ Hsort) as (Hperm & _ & _).
  apply Permutation_length in Hperm.
  assert (Hes : len ents = Z.of_nat (List.length (map fst sorted)))
    by (unfold len; rewrite length_map, Hperm, Hl; reflexivity).
  assert (Hvs : (Z.to_nat (len ents) - 1 = List.length (map snd sorted) - 1)%nat)
    by (unfold len; rewrite length_map, Hperm, Hl, Nat2Z.id; reflexivity).
  assert (Hv0 : nth 0 (map snd sorted) (VInt 0) = nth 0 (map snd sorted) v0).
  { apply nth_indep; rewrite length_map, Hperm, Hdef; simpl; lia. }
  rewrite Hes, learn_QF_try, <- Hes, Hvs, Hv0.
  unfold QF_scan.
  destruct (foldM _ _ _) as [[v m] |]; cbn [bind subsets]; [| reflexivity].
  destruct m as [[minsplit w] |]; reflexivity.
Qed.

Lemma learn_QF_split_undefined (n : string) (ents : list entity) :
  undefined n ents <> [] -> 2 <= len ents ->
  Learn.QF_split n ents = Raise TypeError.
Proof.
  intros Hun Hlen; unfold Learn.QF_split, Learn.sort_keys.
  rewrite assert_len_long by assumption; cbn [bind].
  rewrite learn_all_defined.
  destruct (undefined n ents); [congruence | reflexivity].
Qed.

Lemma learn_split_main (ord : set_order) (f : Learn.feature) (ents : list entity) :
  (forall n, f = Learn.QF n -> undefined n ents = []) ->
  Learn.split f ents = subsets (split ord (same_feature f) ents).
Proof.
  destruct f as [n | n]; intros H; cbn [Learn.split same_feature split].
  - apply learn_DF_split.
  - apply learn_QF_split, H; reflexivity.
Qed.

(** A split of [learn.py] that succeeds is a split of [learncomm.py]. *)
Lemma learn_split_ok (ord : set_order) (f : Learn.feature) (ents : list entity)
      (w : R) (arg : option value) (sp : list (list entity)) :
  Learn.split f ents = Ok (w, arg, sp) ->
  exists parts, split ord (same_feature f) ents = Ok (w, arg, parts)
                /\ sp = dict_values parts.
Proof.
  intros H.
  assert (Hdef : forall n, f = Learn.QF n -> undefined n ents = []).
  { intros n ->; cbn [Learn.split] in H.
    destruct (undefined n ents) as [| e0 l] eqn:E; [reflexivity | exfalso].
    destruct (Z.leb_spec 2 (len ents)) as [Hlen | Hlen].
    - rewrite learn_QF_split_undefined in H by (congruence || assumption).
      discriminate.
    - unfold Learn.QF_split in H; rewrite assert_len_short in H by assumption.
      discriminate. }
  rewrite (learn_split_main ord f ents Hdef) in H.
  destruct (split ord (same_feature f) ents) as [[[w' arg'] parts] |];
    [| discriminate].
  injection H as -> -> <-; eauto.
Qed.

Lemma learn_split_parts (f : Learn.feature) (ents : list entity)
      (w : R) (arg : option value) (sp : list (list entity)) :
  Learn.split f ents = Ok (w, arg, sp) ->
  (2 <= List.length sp)%nat
  /\ forall sub, In sub sp ->
       sub <> [] /\ (List.length sub < List.length ents)%nat /\ incl sub ents.
Proof.
  intros H.
  destruct (learn_split_ok insertion_order f ents w arg sp H) as (parts & Hs & ->).
  destruct (split_parts insertion_order _ ents w arg parts Hs) as (H2 & _ & Hsub).
  unfold dict_values; rewrite length_map; split; [assumption |].
  intros sub Hin; apply in_map_iff in Hin as ([bv sub'] & <- & Hin).
  apply (Hsub bv sub' Hin).
Qed.

(** X18 (the splits of learn.py).  The Discrete split of [learn.py]
    returns the weighted entropy and the groups that the Discrete split
    of [learncomm.py] returns on the same attribute, without the branch
    values, and fails as it fails; so does the Quantitative split when
    every entry has a value.  When some entry has none, the Quantitative
    split of [learn.py] raises [TypeError] on a set of at least 2 entries,
    where [learncomm.py] files these entries under ['un']. *)
Theorem learn_split_agrees (ord : set_order) (f : Learn.feature)
        (ents : list entity) :
  ((forall n, f = Learn.QF n -> undefined n ents = []) ->
   Learn.split f ents = subsets (split ord (same_feature f) ents))
  /\ (forall n, f = Learn.QF n -> undefined n ents <> [] -> 2 <= len ents ->
                Learn.split f ents = Raise TypeError).
Proof.
  split; [apply learn_split_main |].
  intros n -> Hun Hlen; apply learn_QF_split_undefined; assumption.
Qed.

Lemma learn_split_agrees_witness :
  Learn.split (Learn.QF "value") five
  = subsets (split insertion_order (QF "value") five).
Proof.
  apply (learn_split_agrees insertion_order (Learn.QF "value") five).
  intros n [= <-]; reflexivity.
Defined.

(** ** Termination of [build] in [learn.py] *)

Section LearnBuilding.
Variable b : Learn.TreeBuilder.

Definition learn_state : Type :=
  option ((Learn.feature * option value * list (list entity)) * R).

Definition learn_choose_step (ents : list entity) (st : learn_state)
           (feat : Learn.feature) : result learn_state :=
  match Learn.split feat ents with
  | Raise InvalidSplit => Ok st
  | Raise x => Raise x
  | Ok (etp, arg, sp) => Ok (keep_min st (feat, arg, sp) etp)
  end.

(** What the loop over the features keeps is a split of one of them. *)
Lemma learn_chosen_loop (ents : list entity) (feats : list Learn.feature)
      (st st' : learn_state) :
  (forall f arg sp w, st = Some ((f, arg, sp), w) ->
                      Learn.split f ents = Ok (w, arg, sp)) ->
  foldM (learn_choose_step ents) feats st = Ok st' ->
  forall f arg sp w, st' = Some ((f, arg, sp), w) ->
                     Learn.split f ents = Ok (w, arg, sp).
Proof.
  revert st; induction feats as [| g feats IH]; intros st Hst; cbn [foldM].
  - intros [= <-]; assumption.
  - intros H; apply bind_ok in H as (st1 & H1 & H2).
    apply (IH st1); [| assumption].
    unfold learn_choose_step in H1.
    destruct (Learn.split g ents) as [[[w' arg'] sp'] | x] eqn:Hg.
    + injection H1 as <-.
      destruct (keep_min_cases st (g, arg', sp') w') as [-> | [-> _]];
        [| assumption].
      intros f arg sp w [= <- <- <- <-]; assumption.
    + destruct x; try discriminate; injection H1 as <-; assumption.
Qed.

Lemma learn_choose_split (ents : list entity) (f : Learn.feature)
      (arg : option value) (sp : list (list entity)) (w : R) :
  Learn.choose b ents = Ok (Some ((f, arg, sp), w)) ->
  Learn.split f ents = Ok (w, arg, sp).
Proof.
  intros H.
  apply (learn_chosen_loop ents (Learn.features b) None (Some ((f, arg, sp), w)));
    [discriminate | exact H | reflexivity].
Qed.

Lemma learn_children_ext (rec1 rec2 : list entity -> option (result (option Learn.tree)))
      (sp : list (list entity)) :
  (forall sub, In sub sp -> rec1 sub = rec2 sub) ->
  Learn.build_children rec1 sp = Learn.build_children rec2 sp.
Proof.
  induction sp as [| es sp IH]; intros H; cbn [Learn.build_children];
    [reflexivity |].
  rewrite (H es) by (left; reflexivity).
  rewrite IH by (intros; apply H; right; assumption); reflexivity.
Qed.

Lemma learn_children_some (rec : list entity -> option (result (option Learn.tree)))
      (sp : list (list entity)) :
  (forall sub, In sub sp -> rec sub <> None) ->
  Learn.build_children rec sp <> None.
Proof.
  induction sp as [| es sp IH]; intros H; cbn [Learn.build_children];
    [discriminate |].
  pose proof (H es (or_introl eq_refl)) as Hes.
  assert (Hrest : Learn.build_children rec sp <> None)
    by (apply IH; intros; apply H; right; assumption).
  destruct (rec es) as [[r | x] |]; [| discriminate | congruence].
  destruct (match r with
            | Some branch => Ok branch
            | None => best <- bestkey (countkeys es) ;; Ok (Learn.TreeLeaf best)
            end); [| discriminate].
  destruct (Learn.build_children rec sp) as [[children | x] |];
    [discriminate | discriminate | congruence].
Qed.

Lemma learn_body_ext (rec1 rec2 : list entity -> option (result (option Learn.tree)))
      (ents : list entity) :
  (forall sub, (List.length sub < List.length ents)%nat -> rec1 sub = rec2 sub) ->
  Learn.build_body b rec1 ents = Learn.build_body b rec2 ents.
Proof.
  intros H; unfold Learn.build_body.
  destruct (calcetp_learn (countkeys ents)) as [etp |]; [| reflexivity].
  destruct (len ents <? 2); [reflexivity |].
  destruct (len (countkeys ents) <? Learn.minkeys b); [reflexivity |].
  destruct (Rltb etp (Learn.minent b)); [reflexivity |].
  destruct (Learn.choose b ents) as [[[[[f arg] sp] w] |] |] eqn:Hc; try reflexivity.
  apply learn_choose_split in Hc.
  destruct (learn_split_parts f ents w arg sp Hc) as (_ & Hsub).
  rewrite (learn_children_ext rec1 rec2); [reflexivity |].
  intros sub Hin; apply H, (Hsub sub Hin).
Qed.

Lemma learn_body_some (rec : list entity -> option (result (option Learn.tree)))
      (ents : list entity) :
  (forall sub, (List.length sub < List.length ents)%nat -> rec sub <> None) ->
  Learn.build_body b rec ents <> None.
Proof.
  intros H; unfold Learn.build_body.
  destruct (calcetp_learn (countkeys ents)) as [etp |]; [| discriminate].
  destruct (len ents <? 2); [discriminate |].
  destruct (len (countkeys ents) <? Learn.minkeys b); [discriminate |].
  destruct (Rltb etp (Learn.minent b)); [discriminate |].
  destruct (Learn.choose b ents) as [[[[[f arg] sp] w] |] |] eqn:Hc; try discriminate.
  apply learn_choose_split in Hc.
  destruct (learn_split_parts f ents w arg sp Hc) as (_ & Hsub).
  pose proof (learn_children_some rec sp) as Hch.
  destruct (Learn.build_children rec sp) as [[children |] |]; try discriminate.
  exfalso; apply Hch; [| reflexivity].
  intros sub Hin; apply H, (Hsub sub Hin).
Qed.

Lemma learn_fuel_some (fuel : nat) (ents : list entity) :
  (List.length ents < fuel)%nat -> Learn.build_fuel b fuel ents <> None.
Proof.
  revert ents; induction fuel as [| fuel IH]; intros ents Hlen; [lia |].
  simpl; apply learn_body_some; intros sub Hsub; apply IH; lia.
Qed.

Lemma learn_fuel_stable (n m : nat) (ents : list entity) :
  (List.length ents < n)%nat -> (List.length ents < m)%nat ->
  Learn.build_fuel b n ents = Learn.build_fuel b m ents.
Proof.
  revert m ents; induction n as [| n IH]; intros [| m] ents Hn Hm; try lia.
  simpl; apply learn_body_ext; intros sub Hsub; apply IH; lia.
Qed.

Lemma learn_build_fuel_enough (fuel : nat) (ents : list entity) :
  (List.length ents < fuel)%nat ->
  Learn.build_fuel b fuel ents = Some (Learn.build b ents).
Proof.
  intros Hlen; unfold Learn.build.
  rewrite (learn_fuel_stable fuel (S (List.length ents))) by lia.
  pose proof (learn_fuel_some (S (List.length ents)) ents) as Hsome.
  destruct (Learn.build_fuel b (S (List.length ents)) ents); [reflexivity |].
  exfalso; apply Hsome; [lia | reflexivity].
Qed.

(** [build] satisfies the equation of its body. *)
Lemma learn_build_unfold (ents : list entity) :
  Some (Learn.build b ents)
  = Learn.build_body b (fun sub => Some (Learn.build b sub)) ents.
Proof.
  rewrite <- (learn_build_fuel_enough (S (List.length ents))) by lia; simpl.
  apply learn_body_ext; intros sub Hsub; apply learn_build_fuel_enough; assumption.
Qed.

Lemma learn_build_eq (ents : list entity) (r : result (option Learn.tree)) :
  Learn.build_body b (fun sub => Some (Learn.build b sub)) ents = Some r ->
  Learn.build b ents = r.
Proof. rewrite <- learn_build_unfold; congruence. Qed.
End LearnBuilding.

(** ** What [build] of [learn.py] returns and raises *)

(** Every Quantitative feature of the builder finds an integer in every
    entry, as in [main], which computes the two deltas of every entry. *)
Definition quantified (b : Learn.TreeBuilder) (ents : list entity) : Prop :=
  forall n e, In (Learn.QF n) (Learn.features b) -> In e ents ->
              exists z, getitem e n = Some (VInt z).

Lemma quantified_incl (b : Learn.TreeBuilder) (sub ents : list entity) :
  incl sub ents -> quantified b ents -> quantified b sub.
Proof. intros Hincl H n e Hn He; apply (H n e Hn), Hincl, He. Qed.

Lemma defined_ints (n : string) (ents : list entity) :
  (forall e, In e ents -> exists z, getitem e n = Some (VInt z)) ->
  undefined n ents = [] /\ one_kind (defined n ents).
Proof.
  intros H; split.
  - apply filter_none; intros e He; unfold Feature_get.
    destruct (H e He) as [z ->]; reflexivity.
  - intros p q Hp Hq; destruct p as [e v], q as [e' v'].
    apply defined_In in Hp as [Hp Hv], Hq as [Hq Hv']; unfold Feature_get in *.
    destruct (H e Hp) as [z Hz], (H e' Hq) as [z' Hz'].
    assert (v = VInt z) by congruence; assert (v' = VInt z') by congruence.
    subst; reflexivity.
Qed.

Lemma QF_split_kinds (n : string) (ents : list entity) :
  2 <= len ents ->
  (exists r, QF_split n ents = Ok r)
  \/ QF_split n ents = Raise InvalidSplit
  \/ QF_split n ents = Raise TypeError.
Proof.
  intros Hlen.
  destruct (sort_pairs (defined n ents)) as [sorted | x] eqn:Hsort.
  - destruct (QF_split_total n ents Hlen) as [H | H]; [| auto | auto].
    apply sort_pairs_inv in Hsort as (Hperm & _ & Hkind).
    intros p q Hp Hq; apply Hkind; apply (Permutation_in _ (Permutation_sym Hperm));
      assumption.
  - right; right; unfold QF_split.
    rewrite assert_len_long by assumption; cbn [bind]; rewrite QF_collect_eq.
    unfold sort_pairs in Hsort.
    destruct (defined n ents) as [| [e0 v0] rest]; [discriminate |].
    unfold sort_pairs.
    destruct (forallb (fun p => same_kind v0 (snd p)) ((e0, v0) :: rest));
      [discriminate | reflexivity].
Qed.

(** On at least two entries a split of [learn.py] returns, or signals
    [InvalidSplit], or, for a Quantitative feature that does not find an
    integer in every entry, may raise [TypeError]. *)
Lemma learn_split_kinds (f : Learn.feature) (ents : list entity) :
  2 <= len ents ->
  (exists r, Learn.split f ents = Ok r)
  \/ Learn.split f ents = Raise InvalidSplit
  \/ (Learn.split f ents = Raise TypeError
      /\ exists n, f = Learn.QF n
                   /\ ~ forall e, In e ents -> exists z, getitem e n = Some (VInt z)).
Proof.
  intros Hlen; destruct f as [n | n]; cbn [Learn.split].
  - rewrite learn_DF_split.
    destruct (DF_split_total (DF n) ents Hlen) as [[[[w arg] parts] ->] | ->];
      [intros e _; eexists; reflexivity | left; eexists; reflexivity |].
    right; left; reflexivity.
  - destruct (undefined n ents) as [| e0 l] eqn:Hun.
    + rewrite (learn_QF_split n ents Hun).
      destruct (QF_split_kinds n ents Hlen) as [[[[w arg] parts] Hr] | [Hr | Hr]];
        rewrite Hr; cbn [subsets]; [left; eauto | right; left; reflexivity |].
      right; right; split; [reflexivity |].
      exists n; split; [reflexivity |]; intros Hint.
      destruct (defined_ints n ents Hint) as [_ Hkind].
      destruct (QF_split_total n ents Hlen Hkind) as [[r Hr'] | Hr']; congruence.
    + right; right; split;
        [apply learn_QF_split_undefined; [congruence | assumption] |].
      exists n; split; [reflexivity |]; intros Hint.
      destruct (defined_ints n ents Hint) as [Hnone _]; congruence.
Qed.

Section LearnOutcome.
Variable b : Learn.TreeBuilder.

Lemma learn_choose_kinds (ents : list entity) (feats : list Learn.feature)
      (st : learn_state) :
  2 <= len ents -> incl feats (Learn.features b) ->
  (exists st', foldM (learn_choose_step ents) feats st = Ok st')
  \/ (foldM (learn_choose_step ents) feats st = Raise TypeError
      /\ ~ quantified b ents).
Proof.
  intros Hlen; revert st; induction feats as [| g feats IH]; intros st Hincl;
    cbn [foldM]; [left; eauto |].
  assert (Hrest : incl feats (Learn.features b))
    by (intros x Hx; apply Hincl; right; assumption).
  unfold learn_choose_step at 1 3.
  destruct (learn_split_kinds g ents Hlen)
    as [[[[w arg] sp] ->] | [-> | [-> (n & -> & Hnot)]]]; cbn [bind].
  - apply IH; assumption.
  - apply IH; assumption.
  - right; split; [reflexivity |].
    intros Hq; apply Hnot; intros e He.
    apply (Hq n e); [apply Hincl; left; reflexivity | assumption].
Qed.

Lemma learn_children_kinds (sp : list (list entity)) (ents : list entity) :
  (forall sub, In sub sp -> sub <> [] /\ incl sub ents) ->
  (forall sub, In sub sp ->
     (exists r, Learn.build b sub = Ok r)
     \/ (Learn.build b sub = Raise TypeError /\ ~ quantified b sub)) ->
  (exists children,
     Learn.build_children (fun sub => Some (Learn.build b sub)) sp
     = Some (Ok children))
  \/ (Learn.build_children (fun sub => Some (Learn.build b sub)) sp
      = Some (Raise TypeError)
      /\ ~ quantified b ents).
Proof.
  induction sp as [| es sp IH]; intros Hsub Hrec; cbn [Learn.build_children];
    [left; eauto |].
  destruct (Hsub es (or_introl eq_refl)) as [Hne Hincl].
  destruct (Hrec es (or_introl eq_refl)) as [[r ->] | [-> Hnot]].
  - assert (Hchild : exists child,
              match r with
              | Some branch => Ok branch
              | None => best <- bestkey (countkeys es) ;; Ok (Learn.TreeLeaf best)
              end = Ok child).
    { destruct r as [t |]; [eauto |].
      destruct (bestkey_ok (countkeys es)) as [best ->]; [| cbn [bind]; eauto].
      intros H; apply (countkeys_nonempty es Hne); rewrite H; reflexivity. }
    destruct Hchild as [child ->].
    destruct IH as [[children ->] | [-> Hnot]];
      [intros; apply Hsub; right; assumption
      | intros; apply Hrec; right; assumption
      | left; eauto | right; split; [reflexivity | assumption]].
  - right; split; [reflexivity |].
    intros Hq; apply Hnot, (quantified_incl b es ents Hincl Hq).
Qed.

Lemma learn_build_kinds (n : nat) :
  forall ents, (List.length ents < n)%nat -> ents <> [] ->
    (exists r, Learn.build b ents = Ok r)
    \/ (Learn.build b ents = Raise TypeError /\ ~ quantified b ents).
Proof.
  induction n as [| n IH]; intros ents Hlen Hne; [lia |].
  assert (Hbody : (exists r, Learn.build_body b (fun sub => Some (Learn.build b sub)) ents
                             = Some (Ok r))
                  \/ (Learn.build_body b (fun sub => Some (Learn.build b sub)) ents
                      = Some (Raise TypeError)
                      /\ ~ quantified b ents)).
  { unfold Learn.build_body.
    destruct (entetp_total ents Hne) as [etp Hetp]; unfold entetp in Hetp.
    rewrite calcetp_learn_eq, Hetp.
    destruct (Z.ltb_spec (len ents) 2) as [| Hlong]; [left; eauto |].
    destruct (len (countkeys ents) <? Learn.minkeys b); [left; eauto |].
    destruct (Rltb etp (Learn.minent b)); [left; eauto |].
    unfold Learn.choose.
    destruct (learn_choose_kinds ents (Learn.features b) None Hlong (incl_refl _))
      as [[st Hst] | [Hst Hnot]];
      [| right; split; [| assumption];
         change (foldM _ (Learn.features b) None)
           with (foldM (learn_choose_step ents) (Learn.features b) None);
         rewrite Hst; reflexivity].
    change (foldM _ (Learn.features b) None)
      with (foldM (learn_choose_step ents) (Learn.features b) None).
    rewrite Hst.
    destruct st as [[[[f arg] sp] w] |]; [| left; eauto].
    pose proof (learn_chosen_loop ents (Learn.features b) None _
                  ltac:(discriminate) Hst f arg sp w eq_refl) as Hf.
    destruct (learn_split_parts f ents w arg sp Hf) as (_ & Hsub).
    destruct (learn_children_kinds sp ents) as [[children ->] | [-> Hnot]];
      [| | left; eauto | right; split; [reflexivity | assumption]].
    - intros sub Hin; destruct (Hsub sub Hin) as (H1 & _ & H3); auto.
    - intros sub Hin; destruct (Hsub sub Hin) as (H1 & H2 & _).
      apply IH; [lia | assumption]. }
  destruct Hbody as [[r Hr] | [Hr Hnot]].
  - left; exists r; apply learn_build_eq; assumption.
  - right; split; [apply learn_build_eq; assumption | assumption].
Qed.
End LearnOutcome.

(** X19 (build of learn.py).  [build] of [learn.py] ends on every set,
    within a recursion depth of the size of the set.  On the empty set it
    raises [ZeroDivisionError]; on a set of one entry it returns null
    without asking for a split; on any other set it returns, or raises
    the [TypeError] of a sort over values that cannot be compared; it
    returns whenever every Quantitative feature of the builder finds an
    integer in every entry. *)
Theorem learn_build_outcomes (b : Learn.TreeBuilder) (ents : list entity) :
  (forall fuel, (List.length ents < fuel)%nat ->
                Learn.build_fuel b fuel ents = Some (Learn.build b ents))
  /\ (ents = [] -> Learn.build b ents = Raise ZeroDivisionError)
  /\ (len ents = 1 -> Learn.build b ents = Ok None)
  /\ (ents <> [] ->
      (exists r, Learn.build b ents = Ok r)
      \/ Learn.build b ents = Raise TypeError)
  /\ (ents <> [] -> quantified b ents -> exists r, Learn.build b ents = Ok r).
Proof.
  split; [intros fuel; apply learn_build_fuel_enough |].
  split; [intros ->; reflexivity |].
  split; [| split].
  - intros Hone; apply learn_build_eq; unfold Learn.build_body.
    destruct (entetp_total ents) as [etp Hetp];
      [intros ->; unfold len in Hone; simpl in Hone; lia |].
    unfold entetp in Hetp; rewrite calcetp_learn_eq, Hetp, Hone; reflexivity.
  - intros Hne.
    destruct (learn_build_kinds b (S (List.length ents)) ents
                (Nat.lt_succ_diag_r _) Hne) as [H | [H _]]; auto.
  - intros Hne Hq.
    destruct (learn_build_kinds b (S (List.length ents)) ents
                (Nat.lt_succ_diag_r _) Hne) as [H | [_ H]]; [assumption | contradiction].
Qed.

Definition value_builder : Learn.TreeBuilder :=
  Learn.mkTreeBuilder [Learn.QF "value"] 2 0%R.

Lemma learn_build_outcomes_witness :
  (forall fuel, (List.length five < fuel)%nat ->
                Learn.build_fuel value_builder fuel five
                = Some (Learn.build value_builder five))
  /\ (five = [] -> Learn.build value_builder five = Raise ZeroDivisionError)
  /\ (len five = 1 -> Learn.build value_builder five = Ok None)
  /\ (five <> [] ->
      (exists r, Learn.build value_builder five = Ok r)
      \/ Learn.build value_builder five = Raise TypeError)
  /\ (five <> [] -> quantified value_builder five ->
      exists r, Learn.build value_builder five = Ok r).
Proof. exact (learn_build_outcomes value_builder five). Defined.

(** ** The builder and the persisted trees of [learn.py] *)

Lemma learn_getfeat (nm : string) :
  Learn.getfeat nm
  = if String.eqb nm "deltaLine" then Ok (Learn.QF "deltaLine")
    else if String.eqb nm "deltaCols" then Ok (Learn.QF "deltaCols")
    else Raise KeyError.
Proof.
  unfold Learn.getfeat, dict_item.
  change Learn.name2feat
    with [("deltaLine", Learn.QF "deltaLine"); ("deltaCols", Learn.QF "deltaCols")].
  cbn [dict_get].
  rewrite (String.eqb_sym "deltaLine" nm), (String.eqb_sym "deltaCols" nm).
  destruct (String.eqb nm "deltaLine"); [reflexivity |].
  destruct (String.eqb nm "deltaCols"); reflexivity.
Qed.



(** X20 (TreeBuilder of learn.py).  A builder is made exactly from names
    of the two known features; it then holds the Quantitative feature of
    each name, in the order of the names and as often as a name is given.
    Any other name raises [KeyError]. *)
Theorem learn_new_builder (names : list string) (mk : Z) (me : R) :
  ((forall nm, In nm names -> nm = "deltaLine" \/ nm = "deltaCols") ->
   Learn.new names mk me = Ok (Learn.mkTreeBuilder (map Learn.QF names) mk me))
  /\ ((exists nm, In nm names /\ nm <> "deltaLine" /\ nm <> "deltaCols") ->
      Learn.new names mk me = Raise KeyError).
Proof.
  unfold Learn.new; split.
  - intros H.
    assert (Hm : mapM Learn.getfeat names = Ok (map Learn.QF names)).
    { induction names as [| nm l IH]; [reflexivity |]; cbn [mapM map].
      rewrite IH by (intros; apply H; right; assumption); rewrite learn_getfeat.
      destruct (H nm (or_introl eq_refl)) as [-> | ->]; reflexivity. }
    rewrite Hm; reflexivity.
  - intros (nm & Hin & H1 & H2).
    assert (Hm : mapM Learn.getfeat names = Raise KeyError).
    { induction names as [| nm' l IH]; [destruct Hin |]; cbn [mapM].
      rewrite learn_getfeat.
      destruct (String.eqb_spec nm' "deltaLine") as [-> | Hn1]; cbn [bind].
      - destruct Hin as [<- | Hin]; [congruence |]; rewrite (IH Hin); reflexivity.
      - destruct (String.eqb_spec nm' "deltaCols") as [-> | Hn2]; cbn [bind];
          [| reflexivity].
        destruct Hin as [<- | Hin]; [congruence |]; rewrite (IH Hin); reflexivity. }
    rewrite Hm; reflexivity.
Qed.

Lemma learn_new_builder_witness :
  Learn.new ["deltaLine"; "deltaCols"] 2 (1 / 100)%R
  = Ok (Learn.mkTreeBuilder [Learn.QF "deltaLine"; Learn.QF "deltaCols"]
                            2 (1 / 100)%R).
Proof.
  apply (learn_new_builder ["deltaLine"; "deltaCols"] 2 (1 / 100)%R).
  intros nm [<- | [<- | []]]; auto.
Defined.

(** ** The tree that [build] of [learn.py] returns *)

Section LearnResult.
Variable b : Learn.TreeBuilder.







End LearnResult.



(** Fewer labels than [minkeys]: no tree. *)
Lemma learn_build_few_labels (b : Learn.TreeBuilder) (ents : list entity) :
  ents <> [] -> len (countkeys ents) < Learn.minkeys b ->
  Learn.build b ents = Ok None.
Proof.
  intros Hne Hk; apply learn_build_eq; unfold Learn.build_body.
  destruct (entetp_total ents Hne) as [etp Hetp]; unfold entetp in Hetp.
  rewrite calcetp_learn_eq, Hetp.
  destruct (len ents <? 2); [reflexivity |].
  destruct (Z.ltb_spec (len (countkeys ents)) (Learn.minkeys b)); [reflexivity | lia].
Qed.




(** ** Export and import in [learn.py] *)

Section LearnTreeInduction.
Variable P : Learn.tree -> Prop.
Hypothesis Hleaf : forall k, P (Learn.TreeLeaf k).
Hypothesis Hbranch : forall f arg children,
    Forall P children -> P (Learn.TreeBranch f arg children).

End LearnTreeInduction.








(** Two entries as [main] of [learn.py] prepares them. *)
Definition delta (n : nat) (dl dc : Z) (label : string) : entity :=
  mkEntity n label [("deltaLine", VInt dl); ("deltaCols", VInt dc)].

Definition two_lines : list entity := [delta 1 1 0 "A"; delta 2 2 0 "B"].






(** ** [main] of [learn.py] *)

Definition learn_main_builder : Learn.TreeBuilder :=
  Learn.mkTreeBuilder [Learn.QF "deltaLine"; Learn.QF "deltaCols"] 2 (1 / 100)%R.

Lemma learn_main_eq (ents : list entity) :
  Learn.main ents
  = (root <- Learn.build learn_main_builder ents ;;
     match root with
     | None => Raise AttributeError
     | Some t => Ok (Learn.export_tree t)
     end).
Proof. reflexivity. Qed.

(** X23 (main of learn.py).  On no entry at all [main] of [learn.py]
    fails with [ZeroDivisionError].  On entries that have their two
    integer deltas, as [main] computes them, it prints the export of the
    tree that [build] returned or, when [build] returned null, fails with
    [AttributeError] on [root.dump()]; this is what happens on a single
    entry and on entries that all have one label. *)
Theorem learn_main_outcomes (ents : list entity) :
  (ents = [] -> Learn.main ents = Raise ZeroDivisionError)
  /\ (ents <> [] ->
      (forall e, In e ents ->
         exists z1 z2, getitem e "deltaLine" = Some (VInt z1)
                       /\ getitem e "deltaCols" = Some (VInt z2)) ->
      (Learn.build learn_main_builder ents = Ok None
       /\ Learn.main ents = Raise AttributeError)
      \/ exists t, Learn.build learn_main_builder ents = Ok (Some t)
                   /\ Learn.main ents = Ok (Learn.export_tree t))
  /\ (ents <> [] ->
      len ents = 1 \/ (forall e e', In e ents -> In e' ents -> key e = key e') ->
      Learn.main ents = Raise AttributeError).
Proof.
  split; [intros ->; reflexivity | split].
  - intros Hne Hint; rewrite learn_main_eq.
    assert (Hq : quantified learn_main_builder ents).
    { intros n e [[= <-] | [[= <-] | []]] He;
        destruct (Hint e He) as (z1 & z2 & H1 & H2); eauto. }
    destruct (learn_build_kinds learn_main_builder (S (List.length ents)) ents
                (Nat.lt_succ_diag_r _) Hne) as [[[t |] Hr] | [_ Hnot]];
      [right; exists t | left | contradiction]; rewrite Hr; auto.
  - intros Hne Hstop; rewrite learn_main_eq.
    rewrite (learn_build_few_labels learn_main_builder ents Hne); [reflexivity |].
    change (Learn.minkeys learn_main_builder) with 2.
    assert (Hsame : forall e e', In e ents -> In e' ents -> key e = key e').
    { destruct Hstop as [Hone | Hsame]; [| assumption].
      destruct ents as [| e0 [| e1 l]]; try (unfold len in Hone; simpl in Hone; lia).
      intros e e' [<- | []] [<- | []]; reflexivity. }
    pose proof (countkeys_same_label ents Hne Hsame) as Hv.
    apply (f_equal (@List.length Z)) in Hv.
    unfold dict_values in Hv; rewrite length_map in Hv.
    unfold len; rewrite Hv; simpl; lia.
Qed.

Lemma learn_main_outcomes_witness :
  (two_lines = [] -> Learn.main two_lines = Raise ZeroDivisionError)
  /\ (two_lines <> [] ->
      (forall e, In e two_lines ->
         exists z1 z2, getitem e "deltaLine" = Some (VInt z1)
                       /\ getitem e "deltaCols" = Some (VInt z2)) ->
      (Learn.build learn_main_builder two_lines = Ok None
       /\ Learn.main two_lines = Raise AttributeError)
      \/ exists t, Learn.build learn_main_builder two_lines = Ok (Some t)
                   /\ Learn.main two_lines = Ok (Learn.export_tree t))
  /\ (two_lines <> [] ->
      len two_lines = 1
      \/ (forall e e', In e two_lines -> In e' two_lines -> key e = key e') ->
      Learn.main two_lines = Raise AttributeError).
Proof. exact (learn_main_outcomes two_lines). Defined.
